(** * GetGSA ingest pipeline (src/main.py): field extraction, validation,
      NAICS-to-SIN mapping and checklist aggregation.

    Texts are Python [str] values.  They are modelled as lists of [ascii],
    read as the code points 0..255; the character predicates below are
    Python's Unicode tables restricted to that range. *)

From Stdlib Require Import String Ascii List Bool Arith Lia Permutation.
Import Corelib.Init.Datatypes.
Import ListNotations.

Set Implicit Arguments.
Open Scope string_scope.
Open Scope nat_scope.
Open Scope list_scope.

(** ** Python strings *)

Abbreviation str := (list ascii).

Definition str_of (s : string) : str := list_ascii_of_string s.
Coercion str_of : string >-> list.

Definition nl : ascii := ascii_of_nat 10.
Definition comma : ascii := ascii_of_nat 44.

Definition code (c : ascii) : nat := nat_of_ascii c.

Definition in_range (lo hi : nat) (c : ascii) : bool :=
  (lo <=? code c) && (code c <=? hi).

(** [str.isspace] on one character (also the regex class \s):
    TAB..CR, FS..US, SPACE, NEL and NBSP. *)
Definition isspace (c : ascii) : bool :=
  in_range 9 13 c || in_range 28 32 c || (code c =? 133) || (code c =? 160).

(** \d : the decimal digits. *)
Definition isdigit (c : ascii) : bool := in_range 48 57 c.

(** Alphabetic and numeric characters below 256 ([str.isalnum]). *)
Definition isalnum (c : ascii) : bool :=
  in_range 48 57 c || in_range 65 90 c || in_range 97 122 c
  || (code c =? 170) || (code c =? 178) || (code c =? 179) || (code c =? 181)
  || in_range 185 186 c || in_range 188 190 c
  || in_range 192 214 c || in_range 216 246 c || in_range 248 255 c.

(** \w : alphanumeric or underscore. *)
Definition isword (c : ascii) : bool := isalnum c || (code c =? 95).

(** Simple case mappings below 256. *)
Definition lower (c : ascii) : ascii :=
  if in_range 65 90 c || (in_range 192 222 c && negb (code c =? 215))
  then ascii_of_nat (code c + 32) else c.

Definition upper (c : ascii) : ascii :=
  if in_range 97 122 c || (in_range 224 254 c && negb (code c =? 247))
  then ascii_of_nat (code c - 32) else c.

(** [str.lower] *)
Definition str_lower (s : str) : str := map lower s.

Fixpoint str_eqb (a b : str) : bool :=
  match a, b with
  | [], [] => true
  | x :: a', y :: b' => Ascii.eqb x y && str_eqb a' b'
  | _, _ => false
  end.

Fixpoint dropwhile (p : ascii -> bool) (s : str) : str :=
  match s with
  | c :: s' => if p c then dropwhile p s' else s
  | [] => []
  end.

Fixpoint takewhile (p : ascii -> bool) (s : str) : str :=
  match s with
  | c :: s' => if p c then c :: takewhile p s' else []
  | [] => []
  end.

(** [str.strip()] with no argument: whitespace removed at both ends. *)
Definition lstrip (s : str) : str := dropwhile isspace s.
Definition rstrip (s : str) : str := rev (dropwhile isspace (rev s)).
Definition strip (s : str) : str := rstrip (lstrip s).

(** [str.split(sep)] for a separator of one character: the result always
    has at least one element. *)
Fixpoint split (sep : ascii) (s : str) : list str :=
  match s with
  | [] => [[]]
  | c :: s' =>
      if Ascii.eqb c sep then [] :: split sep s'
      else match split sep s' with
           | seg :: segs => (c :: seg) :: segs
           | [] => [[c]]
           end
  end.

(** Truthiness of a [str] and of an [Optional[str]]. *)
Definition nonempty (s : str) : bool :=
  match s with [] => false | _ :: _ => true end.

Definition truthy (o : option str) : bool :=
  match o with Some s => nonempty s | None => false end.

(** [not xs] on a list, and [x is None]. *)
Definition is_empty (A : Type) (l : list A) : bool :=
  match l with [] => true | _ :: _ => false end.

Definition is_none (A : Type) (o : option A) : bool :=
  match o with None => true | Some _ => false end.

(** ** Regular expressions (the fragment of [re] used by main.py)

    Every repetition in the source is a greedy repetition of a
    one-character class, so [Rep cs lo] stands for [cs{lo,}]:
    [cs*] is [Rep cs 0] and [cs+] is [Rep cs 1]. *)

Inductive citem : Type :=
| CChar (c : ascii)
| CRange (lo hi : ascii)
| CDigit
| CSpace
| CWord.

Inductive charset : Type :=
| Any                       (* .      *)
| OneOf (l : list citem)    (* [...]  *)
| NoneOf (l : list citem).  (* [^...] *)

Inductive regex : Type :=
| Str (l : str)
| Rep (cs : charset) (lo : nat)
| Grp (r : regex)
| Cat (r1 r2 : regex)
| Bol
| Eol.

Definition item_match (it : citem) (c : ascii) : bool :=
  match it with
  | CChar a => Ascii.eqb a c
  | CRange lo hi => in_range (code lo) (code hi) c
  | CDigit => isdigit c
  | CSpace => isspace c
  | CWord => isword c
  end.

(** With [re.IGNORECASE] a character is in a set when one of its case
    variants is. *)
Definition set_match (ic : bool) (l : list citem) (c : ascii) : bool :=
  if ic
  then existsb (fun it => item_match it (lower c) || item_match it (upper c)) l
  else existsb (fun it => item_match it c) l.

Definition cs_match (ic : bool) (cs : charset) (c : ascii) : bool :=
  match cs with
  | Any => negb (Ascii.eqb c nl)
  | OneOf l => set_match ic l c
  | NoneOf l => negb (set_match ic l c)
  end.

Definition chr_match (ic : bool) (a c : ascii) : bool :=
  cs_match ic (OneOf [CChar a]) c.

(** A literal run: [Some (matched, rest)]. *)
Fixpoint lit_run (ic : bool) (l s : str) : option (str * str) :=
  match l, s with
  | [], _ => Some ([], s)
  | a :: l', c :: s' =>
      if chr_match ic a c
      then match lit_run ic l' s' with
           | Some (m, rest) => Some (c :: m, rest)
           | None => None
           end
      else None
  | _ :: _, [] => None
  end.

(** The ways [p{lo,}] can match at the head of [s], as (matched, rest),
    longest first: the order in which a backtracking matcher tries them. *)
Fixpoint rep_run (p : ascii -> bool) (lo : nat) (s : str) : list (str * str) :=
  let stop := if lo =? 0 then [([], s)] else [] in
  match s with
  | c :: s' =>
      if p c
      then map (fun x => (c :: fst x, snd x)) (rep_run p (pred lo) s') ++ stop
      else stop
  | [] => stop
  end.

Definition is_nil (s : str) : bool :=
  match s with [] => true | _ :: _ => false end.

(** One way of matching: the matched text, the captured groups in the
    order of their opening parentheses, and the unread rest. *)
Definition result : Type := (str * list str * str)%type.

Definition r_text (x : result) : str := fst (fst x).
Definition r_caps (x : result) : list str := snd (fst x).
Definition r_rest (x : result) : str := snd x.

(** All the ways [r] matches at the head of [s], in the priority order of
    a backtracking matcher; [bol] tells whether [s] is the whole subject. *)
Fixpoint run (ic : bool) (r : regex) (bol : bool) (s : str) : list result :=
  match r with
  | Str l =>
      match lit_run ic l s with
      | Some (m, rest) => [(m, [], rest)]
      | None => []
      end
  | Rep cs lo =>
      map (fun x => (fst x, [], snd x)) (rep_run (cs_match ic cs) lo s)
  | Grp r1 =>
      map (fun x => (r_text x, r_text x :: r_caps x, r_rest x)) (run ic r1 bol s)
  | Cat r1 r2 =>
      flat_map
        (fun x =>
           map (fun y => (r_text x ++ r_text y, r_caps x ++ r_caps y, r_rest y))
               (run ic r2 (bol && is_nil (r_text x)) (r_rest x)))
        (run ic r1 bol s)
  | Bol => if bol then [([], [], s)] else []
  | Eol =>
      match s with
      | [] => [([], [], s)]
      | [c] => if Ascii.eqb c nl then [([], [], s)] else []
      | _ => []
      end
  end.

(** A match object: where it starts and its groups, group 0 first. *)
Record Match : Type := mkMatch { m_start : nat; m_groups : list str }.

Definition group (m : Match) (i : nat) : str := nth i (m_groups m) [].

Definition match_here (ic : bool) (r : regex) (pos : nat) (s : str)
  : option Match :=
  match run ic r (pos =? 0) s with
  | x :: _ => Some (mkMatch pos (r_text x :: r_caps x))
  | [] => None
  end.

(** [re.search]: the first position, from the left, where the pattern
    matches. *)
Fixpoint search_from (ic : bool) (r : regex) (pos : nat) (s : str)
  : option Match :=
  match match_here ic r pos s with
  | Some m => Some m
  | None =>
      match s with
      | [] => None
      | _ :: s' => search_from ic r (S pos) s'
      end
  end.

Definition re_search (ic : bool) (r : regex) (s : str) : option Match :=
  search_from ic r 0 s.

(** [re.match]: the pattern at position 0 only. *)
Definition re_match (ic : bool) (r : regex) (s : str) : option Match :=
  match_here ic r 0 s.

Declare Scope regex_scope.
Delimit Scope regex_scope with re.
Bind Scope regex_scope with regex.
Infix "@@" := Cat (at level 60, right associativity) : regex_scope.

(** ** The data model of main.py *)

(** NAICS_SIN_MAPPING *)
Definition NAICS_SIN_MAPPING : list (str * str) :=
  [ (str_of "541511", str_of "54151S");
    (str_of "541512", str_of "54151S");
    (str_of "541611", str_of "541611");
    (str_of "518210", str_of "518210C") ].

(** [d.get(k)]: [None] when [k not in d]. *)
Fixpoint dict_get (d : list (str * str)) (k : str) : option str :=
  match d with
  | [] => None
  | (k', v) :: d' => if str_eqb k' k then Some v else dict_get d' k
  end.

Record CompanyProfile : Type := mkCompanyProfile {
  company_name : option str;
  uei : option str;
  duns : option str;
  naics : list str;
  poc_name : option str;
  poc_email : option str;
  poc_phone : option str;
  address : option str;
  sam_registered : option bool
}.

Record PastPerformance : Type := mkPastPerformance {
  customer : option str;
  contract : option str;
  value : option str;
  period : option str;
  contact : option str
}.

(** [CompanyProfile()] and [PastPerformance()]: the field defaults. *)
Definition CompanyProfile_new : CompanyProfile :=
  mkCompanyProfile None None None [] None None None None None.

Definition PastPerformance_new : PastPerformance :=
  mkPastPerformance None None None None None.

Definition set_company_name (p : CompanyProfile) (v : str) :=
  mkCompanyProfile (Some v) (uei p) (duns p) (naics p) (poc_name p)
    (poc_email p) (poc_phone p) (address p) (sam_registered p).
Definition set_uei (p : CompanyProfile) (v : str) :=
  mkCompanyProfile (company_name p) (Some v) (duns p) (naics p) (poc_name p)
    (poc_email p) (poc_phone p) (address p) (sam_registered p).
Definition set_duns (p : CompanyProfile) (v : str) :=
  mkCompanyProfile (company_name p) (uei p) (Some v) (naics p) (poc_name p)
    (poc_email p) (poc_phone p) (address p) (sam_registered p).
Definition set_naics (p : CompanyProfile) (v : list str) :=
  mkCompanyProfile (company_name p) (uei p) (duns p) v (poc_name p)
    (poc_email p) (poc_phone p) (address p) (sam_registered p).
Definition set_poc (p : CompanyProfile) (n e ph : str) :=
  mkCompanyProfile (company_name p) (uei p) (duns p) (naics p) (Some n)
    (Some e) (Some ph) (address p) (sam_registered p).
Definition set_address (p : CompanyProfile) (v : str) :=
  mkCompanyProfile (company_name p) (uei p) (duns p) (naics p) (poc_name p)
    (poc_email p) (poc_phone p) (Some v) (sam_registered p).
Definition set_sam_registered (p : CompanyProfile) (v : bool) :=
  mkCompanyProfile (company_name p) (uei p) (duns p) (naics p) (poc_name p)
    (poc_email p) (poc_phone p) (address p) (Some v).

Definition set_customer (q : PastPerformance) (v : str) :=
  mkPastPerformance (Some v) (contract q) (value q) (period q) (contact q).
Definition set_contract (q : PastPerformance) (v : str) :=
  mkPastPerformance (customer q) (Some v) (value q) (period q) (contact q).
Definition set_value (q : PastPerformance) (v : str) :=
  mkPastPerformance (customer q) (contract q) (Some v) (period q) (contact q).
Definition set_period (q : PastPerformance) (v : str) :=
  mkPastPerformance (customer q) (contract q) (value q) (Some v) (contact q).
Definition set_contact (q : PastPerformance) (v : str) :=
  mkPastPerformance (customer q) (contract q) (value q) (period q) (Some v).

(** ** The patterns *)

Definition spaces : regex := Rep (OneOf [CSpace]) 0.            (* \s* *)

Definition cs_uei : charset :=
  OneOf [CRange "A"%char "Z"%char; CRange "0"%char "9"%char].
Definition cs_duns : charset := OneOf [CDigit].
Definition cs_naics : charset := OneOf [CDigit; CChar comma; CSpace].
Definition cs_not_comma : charset := NoneOf [CChar comma].
Definition cs_sam : charset := OneOf [CWord].

(** [Label:\s*(cs+)] *)
Definition labelled (label : str) (cs : charset) : regex :=
  (Str label @@ spaces @@ Grp (Rep cs 1))%re.

(* r'UEI:\s*([A-Z0-9]+)' *)
Definition UEI_RE : regex := labelled "UEI:" cs_uei.
(* r'DUNS:\s*(\d+)' *)
Definition DUNS_RE : regex := labelled "DUNS:" cs_duns.
(* r'NAICS:\s*([\d,\s]+)' *)
Definition NAICS_RE : regex := labelled "NAICS:" cs_naics.
(* r'POC:\s*([^,]+),\s*([^,]+),\s*(.+)' *)
Definition POC_RE : regex :=
  (Str "POC:" @@ spaces @@ Grp (Rep cs_not_comma 1) @@ Str [comma] @@
   spaces @@ Grp (Rep cs_not_comma 1) @@ Str [comma] @@
   spaces @@ Grp (Rep Any 1))%re.
(* r'Address:\s*(.+)' *)
Definition ADDRESS_RE : regex := labelled "Address:" Any.
(* r'SAM\.gov:\s*(\w+)' *)
Definition SAM_RE : regex := labelled "SAM.gov:" cs_sam.
(* r'Customer:\s*(.+)' and its four siblings *)
Definition CUSTOMER_RE : regex := labelled "Customer:" Any.
Definition CONTRACT_RE : regex := labelled "Contract:" Any.
Definition VALUE_RE : regex := labelled "Value:" Any.
Definition PERIOD_RE : regex := labelled "Period:" Any.
Definition CONTACT_RE : regex := labelled "Contact:" Any.

Definition cs_email_local : charset :=
  OneOf [CRange "a"%char "z"%char; CRange "A"%char "Z"%char; CRange "0"%char "9"%char;
         CChar "."%char; CChar "_"%char; CChar "%"%char; CChar "+"%char; CChar "-"%char].
Definition cs_email_domain : charset :=
  OneOf [CRange "a"%char "z"%char; CRange "A"%char "Z"%char; CRange "0"%char "9"%char; CChar "."%char; CChar "-"%char].
Definition cs_email_tld : charset :=
  OneOf [CRange "a"%char "z"%char; CRange "A"%char "Z"%char].

(* r'^[a-zA-Z0-9._%+-]+@[a-zA-Z0-9.-]+\.[a-zA-Z]{2,}$' *)
Definition EMAIL_RE : regex :=
  (Bol @@ Rep cs_email_local 1 @@ Str "@" @@ Rep cs_email_domain 1 @@
   Str "." @@ Rep cs_email_tld 2 @@ Eol)%re.

(** ** The functions of main.py *)

Definition IGNORECASE : bool := true.

Definition parse_company_profile (text : str) : CompanyProfile :=
  let profile := CompanyProfile_new in
  let lines := split nl (strip text) in
  let profile :=
    match lines with
    | l0 :: _ => set_company_name profile (strip l0)
    | [] => profile
    end in
  let profile :=
    match re_search IGNORECASE UEI_RE text with
    | Some m => set_uei profile (group m 1)
    | None => profile
    end in
  let profile :=
    match re_search IGNORECASE DUNS_RE text with
    | Some m => set_duns profile (group m 1)
    | None => profile
    end in
  let profile :=
    match re_search IGNORECASE NAICS_RE text with
    | Some m =>
        let naics_str := group m 1 in
        set_naics profile
          (map strip (filter (fun c => nonempty (strip c)) (split comma naics_str)))
    | None => profile
    end in
  let profile :=
    match re_search IGNORECASE POC_RE text with
    | Some m =>
        set_poc profile (strip (group m 1)) (strip (group m 2)) (strip (group m 3))
    | None => profile
    end in
  let profile :=
    match re_search IGNORECASE ADDRESS_RE text with
    | Some m => set_address profile (strip (group m 1))
    | None => profile
    end in
  let profile :=
    match re_search IGNORECASE SAM_RE text with
    | Some m =>
        set_sam_registered profile
          (str_eqb (str_lower (group m 1)) "registered")
    | None => profile
    end in
  profile.

Definition parse_past_performance (text : str) : PastPerformance :=
  let performance := PastPerformance_new in
  let performance :=
    match re_search IGNORECASE CUSTOMER_RE text with
    | Some m => set_customer performance (strip (group m 1))
    | None => performance
    end in
  let performance :=
    match re_search IGNORECASE CONTRACT_RE text with
    | Some m => set_contract performance (strip (group m 1))
    | None => performance
    end in
  let performance :=
    match re_search IGNORECASE VALUE_RE text with
    | Some m => set_value performance (strip (group m 1))
    | None => performance
    end in
  let performance :=
    match re_search IGNORECASE PERIOD_RE text with
    | Some m => set_period performance (strip (group m 1))
    | None => performance
    end in
  let performance :=
    match re_search IGNORECASE CONTACT_RE text with
    | Some m => set_contact performance (strip (group m 1))
    | None => performance
    end in
  performance.

Definition validate_email (email : str) : bool :=
  if negb (nonempty email) then false
  else match re_match false EMAIL_RE email with
       | Some _ => true
       | None => false
       end.

(** [if c: issues.append(x)] *)
Definition append_if (c : bool) (x : string) (issues : list string)
  : list string :=
  if c then issues ++ [x] else issues.

Definition validate_fields (profile : CompanyProfile)
    (performance : PastPerformance) : list string :=
  let issues : list string := [] in
  let issues :=
    append_if (negb (truthy (company_name profile))) "missing_company_name" issues in
  let issues := append_if (negb (truthy (uei profile))) "missing_uei" issues in
  let issues := append_if (negb (truthy (duns profile))) "missing_duns" issues in
  let issues := append_if (is_empty (naics profile)) "missing_naics" issues in
  let issues :=
    append_if (negb (truthy (poc_name profile))) "missing_poc_name" issues in
  let issues :=
    match poc_email profile with
    | Some ((_ :: _) as email) =>
        append_if (negb (validate_email email)) "invalid_poc_email" issues
    | _ => issues ++ ["missing_poc_email"]
    end in
  let issues :=
    append_if (negb (truthy (poc_phone profile))) "missing_poc_phone" issues in
  let issues :=
    append_if (negb (truthy (address profile))) "missing_address" issues in
  let issues :=
    append_if (is_none (sam_registered profile)) "missing_sam_status" issues in
  let issues :=
    append_if (negb (truthy (customer performance))) "missing_customer" issues in
  let issues :=
    append_if (negb (truthy (contract performance))) "missing_contract" issues in
  let issues :=
    append_if (negb (truthy (value performance))) "missing_contract_value" issues in
  let issues :=
    append_if (negb (truthy (period performance))) "missing_contract_period" issues in
  let issues :=
    append_if (negb (truthy (contact performance))) "missing_contract_contact" issues in
  issues.

(** [x in xs] on a list of strings. *)
Definition str_mem (x : str) (xs : list str) : bool := existsb (str_eqb x) xs.

(** The body of the loop of [map_naics_to_sins]. *)
Definition step_sins (sins : list str) (naics : str) : list str :=
  match dict_get NAICS_SIN_MAPPING naics with
  | Some sin => if negb (str_mem sin sins) then sins ++ [sin] else sins
  | None => sins
  end.

Definition map_naics_to_sins (naics_codes : list str) : list str :=
  fold_left step_sins naics_codes [].

Record CheckItem : Type := mkCheckItem { ok : bool; details : string }.

Record Checklist : Type := mkChecklist {
  has_company_info : CheckItem;
  has_valid_naics : CheckItem;
  has_poc_info : CheckItem;
  has_sam_registration : CheckItem;
  has_past_performance : CheckItem;
  overall_ok : bool;
  overall_total_issues : nat
}.

(** [x is True] *)
Definition is_true (o : option bool) : bool :=
  match o with Some true => true | _ => false end.

(** [bool(email and validate_email(email))] *)
Definition email_ok (o : option str) : bool :=
  match o with
  | Some ((_ :: _) as email) => validate_email email
  | _ => false
  end.

Definition generate_checklist (profile : CompanyProfile)
    (performance : PastPerformance) (issues : list string) : Checklist :=
  mkChecklist
    (mkCheckItem (truthy (company_name profile) && truthy (uei profile)
              && truthy (duns profile))
             "Company name, UEI, and DUNS present")
    (mkCheckItem (negb (is_empty (naics profile)) && (0 <? length (naics profile)))
             "At least one NAICS code provided")
    (mkCheckItem (truthy (poc_name profile) && email_ok (poc_email profile))
             "Complete POC information with valid email")
    (mkCheckItem (is_true (sam_registered profile))
             "SAM.gov registration confirmed")
    (mkCheckItem (truthy (customer performance) && truthy (contract performance)
              && truthy (value performance))
             "Past performance information provided")
    (length issues =? 0)
    (length issues).

(** The response of [ingest_documents] without its request identifier. *)
Record Response : Type := mkResponse {
  parsed_company_profile : CompanyProfile;
  parsed_past_performance : PastPerformance;
  issues : list string;
  recommended_sins : list str;
  checklist : Checklist
}.

Definition ingest_documents (company_profile_text past_performance_text : str)
  : Response :=
  let company_profile := parse_company_profile company_profile_text in
  let past_performance := parse_past_performance past_performance_text in
  let issues := validate_fields company_profile past_performance in
  let recommended_sins := map_naics_to_sins (naics company_profile) in
  let checklist := generate_checklist company_profile past_performance issues in
  mkResponse company_profile past_performance issues recommended_sins checklist.

(** ["\n".join(lines)] *)
Fixpoint join_lines (ls : list string) : str :=
  match ls with
  | [] => []
  | [l] => str_of l
  | l :: ls' => str_of l ++ nl :: join_lines ls'
  end.

Definition scenario_A_profile : str :=
  join_lines [ "Acme Corp"; "UEI: ABC123"; "DUNS: 123456789";
               "NAICS: 541511, 541512";
               "POC: Jane Doe, jane@acme.com, 555-1234";
               "Address: 1 Main St"; "SAM.gov: registered" ].

Definition scenario_A_performance : str :=
  join_lines [ "Customer: DoD"; "Contract: C-100"; "Value: $50000";
               "Period: 2023"; "Contact: John" ].


(** ** What a match is

    [Matches ic r bol m caps rest]: the pattern [r] can match the text [m]
    when [rest] follows it, capturing [caps]. *)

Fixpoint lit_ok (ic : bool) (l m : str) : bool :=
  match l, m with
  | [], [] => true
  | a :: l', c :: m' => chr_match ic a c && lit_ok ic l' m'
  | _, _ => false
  end.

Fixpoint Matches (ic : bool) (r : regex) (bol : bool) (m : str)
    (caps : list str) (rest : str) : Prop :=
  match r with
  | Str l => lit_ok ic l m = true /\ caps = []
  | Rep cs lo => lo <= length m /\ forallb (cs_match ic cs) m = true /\ caps = []
  | Grp r1 => exists c1, caps = m :: c1 /\ Matches ic r1 bol m c1 rest
  | Cat r1 r2 =>
      exists m1 m2 c1 c2,
        m = m1 ++ m2 /\ caps = c1 ++ c2 /\
        Matches ic r1 bol m1 c1 (m2 ++ rest) /\
        Matches ic r2 (bol && is_nil m1) m2 c2 rest
  | Bol => bol = true /\ m = [] /\ caps = []
  | Eol => m = [] /\ caps = [] /\ (rest = [] \/ rest = [nl])
  end.

(** The text [rest] does not go on with a character of the class. *)
Definition stops (p : ascii -> bool) (rest : str) : Prop :=
  match rest with
  | [] => True
  | c :: _ => p c = false
  end.

(** ** Specification vocabulary for the validator and the mapper *)

(** The issue a check contributes. *)
Definition flag (c : bool) (x : string) : list string :=
  if c then [x] else [].

(** What the e-mail check contributes. *)
Definition email_issue (o : option str) : list string :=
  match o with
  | Some ((_ :: _) as email) => flag (negb (validate_email email)) "invalid_poc_email"
  | _ => ["missing_poc_email"]
  end.

(** The fifteen conditions under which nothing is reported. *)
Definition all_conditions (p : CompanyProfile) (q : PastPerformance) : Prop :=
  truthy (company_name p) = true /\
  truthy (uei p) = true /\
  truthy (duns p) = true /\
  naics p <> [] /\
  truthy (poc_name p) = true /\
  truthy (poc_email p) = true /\
  email_ok (poc_email p) = true /\
  truthy (poc_phone p) = true /\
  truthy (address p) = true /\
  sam_registered p <> None /\
  truthy (customer q) = true /\
  truthy (contract q) = true /\
  truthy (value q) = true /\
  truthy (period q) = true /\
  truthy (contact q) = true.

(** The program codes the input codes map to, one per mapped code, in
    input order; unmapped codes contribute nothing. *)
Definition mapped (codes : list str) : list str :=
  flat_map (fun c => match dict_get NAICS_SIN_MAPPING c with
                     | Some sin => [sin]
                     | None => []
                     end) codes.

(** Appending a value unless it is there already. *)
Definition add_new (sins : list str) (sin : str) : list str :=
  if negb (str_mem sin sins) then sins ++ [sin] else sins.

(** Each value kept at its first occurrence only. *)
Fixpoint first_occurrences (l : list str) : list str :=
  match l with
  | [] => []
  | x :: l' => x :: filter (fun y => negb (str_eqb x y)) (first_occurrences l')
  end.

(** The values of the static table. *)
Definition table_values : list str :=
  [str_of "54151S"; str_of "541611"; str_of "518210C"].

(** A field value [y] is [x] with an empty string read as unset. *)
Definition blank_as_unset (x y : option str) : Prop :=
  y = x \/ (x = Some [] /\ y = None).

Definition profile_blank_as_unset (p p' : CompanyProfile) : Prop :=
  blank_as_unset (company_name p) (company_name p') /\
  blank_as_unset (uei p) (uei p') /\
  blank_as_unset (duns p) (duns p') /\
  naics p' = naics p /\
  blank_as_unset (poc_name p) (poc_name p') /\
  blank_as_unset (poc_email p) (poc_email p') /\
  blank_as_unset (poc_phone p) (poc_phone p') /\
  blank_as_unset (address p) (address p') /\
  sam_registered p' = sam_registered p.

Definition performance_blank_as_unset (q q' : PastPerformance) : Prop :=
  blank_as_unset (customer q) (customer q') /\
  blank_as_unset (contract q) (contract q') /\
  blank_as_unset (value q) (value q') /\
  blank_as_unset (period q) (period q') /\
  blank_as_unset (contact q) (contact q').

(** ** Labelled values

    [labelled_at label p text pre g]: after the prefix [pre] the text
    reads the label (whatever its case), then white space [ws], then the
    non-empty run [g] of characters of the class [p], which stops there;
    [ws] is the longest white space after the label that a character of
    the class follows. *)
Definition labelled_at (label : str) (p : ascii -> bool) (text pre g : str)
  : Prop :=
  exists lab ws rest,
    text = pre ++ lab ++ ws ++ g ++ rest /\
    lit_ok true label lab = true /\
    forallb isspace ws = true /\
    g <> [] /\ forallb p g = true /\ stops p rest /\
    (forall ws' c rest',
        ws ++ g ++ rest = ws' ++ c :: rest' ->
        forallb isspace ws' = true -> p c = true ->
        length ws' <= length ws).

(** [labelled_here label p text pre]: after the prefix [pre] the text
    reads the label, then white space, then a character of the class: the
    pattern can match there. *)
Definition labelled_here (label : str) (p : ascii -> bool) (text pre : str)
  : Prop :=
  exists lab ws c rest,
    text = pre ++ lab ++ ws ++ c :: rest /\
    lit_ok true label lab = true /\
    forallb isspace ws = true /\ p c = true.

(** [og] is the value at the leftmost position of the text where the
    pattern can match, or [None] when it can match nowhere. *)
Definition first_labelled (label : str) (p : ascii -> bool) (text : str)
    (og : option str) : Prop :=
  match og with
  | Some g =>
      exists pre,
        labelled_at label p text pre g /\
        (forall pre', labelled_here label p text pre' ->
                      length pre <= length pre')
  | None => forall pre, ~ labelled_here label p text pre
  end.

(** A field holds the value at the leftmost labelled position of the
    text, passed through [post], and is unset when the text has none. *)
Definition labelled_field (A : Type) (label : str) (p : ascii -> bool)
    (post : str -> A) (text : str) (field : option A) : Prop :=
  exists og, first_labelled label p text og /\ field = option_map post og.

(** The results of a repetition come longest first. *)
Fixpoint desc (l : list (str * str)) : Prop :=
  match l with
  | [] => True
  | x :: l' => (forall y, In y l' -> length (fst y) < length (fst x)) /\ desc l'
  end.

(** ** Character classes in plain words *)

Definition not_newline (c : ascii) : bool := negb (Ascii.eqb c nl).
Definition not_comma (c : ascii) : bool := negb (Ascii.eqb c comma).

(** An unaccented letter. *)
Definition is_letter (c : ascii) : bool := in_range 65 90 c || in_range 97 122 c.

Definition is_letter_or_digit (c : ascii) : bool := is_letter c || isdigit c.

(** A digit, a comma or white space. *)
Definition is_naics_char (c : ascii) : bool :=
  isdigit c || Ascii.eqb c comma || isspace c.

(** [c] is one of the characters of [s]. *)
Definition one_of (s : str) (c : ascii) : bool := existsb (Ascii.eqb c) s.

Definition email_local_char (c : ascii) : bool :=
  is_letter_or_digit c || one_of "._%+-" c.

Definition email_domain_char (c : ascii) : bool :=
  is_letter_or_digit c || one_of ".-" c.

(** The e-mail format rule: local part, [@], domain labels, [.], and a
    top-level domain of at least two letters. *)
Definition email_format (email : str) : Prop :=
  exists local domain tld,
    email = local ++ str_of "@" ++ domain ++ str_of "." ++ tld /\
    local <> [] /\ forallb email_local_char local = true /\
    domain <> [] /\ forallb email_domain_char domain = true /\
    2 <= length tld /\ forallb is_letter tld = true.

(** The comma-separated segments of a string, each trimmed, the empty
    ones dropped. *)
Definition segments (s : str) : list str :=
  filter nonempty (map strip (split comma s)).

(** ** The point of contact

    [poc_at text pre seg1 seg2 g3]: after the prefix [pre] the text reads
    the label POC: (whatever its case), a non-empty segment [seg1] up to
    the first comma, a non-empty segment [seg2] up to the second comma,
    then white space [ws3] and the non-empty rest [g3] of a line; [ws3] is
    the longest white space there that is followed by a character other
    than a line break. *)
Definition poc_at (text pre seg1 seg2 g3 : str) : Prop :=
  exists lab ws3 rest,
    text = pre ++ lab ++ seg1 ++ comma :: seg2 ++ comma :: ws3 ++ g3 ++ rest /\
    lit_ok true "POC:" lab = true /\
    seg1 <> [] /\ forallb not_comma seg1 = true /\
    seg2 <> [] /\ forallb not_comma seg2 = true /\
    forallb isspace ws3 = true /\
    g3 <> [] /\ forallb not_newline g3 = true /\ stops not_newline rest /\
    (forall ws' c rest',
        ws3 ++ g3 ++ rest = ws' ++ c :: rest' ->
        forallb isspace ws' = true -> not_newline c = true ->
        length ws' <= length ws3).

(** [poc_here text pre]: after the prefix [pre] the text reads the label
    POC:, two non-empty segments each closed by a comma, white space and
    a character other than a line break: the pattern can match there. *)
Definition poc_here (text pre : str) : Prop :=
  exists lab seg1 seg2 ws3 c rest,
    text = pre ++ lab ++ seg1 ++ comma :: seg2 ++ comma :: ws3 ++ c :: rest /\
    lit_ok true "POC:" lab = true /\
    seg1 <> [] /\ forallb not_comma seg1 = true /\
    seg2 <> [] /\ forallb not_comma seg2 = true /\
    forallb isspace ws3 = true /\ not_newline c = true.

(** What the three POC fields hold: the stripped segments at the leftmost
    position where the pattern can match, or nothing at all when it can
    match nowhere. *)
Definition first_poc (text : str) (name email phone : option str) : Prop :=
  match name, email, phone with
  | Some n, Some e, Some ph =>
      exists pre seg1 seg2 g3,
        poc_at text pre seg1 seg2 g3 /\
        n = strip seg1 /\ e = strip seg2 /\ ph = strip g3 /\
        (forall pre', poc_here text pre' -> length pre <= length pre')
  | None, None, None => forall pre, ~ poc_here text pre
  | _, _, _ => False
  end.

(** ** Reading a value off one line, as the specification words it *)

Definition is_some (A : Type) (o : option A) : bool :=
  match o with Some _ => true | None => false end.

(** The first line of the text that contains the label. *)
Definition first_line_with (label text : str) : option str :=
  find (fun line => is_some (re_search IGNORECASE (Str label) line))
       (split nl text).

(** What follows the label on a line. *)
Definition after_label (label line : str) : str :=
  match re_search IGNORECASE (Str label) line with
  | Some m => skipn (m_start m + length label) line
  | None => []
  end.

(** The value on the first line that contains the label: the rest of that
    line, trimmed. *)
Definition line_value (label text : str) : option str :=
  option_map (fun line => strip (after_label label line))
             (first_line_with label text).

(** ** Reading a word whatever its case *)




(** ** Vocabulary for the further properties *)

(** What [validate_email] accepts: an e-mail of the format, or one
    followed by a single line break ([$] also matches before a final
    line break). *)
Definition email_accepted (email : str) : Prop :=
  email_format email \/ exists e, email = e ++ [nl] /\ email_format e.

(** The issue codes in the order of the checks of [validate_fields]. *)
Definition ISSUE_ORDER : list string :=
  ["missing_company_name"; "missing_uei"; "missing_duns"; "missing_naics";
   "missing_poc_name"; "missing_poc_email"; "invalid_poc_email";
   "missing_poc_phone"; "missing_address"; "missing_sam_status";
   "missing_customer"; "missing_contract"; "missing_contract_value";
   "missing_contract_period"; "missing_contract_contact"].

(** [subseq l1 l2]: [l1] is [l2] with some entries left out, the order
    kept. *)
Fixpoint subseq (l1 l2 : list string) : Prop :=
  match l2 with
  | [] => l1 = []
  | y :: l2' =>
      match l1 with
      | [] => True
      | x :: l1' => (x = y /\ subseq l1' l2') \/ subseq l1 l2'
      end
  end.

(** The label occurs nowhere in the text before the prefix [pre]. *)
Definition first_occurrence (label text pre : str) : Prop :=
  forall pre' lab' rest',
    text = pre' ++ lab' ++ rest' -> lit_ok true label lab' = true ->
    length pre <= length pre'.

(** The first character of a value is no white space. *)
Definition starts_black (v : str) : Prop :=
  match v with
  | [] => False
  | c :: _ => isspace c = false
  end.

(** The fields read to the end of a line, with their labels and where
    the two parsers put them. *)
Inductive line_field : Type :=
| FAddress | FCustomer | FContract | FValue | FPeriod | FContact.

Definition line_label (f : line_field) : str :=
  match f with
  | FAddress => str_of "Address:"
  | FCustomer => str_of "Customer:"
  | FContract => str_of "Contract:"
  | FValue => str_of "Value:"
  | FPeriod => str_of "Period:"
  | FContact => str_of "Contact:"
  end.

Definition line_field_of (f : line_field) (text : str) : option str :=
  match f with
  | FAddress => address (parse_company_profile text)
  | FCustomer => customer (parse_past_performance text)
  | FContract => contract (parse_past_performance text)
  | FValue => value (parse_past_performance text)
  | FPeriod => period (parse_past_performance text)
  | FContact => contact (parse_past_performance text)
  end.

(** The two identifiers, with their labels, their characters and where
    the parser puts them. *)
Inductive id_field : Type := FUei | FDuns.

Definition id_label (f : id_field) : str :=
  match f with FUei => str_of "UEI:" | FDuns => str_of "DUNS:" end.

Definition id_char (f : id_field) : ascii -> bool :=
  match f with FUei => is_letter_or_digit | FDuns => isdigit end.

Definition id_field_of (f : id_field) (text : str) : option str :=
  match f with
  | FUei => uei (parse_company_profile text)
  | FDuns => duns (parse_company_profile text)
  end.

(** A non-empty string of digits. *)
Definition is_code (code : str) : Prop :=
  code <> [] /\ forallb isdigit code = true.

(** [sep.join(l)] *)
Fixpoint join (sep : str) (l : list str) : str :=
  match l with
  | [] => []
  | [x] => x
  | x :: l' => x ++ sep ++ join sep l'
  end.

(** ** Documents written label by label *)

Definition colon : ascii := ascii_of_nat 58.

Definition not_colon (c : ascii) : bool := negb (Ascii.eqb c colon).

(** The labelled lines [b: v] that follow the head of a document, each
    after a line break; a pair holds the label without its colon and
    what follows the colon on the line. *)
Fixpoint lines_after (fields : list (str * str)) : str :=
  match fields with
  | [] => []
  | (b, v) :: fs => nl :: b ++ colon :: v ++ lines_after fs
  end.

(** The end of [b0] reads [b], whatever the case. *)
Definition ends_like (b b0 : str) : bool :=
  (length b <=? length b0) && lit_ok true b (skipn (length b0 - length b) b0).

(** The labelled lines of a company profile, the values after one
    space, the NAICS codes and the POC segments joined with a comma and a
    space. *)
Definition profile_lines (u d : str) (codes : list str) (n e ph a w : str)
  : list (str * str) :=
  [ (str_of "UEI", str_of " " ++ u);
    (str_of "DUNS", str_of " " ++ d);
    (str_of "NAICS", str_of " " ++ join (str_of ", ") codes);
    (str_of "POC", str_of " " ++ join (str_of ", ") [n; e; ph]);
    (str_of "Address", str_of " " ++ a);
    (str_of "SAM.gov", str_of " " ++ w) ].

(** The labelled lines of a past performance. *)
Definition performance_lines (cu co va pe ct : str) : list (str * str) :=
  [ (str_of "Customer", str_of " " ++ cu);
    (str_of "Contract", str_of " " ++ co);
    (str_of "Value", str_of " " ++ va);
    (str_of "Period", str_of " " ++ pe);
    (str_of "Contact", str_of " " ++ ct) ].

(** A company profile written out: the name, then the labelled lines. *)
Definition write_profile (name : str) (lines : list (str * str)) : str :=
  name ++ lines_after lines.

(** A past performance written out: the labelled lines alone. *)
Definition write_performance (lines : list (str * str)) : str :=
  skipn 1 (lines_after lines).

(** The labels of the two documents, without their colon. *)
Definition PROFILE_LABELS : list str :=
  [str_of "UEI"; str_of "DUNS"; str_of "NAICS"; str_of "POC";
   str_of "Address"; str_of "SAM.gov"].

Definition PERFORMANCE_LABELS : list str :=
  [str_of "Customer"; str_of "Contract"; str_of "Value"; str_of "Period";
   str_of "Contact"].

(** No label of the list is the end of another one, whatever the case. *)
Definition clash_free (labels : list str) : bool :=
  forallb (fun b1 =>
    forallb (fun b2 => str_eqb b1 b2 || negb (ends_like b1 b2)) labels) labels.

(** [at_line labels text b v]: the first occurrence of the label [b:] in
    the text is followed by one space and the value [v], which ends the
    text or is followed by a line break and a label of the list. *)
Definition at_line (labels : list str) (text b v : str) : Prop :=
  exists pre rest,
    text = pre ++ (b ++ [colon]) ++ str_of " " ++ v ++ rest /\
    first_occurrence (b ++ [colon]) text pre /\
    (rest = [] \/
     exists b' t, In b' labels /\ rest = nl :: b' ++ colon :: t).

(** A value that fills the rest of a line: it starts with a character
    other than white space and holds neither a line break nor a colon. *)
Definition line_value_ok (v : str) : Prop :=
  starts_black v /\ forallb not_newline v = true /\ forallb not_colon v = true.

(** The values a written profile is read back from: a name that fills
    its line, identifiers of their classes, at least one code, a contact
    name without comma, an e-mail of the format, and a status word. *)
Definition profile_values_ok (name u d : str) (codes : list str)
    (n e ph a w : str) : Prop :=
  line_value_ok name /\
  (u <> [] /\ forallb is_letter_or_digit u = true) /\
  is_code d /\
  (codes <> [] /\ Forall is_code codes) /\
  (line_value_ok n /\ forallb not_comma n = true) /\
  email_format e /\
  line_value_ok ph /\
  line_value_ok a /\
  (w <> [] /\ forallb isword w = true).

Definition performance_values_ok (cu co va pe ct : str) : Prop :=
  line_value_ok cu /\ line_value_ok co /\ line_value_ok va /\
  line_value_ok pe /\ line_value_ok ct.

(** The label, in any case, occurs nowhere in the text. *)
Definition absent (label text : str) : Prop :=
  forall pre lab rest,
    text = pre ++ lab ++ rest -> lit_ok true label lab = false.

(** The issues reported when no labelled field is found. *)
Definition UNLABELLED_ISSUES : list string :=
  ["missing_uei"; "missing_duns"; "missing_naics"; "missing_poc_name";
   "missing_poc_email"; "missing_poc_phone"; "missing_address";
   "missing_sam_status"; "missing_customer"; "missing_contract";
   "missing_contract_value"; "missing_contract_period";
   "missing_contract_contact"].

(** ** The matcher against its specification *)

Section Engine.

Variable ic : bool.

Lemma lit_run_spec (l s m rest : str) :
  lit_run ic l s = Some (m, rest) <-> s = m ++ rest /\ lit_ok ic l m = true.
Proof.
  revert s m rest.
  induction l as [|a l IH]; intros s m rest; simpl.
  - split.
    + intros H. injection H as <- <-. auto.
    + intros [-> H]. destruct m; [reflexivity | discriminate].
  - destruct s as [|c s].
    + split; [discriminate|]. intros [H1 H2].
      destruct m; [discriminate | discriminate].
    + destruct (chr_match ic a c) eqn:E.
      * destruct (lit_run ic l s) as [[m' rest']|] eqn:R.
        -- apply IH in R. destruct R as [-> R].
           split.
           ++ intros H. injection H as <- <-. simpl. rewrite E, R. auto.
           ++ intros [H1 H2]. destruct m as [|c' m]; [discriminate|].
              simpl in H1. injection H1 as <- H1.
              rewrite E in H2. simpl in H2.
              assert (R' : lit_run ic l (m' ++ rest') = Some (m, rest))
                by (apply IH; auto).
              assert (R0 : lit_run ic l (m' ++ rest') = Some (m', rest'))
                by (apply IH; auto).
              rewrite R' in R0. injection R0 as -> ->. reflexivity.
        -- split; [discriminate|]. intros [H1 H2].
           destruct m as [|c' m]; [discriminate|].
           simpl in H1. injection H1 as <- H1.
           rewrite E in H2. simpl in H2.
           assert (R' : lit_run ic l s = Some (m, rest)) by (apply IH; auto).
           rewrite R' in R. discriminate.
      * split; [discriminate|]. intros [H1 H2].
        destruct m as [|c' m]; [discriminate|].
        simpl in H1. injection H1 as <- H1. rewrite E in H2. discriminate.
Qed.

Lemma lit_ok_length (l m : str) : lit_ok ic l m = true -> length m = length l.
Proof.
  revert m. induction l as [|a l IH]; intros [|c m]; simpl; try discriminate; auto.
  intros H. apply andb_prop in H. destruct H as [_ H]. f_equal. auto.
Qed.

End Engine.

Section Repetition.

Variable p : ascii -> bool.

Lemma rep_run_In (lo : nat) (s m rest : str) :
  In (m, rest) (rep_run p lo s) <->
  s = m ++ rest /\ lo <= length m /\ forallb p m = true.
Proof.
  revert lo m rest. induction s as [|c s IH]; intros lo m rest.
  - simpl. destruct (Nat.eqb_spec lo 0) as [->|Hlo]; simpl.
    + split.
      * intros [H|[]]. injection H as <- <-. auto.
      * intros (H & _ & _). symmetry in H. apply app_eq_nil in H.
        destruct H as [-> ->]. auto.
    + split; [intros []|]. intros (H & Hl & _).
      symmetry in H. apply app_eq_nil in H. destruct H as [-> ->].
      simpl in Hl. lia.
  - cbn [rep_run].
    assert (Hstop : In (m, rest) (if lo =? 0 then [([], c :: s)] else []) <->
                    (lo = 0 /\ m = [] /\ rest = c :: s)).
    { destruct (Nat.eqb_spec lo 0) as [->|Hlo]; simpl.
      - split.
        + intros [H|[]]. injection H as <- <-. auto.
        + intros (_ & -> & ->). auto.
      - split; [intros []|]. intros (H & _). contradiction. }
    destruct (p c) eqn:Pc.
    + rewrite in_app_iff, in_map_iff, Hstop. split.
      * intros [((m', rest') & Heq & Hin)|(-> & -> & ->)].
        -- simpl in Heq. injection Heq as <- <-.
           apply IH in Hin. destruct Hin as (-> & Hl & Hp).
           simpl. rewrite Pc, Hp. repeat split; auto. lia.
        -- simpl. repeat split; auto.
      * intros (Heq & Hl & Hp). destruct m as [|c' m].
        -- right. simpl in Heq, Hl. split; [lia|]. auto.
        -- left. simpl in Heq. injection Heq as <- ->.
           simpl in Hp. apply andb_prop in Hp. destruct Hp as [_ Hp].
           exists (m, rest). split; [reflexivity|].
           apply IH. simpl in Hl. repeat split; auto. lia.
    + rewrite Hstop. split.
      * intros (-> & -> & ->). simpl. auto.
      * intros (Heq & Hl & Hp). destruct m as [|c' m].
        -- simpl in Heq, Hl. split; [lia|]. auto.
        -- simpl in Heq. injection Heq as <- ->.
           simpl in Hp. rewrite Pc in Hp. discriminate.
Qed.

(** The first way tried is the longest run. *)
Lemma rep_run_hd (lo : nat) (s : str) (x : str * str) (xs : list (str * str)) :
  rep_run p lo s = x :: xs ->
  fst x = takewhile p s /\ snd x = dropwhile p s.
Proof.
  revert lo x xs. induction s as [|c s IH]; intros lo x xs.
  - simpl. destruct (lo =? 0); [|discriminate].
    intros H. injection H as <- _. auto.
  - cbn [rep_run takewhile dropwhile]. destruct (p c) eqn:Pc.
    + destruct (rep_run p (pred lo) s) as [|y ys] eqn:R.
      * simpl. destruct (lo =? 0) eqn:E; [|discriminate].
        apply Nat.eqb_eq in E. subst lo. simpl in R.
        exfalso.
        assert (Hin : In ([], s) (rep_run p 0 s))
          by (apply rep_run_In; simpl; auto).
        rewrite R in Hin. destruct Hin.
      * simpl. intros H. injection H as <- _. simpl.
        destruct (IH _ _ _ R) as [-> ->]. auto.
    + destruct (lo =? 0); [|discriminate].
      intros H. injection H as <- _. auto.
Qed.

Lemma takewhile_dropwhile (s : str) : takewhile p s ++ dropwhile p s = s.
Proof.
  induction s as [|c s IH]; simpl; auto.
  destruct (p c); simpl; [f_equal; auto | auto].
Qed.

Lemma takewhile_all (s : str) : forallb p (takewhile p s) = true.
Proof.
  induction s as [|c s IH]; simpl; auto.
  destruct (p c) eqn:E; simpl; auto. rewrite E. auto.
Qed.

Lemma dropwhile_stops (s : str) : stops p (dropwhile p s).
Proof.
  induction s as [|c s IH]; simpl; auto.
  destruct (p c) eqn:E; simpl; auto.
Qed.

End Repetition.

Section Soundness.

Variable ic : bool.

(** The matcher finds exactly the ways the pattern matches. *)
Lemma run_spec (r : regex) (bol : bool) (s m : str) (caps : list str) (rest : str) :
  In (m, caps, rest) (run ic r bol s) <->
  s = m ++ rest /\ Matches ic r bol m caps rest.
Proof.
  revert bol s m caps rest.
  induction r as [l|cs lo|r IH|r1 IH1 r2 IH2| |]; intros bol s m caps rest.
  - simpl. destruct (lit_run ic l s) as [[m' rest']|] eqn:R.
    + apply lit_run_spec in R. destruct R as [-> R]. simpl. split.
      * intros [H|[]]. injection H as <- <- <-. auto.
      * intros (Heq & Hok & ->). left.
        assert (R1 : lit_run ic l (m' ++ rest') = Some (m, rest))
          by (apply lit_run_spec; auto).
        assert (R2 : lit_run ic l (m' ++ rest') = Some (m', rest'))
          by (apply lit_run_spec; auto).
        rewrite R1 in R2. injection R2 as -> ->. reflexivity.
    + simpl. split; [intros []|]. intros (Heq & Hok & _).
      assert (R1 : lit_run ic l s = Some (m, rest))
        by (apply lit_run_spec; auto).
      rewrite R1 in R. discriminate.
  - simpl. rewrite in_map_iff. split.
    + intros ((m', rest') & Heq & Hin). simpl in Heq.
      injection Heq as <- <- <-. apply rep_run_In in Hin.
      destruct Hin as (-> & Hl & Hp). auto.
    + intros (-> & Hl & Hp & ->). exists (m, rest). split; [reflexivity|].
      apply rep_run_In. auto.
  - simpl. rewrite in_map_iff. split.
    + intros (((m', c'), rest') & Heq & Hin). cbn in Heq.
      injection Heq as <- <- <-. apply IH in Hin. destruct Hin as [-> Hm].
      split; [reflexivity|]. exists c'. auto.
    + intros (-> & c1 & -> & Hm). exists (m, c1, rest). split; [reflexivity|].
      apply IH. auto.
  - simpl. rewrite in_flat_map. split.
    + intros (((m1, c1), s1) & Hin1 & Hin2). cbn in Hin2.
      rewrite in_map_iff in Hin2.
      destruct Hin2 as (((m2, c2), s2) & Heq & Hin2). cbn in Heq.
      injection Heq as <- <- <-.
      apply IH1 in Hin1. destruct Hin1 as [-> Hm1].
      apply IH2 in Hin2. destruct Hin2 as [-> Hm2].
      split; [rewrite app_assoc; reflexivity|].
      exists m1, m2, c1, c2. auto.
    + intros (-> & m1 & m2 & c1 & c2 & -> & -> & Hm1 & Hm2).
      exists (m1, c1, m2 ++ rest). split.
      * apply IH1. rewrite app_assoc. auto.
      * cbn. rewrite in_map_iff. exists (m2, c2, rest). split; [reflexivity|].
        apply IH2. auto.
  - simpl. destruct bol; simpl.
    + split.
      * intros [H|[]]. injection H as <- <- <-. auto.
      * intros (-> & _ & -> & ->). auto.
    + split; [intros []|]. intros (_ & H & _). discriminate.
  - simpl. destruct s as [|c [|c' s]].
    + simpl. split.
      * intros [H|[]]. injection H as <- <- <-. auto.
      * intros (H & -> & -> & _). simpl in H. subst rest. auto.
    + destruct (Ascii.eqb_spec c nl) as [->|Hc]; simpl.
      * split.
        -- intros [H|[]]. injection H as <- <- <-. auto.
        -- intros (H & -> & -> & _). simpl in H. subst rest. auto.
      * split; [intros []|].
        intros (H & -> & -> & [->| ->]); simpl in H; [discriminate|].
        injection H as H. contradiction.
    + split; [intros []|].
      intros (H & -> & -> & [->| ->]); simpl in H; discriminate.
Qed.

Lemma run_complete (r : regex) (bol : bool) (m : str) (caps : list str) (rest : str) :
  Matches ic r bol m caps rest -> run ic r bol (m ++ rest) <> [].
Proof.
  intros Hm Hnil.
  assert (Hin : In (m, caps, rest) (run ic r bol (m ++ rest)))
    by (apply run_spec; auto).
  rewrite Hnil in Hin. destruct Hin.
Qed.

End Soundness.

(** The head of a [flat_map]: the first element that yields anything. *)
Lemma hd_flat_map (A B : Type) (f : A -> list B) (l : list A) (y : B) (ys : list B) :
  flat_map f l = y :: ys ->
  exists l1 x l2 ys',
    l = l1 ++ x :: l2 /\ (forall x', In x' l1 -> f x' = []) /\ f x = y :: ys'.
Proof.
  induction l as [|a l IH]; simpl; [discriminate|].
  destruct (f a) as [|b bs] eqn:E.
  - simpl. intros H. destruct (IH H) as (l1 & x & l2 & ys' & -> & Hl1 & Hx).
    exists (a :: l1), x, l2, ys'. repeat split; auto.
    intros x' [<-|Hin]; auto.
  - simpl. intros H. injection H as <- _.
    exists [], a, l, bs. repeat split; auto. intros x' [].
Qed.

Lemma map_eq_cons_inv (A B : Type) (f : A -> B) (l : list A) (y : B) (ys : list B) :
  map f l = y :: ys -> exists x xs, l = x :: xs /\ f x = y.
Proof.
  destruct l as [|x xs]; simpl; [discriminate|].
  intros H. injection H as <- _. eauto.
Qed.

Section Search.

Variables (ic : bool) (r : regex).

(** [re.search] returns the leftmost position at which the pattern
    matches, and there the first way the matcher finds. *)
Lemma search_from_Some (pos : nat) (s : str) (mt : Match) :
  search_from ic r pos s = Some mt ->
  exists pre s1 x xs,
    s = pre ++ s1 /\ m_start mt = pos + length pre /\
    run ic r (pos + length pre =? 0) s1 = x :: xs /\
    m_groups mt = r_text x :: r_caps x /\
    (forall pre' s', s = pre' ++ s' -> length pre' < length pre ->
                     run ic r (pos + length pre' =? 0) s' = []).
Proof.
  revert pos. induction s as [|c s IH]; intros pos.
  - simpl. unfold match_here.
    destruct (run ic r (pos =? 0) []) as [|x xs] eqn:R; [discriminate|].
    intros H. injection H as <-.
    exists [], [], x, xs. simpl. rewrite Nat.add_0_r.
    repeat split; auto. intros pre' s' _ Hl. lia.
  - simpl. unfold match_here.
    destruct (run ic r (pos =? 0) (c :: s)) as [|x xs] eqn:R.
    + intros H. destruct (IH _ H) as (pre & s1 & x & xs & -> & Hst & Hrun & Hg & Hleft).
      exists (c :: pre), s1, x, xs. simpl.
      rewrite Nat.add_succ_r. repeat split; auto.
      intros pre' s' Heq Hl. destruct pre' as [|c' pre'].
      * simpl in Heq. subst s'. simpl. rewrite Nat.add_0_r. exact R.
      * simpl in Heq. injection Heq as <- Heq. simpl.
        rewrite Nat.add_succ_r. apply Hleft; auto. simpl in Hl. lia.
    + intros H. injection H as <-.
      exists [], (c :: s), x, xs. simpl. rewrite Nat.add_0_r.
      repeat split; auto. intros pre' s' _ Hl. lia.
Qed.

Lemma search_from_None (pos : nat) (s : str) :
  search_from ic r pos s = None ->
  forall pre' s', s = pre' ++ s' -> run ic r (pos + length pre' =? 0) s' = [].
Proof.
  revert pos. induction s as [|c s IH]; intros pos.
  - simpl. unfold match_here.
    destruct (run ic r (pos =? 0) []) as [|x xs] eqn:R; [|discriminate].
    intros _ pre' s' Heq. symmetry in Heq. apply app_eq_nil in Heq.
    destruct Heq as [-> ->]. simpl. rewrite Nat.add_0_r. exact R.
  - simpl. unfold match_here.
    destruct (run ic r (pos =? 0) (c :: s)) as [|x xs] eqn:R; [|discriminate].
    intros H pre' s' Heq. destruct pre' as [|c' pre'].
    + simpl in Heq. subst s'. simpl. rewrite Nat.add_0_r. exact R.
    + simpl in Heq. injection Heq as <- Heq. simpl.
      rewrite Nat.add_succ_r. apply (IH (S pos)); auto.
Qed.

End Search.

(** ** Lists of characters *)

Lemma app_eq_length (A : Type) (a b c d : list A) :
  a ++ b = c ++ d -> length a = length c -> a = c /\ b = d.
Proof.
  revert c. induction a as [|x a IH]; intros [|y c]; simpl; try discriminate.
  - auto.
  - intros H Hl. injection H as -> H. injection Hl as Hl.
    destruct (IH _ H Hl) as [-> ->]. auto.
Qed.

Lemma takewhile_app_stops (p : ascii -> bool) (g rest : str) :
  forallb p g = true -> stops p rest -> takewhile p (g ++ rest) = g.
Proof.
  induction g as [|c g IH]; simpl.
  - intros _. destruct rest as [|c rest]; simpl; auto. intros ->. reflexivity.
  - intros H Hs. apply andb_prop in H. destruct H as [-> H]. f_equal. auto.
Qed.

Lemma dropwhile_app_stops (p : ascii -> bool) (g rest : str) :
  forallb p g = true -> stops p rest -> dropwhile p (g ++ rest) = rest.
Proof.
  induction g as [|c g IH]; simpl.
  - intros _. destruct rest as [|c rest]; simpl; auto. intros ->. reflexivity.
  - intros H Hs. apply andb_prop in H. destruct H as [-> H]. auto.
Qed.

Lemma desc_app (l1 l2 : list (str * str)) :
  desc l1 -> desc l2 ->
  (forall x y, In x l1 -> In y l2 -> length (fst y) < length (fst x)) ->
  desc (l1 ++ l2).
Proof.
  induction l1 as [|a l1 IH]; simpl; auto.
  intros [Ha Hd] H2 H. split.
  - intros y Hy. apply in_app_or in Hy. destruct Hy; auto.
  - apply IH; auto.
Qed.

Lemma desc_split (l1 l2 : list (str * str)) (x : str * str) :
  desc (l1 ++ x :: l2) ->
  (forall y, In y l1 -> length (fst x) < length (fst y)) /\
  (forall y, In y l2 -> length (fst y) < length (fst x)).
Proof.
  induction l1 as [|a l1 IH]; simpl.
  - intros [H _]. split; [intros y []|auto].
  - intros [Ha Hd]. destruct (IH Hd) as [H1 H2]. split; auto.
    intros y [<-|Hy]; auto. apply Ha. apply in_or_app. right. left. reflexivity.
Qed.

Lemma rep_run_desc (p : ascii -> bool) (lo : nat) (s : str) :
  desc (rep_run p lo s).
Proof.
  revert lo. induction s as [|c s IH]; intros lo.
  - simpl. destruct (lo =? 0); simpl; auto. split; auto. intros y [].
  - cbn [rep_run].
    assert (Hstop : desc (if lo =? 0 then [([], c :: s)] else []))
      by (destruct (lo =? 0); simpl; auto; split; auto; intros y []).
    destruct (p c); auto.
    apply desc_app; auto.
    + specialize (IH (pred lo)). induction (rep_run p (pred lo) s) as [|a l IHl];
        simpl; auto.
      destruct IH as [Ha Hd]. split; auto.
      intros y Hy. apply in_map_iff in Hy. destruct Hy as (y0 & <- & Hy0).
      simpl. apply Ha in Hy0. lia.
    + intros x y Hx Hy. apply in_map_iff in Hx. destruct Hx as (x0 & <- & _).
      destruct (lo =? 0); [|destruct Hy]. destruct Hy as [<-|[]]. simpl. lia.
Qed.

(** ** The labelled patterns [Label:\s*(cs+)] *)

Ltac ascii_cases c :=
  destruct c as [[] [] [] [] [] [] [] []]; vm_compute; reflexivity.

Lemma space_class (ic : bool) (c : ascii) :
  cs_match ic (OneOf [CSpace]) c = isspace c.
Proof. destruct ic; ascii_cases c. Qed.

Lemma forallb_space_class (ic : bool) (s : str) :
  forallb (cs_match ic (OneOf [CSpace])) s = forallb isspace s.
Proof.
  induction s as [|c s IH]; simpl; auto. f_equal; auto.
  destruct ic; ascii_cases c.
Qed.

Lemma map_nil_inv (A B : Type) (f : A -> B) (l : list A) :
  map f l = [] -> l = [].
Proof. destruct l; simpl; [auto | discriminate]. Qed.

Section Labelled.

Variables (label : str) (cs : charset).

Let p : ascii -> bool := cs_match true cs.

Lemma run_labelled_hd (bol : bool) (s : str) (x : result) (xs : list result) :
  run true (labelled label cs) bol s = x :: xs ->
  exists lab ws g rest,
    s = lab ++ ws ++ g ++ rest /\
    r_text x = lab ++ ws ++ g /\ r_caps x = [g] /\
    lit_ok true label lab = true /\
    forallb isspace ws = true /\
    g <> [] /\ forallb p g = true /\ stops p rest /\
    (forall ws' c rest',
        ws ++ g ++ rest = ws' ++ c :: rest' ->
        forallb isspace ws' = true -> p c = true ->
        length ws' <= length ws).
Proof.
  unfold labelled, spaces. cbn [run].
  destruct (lit_run true label s) as [[lab s1]|] eqn:RL; [|discriminate].
  apply lit_run_spec in RL. destruct RL as [-> Hlab].
  cbn [flat_map]. rewrite app_nil_r. intros H.
  apply map_eq_cons_inv in H. destruct H as (y & ys & H & Hx).
  cbn [r_text r_rest r_caps fst snd] in H.
  apply hd_flat_map in H. destruct H as (l1 & x0 & l2 & ys' & Hl & Hl1 & Hx0).
  apply map_eq_app in Hl. destruct Hl as (R1 & R2' & HR & <- & HR2).
  apply map_eq_cons in HR2. destruct HR2 as (z & R2 & -> & <- & <-).
  cbn [r_text r_rest r_caps fst snd] in Hx0.
  apply map_eq_cons_inv in Hx0. destruct Hx0 as (y1 & ys1 & Hy1 & Hy).
  apply map_eq_cons_inv in Hy1. destruct Hy1 as (y2 & ys2 & Hy2 & Hy1).
  apply map_eq_cons_inv in Hy2. destruct Hy2 as (w & ws2 & Hw & Hy2).
  assert (Hz : In z (rep_run (cs_match true (OneOf [CSpace])) 0 s1))
    by (rewrite HR; apply in_or_app; right; left; reflexivity).
  destruct z as [ws s2]. apply rep_run_In in Hz.
  destruct Hz as (-> & _ & Hws). rewrite forallb_space_class in Hws.
  cbn [fst snd] in *.
  assert (Hwin : In w (rep_run (cs_match true cs) 1 s2))
    by (rewrite Hw; left; reflexivity).
  destruct (rep_run_hd _ _ _ Hw) as [Hg Hrest].
  destruct w as [g rest]. cbn [fst snd] in *.
  apply rep_run_In in Hwin. destruct Hwin as (Hs2 & Hlen & Hpg).
  exists lab, ws, g, rest.
  subst y2 y1 y x. cbn [r_text r_caps r_rest fst snd].
  subst s2. simpl.
  repeat split; auto.
  - destruct g; simpl in Hlen; [lia | discriminate].
  - rewrite Hrest. apply dropwhile_stops.
  - intros ws' c rest' Heq Hws' Hc.
    destruct (le_lt_dec (length ws') (length ws)) as [Hle|Hlt]; auto.
    exfalso.
    assert (Hin : In (ws', c :: rest')
                     (rep_run (cs_match true (OneOf [CSpace])) 0 (ws ++ g ++ rest))).
    { apply rep_run_In. rewrite forallb_space_class.
      repeat split; auto. lia. }
    pose proof (rep_run_desc (cs_match true (OneOf [CSpace])) 0 (ws ++ g ++ rest)) as Hd.
    rewrite HR in Hd, Hin. apply desc_split in Hd. destruct Hd as [_ Hd2].
    apply in_app_or in Hin. destruct Hin as [Hin|[Hin|Hin]].
    + specialize (Hl1 (ws', [], c :: rest')).
      assert (Hnil : In (ws', ([] : list str), c :: rest')
                (map (fun x => (fst x, ([] : list str), snd x)) R1)).
      { apply in_map_iff. exists (ws', c :: rest'). auto. }
      apply Hl1 in Hnil. cbn [r_text r_caps r_rest fst snd] in Hnil.
      apply map_nil_inv in Hnil. apply map_nil_inv in Hnil.
      apply map_nil_inv in Hnil.
      assert (Hc1 : In ([c], rest') (rep_run (cs_match true cs) 1 (c :: rest'))).
      { apply rep_run_In. simpl. fold p. rewrite Hc. auto. }
      rewrite Hnil in Hc1. destruct Hc1.
    + injection Hin as Hin _. subst ws'. lia.
    + apply Hd2 in Hin. simpl in Hin. lia.
Qed.

Lemma run_labelled_complete (bol : bool) (lab ws g rest : str) :
  lit_ok true label lab = true ->
  forallb isspace ws = true ->
  g <> [] -> forallb p g = true ->
  run true (labelled label cs) bol (lab ++ ws ++ g ++ rest) <> [].
Proof.
  intros Hlab Hws Hg Hpg.
  replace (lab ++ ws ++ g ++ rest) with ((lab ++ ws ++ g) ++ rest)
    by (rewrite <- !app_assoc; reflexivity).
  apply run_complete with (caps := [] ++ [] ++ [g]).
  unfold labelled, spaces. cbn [Matches].
  exists lab, (ws ++ g), [], ([] ++ [g]). repeat split; auto.
  exists ws, g, [], [g]. repeat split; auto.
  - lia.
  - rewrite forallb_space_class. exact Hws.
  - exists []. split; auto. cbn [Matches]. repeat split; auto.
    destruct g; [contradiction | simpl; lia].
Qed.

(** [re.search] with a labelled pattern returns the value at the
    leftmost labelled position. *)
Lemma search_labelled (text : str) :
  first_labelled label p text
    (option_map (fun m => group m 1)
                (re_search true (labelled label cs) text)).
Proof.
  unfold re_search.
  destruct (search_from true (labelled label cs) 0 text) as [mt|] eqn:S; simpl.
  - apply search_from_Some in S.
    destruct S as (pre & s1 & x & xs & -> & Hst & Hrun & Hg & Hleft).
    apply run_labelled_hd in Hrun.
    destruct Hrun as (lab & ws & g & rest & -> & Ht & Hc & Hlab & Hws & Hg0 & Hpg & Hstop & Hprio).
    unfold group. rewrite Hg, Hc. simpl.
    exists pre. split.
    + exists lab, ws, rest. repeat split; auto.
    + intros pre' (lab' & ws' & c' & rest' & Heq & Hlab' & Hws' & Hc').
      destruct (le_lt_dec (length pre) (length pre')) as [Hle|Hlt]; auto.
      exfalso. apply (Hleft _ _ Heq) in Hlt.
      revert Hlt. apply (@run_labelled_complete _ lab' ws' [c'] rest'); auto.
      * discriminate.
      * simpl. rewrite Hc'. reflexivity.
  - intros pre (lab & ws & c & rest & Heq & Hlab & Hws & Hc).
    pose proof (@search_from_None _ _ _ _ S _ _ Heq) as Hnil.
    revert Hnil. apply (@run_labelled_complete _ lab ws [c] rest); auto.
    + discriminate.
    + simpl. rewrite Hc. reflexivity.
Qed.

End Labelled.

(** A labelled position holds one value, and the leftmost value is
    unique: [first_labelled] is a function of the text. *)
Lemma labelled_at_unique (label : str) (p : ascii -> bool) (text pre g1 g2 : str) :
  labelled_at label p text pre g1 -> labelled_at label p text pre g2 -> g1 = g2.
Proof.
  intros (lab1 & ws1 & rest1 & E1 & L1 & W1 & N1 & P1 & S1 & Q1)
         (lab2 & ws2 & rest2 & E2 & L2 & W2 & N2 & P2 & S2 & Q2).
  rewrite E1 in E2. apply app_inv_head in E2.
  apply app_eq_length in E2;
    [|rewrite (lit_ok_length _ _ _ L1), (lit_ok_length _ _ _ L2); reflexivity].
  destruct E2 as [_ E].
  assert (H12 : length ws2 <= length ws1).
  { destruct g2 as [|c g2]; [contradiction|].
    simpl in P2. apply andb_prop in P2. destruct P2 as [Pc _].
    apply (Q1 ws2 c (g2 ++ rest2)); auto. }
  assert (H21 : length ws1 <= length ws2).
  { destruct g1 as [|c g1]; [contradiction|].
    simpl in P1. apply andb_prop in P1. destruct P1 as [Pc _].
    apply (Q2 ws1 c (g1 ++ rest1)); auto. }
  apply app_eq_length in E; [|lia]. destruct E as [_ E].
  rewrite <- (takewhile_app_stops p g1 rest1 P1 S1).
  rewrite <- (takewhile_app_stops p g2 rest2 P2 S2).
  rewrite E. reflexivity.
Qed.

Lemma labelled_at_here (label : str) (p : ascii -> bool) (text pre g : str) :
  labelled_at label p text pre g -> labelled_here label p text pre.
Proof.
  intros (lab & ws & rest & E & L & W & N & P & _).
  destruct g as [|c g]; [contradiction|].
  simpl in P. apply andb_prop in P. destruct P as [Pc _].
  exists lab, ws, c, (g ++ rest). auto.
Qed.

Lemma first_labelled_unique (label : str) (p : ascii -> bool) (text : str)
    (o1 o2 : option str) :
  first_labelled label p text o1 -> first_labelled label p text o2 -> o1 = o2.
Proof.
  destruct o1 as [g1|], o2 as [g2|]; simpl.
  - intros (pre1 & H1 & M1) (pre2 & H2 & M2).
    pose proof (M1 _ (labelled_at_here H2)) as L12.
    pose proof (M2 _ (labelled_at_here H1)) as L21.
    assert (pre1 = pre2).
    { destruct H1 as (lab1 & ws1 & rest1 & E1 & _).
      destruct H2 as (lab2 & ws2 & rest2 & E2 & _).
      rewrite E1 in E2. apply app_eq_length in E2; [tauto | lia]. }
    subst pre2. f_equal. eapply labelled_at_unique; eauto.
  - intros (pre1 & H1 & _) H2. exfalso.
    apply (H2 pre1). eapply labelled_at_here; eauto.
  - intros H1 (pre2 & H2 & _). exfalso.
    apply (H1 pre2). eapply labelled_at_here; eauto.
  - auto.
Qed.

(** ** [strip] *)

Lemma dropwhile_idem (p : ascii -> bool) (s : str) :
  dropwhile p (dropwhile p s) = dropwhile p s.
Proof.
  induction s as [|c s IH]; simpl; auto.
  destruct (p c) eqn:E; auto. simpl. rewrite E. reflexivity.
Qed.

Lemma dropwhile_snoc (p : ascii -> bool) (s : str) (c : ascii) :
  p c = false -> dropwhile p (s ++ [c]) = dropwhile p s ++ [c].
Proof.
  intros Hc. induction s as [|d s IH]; simpl.
  - rewrite Hc. reflexivity.
  - destruct (p d); auto.
Qed.

Lemma dropwhile_all (p : ascii -> bool) (ws s : str) :
  forallb p ws = true -> dropwhile p (ws ++ s) = dropwhile p s.
Proof.
  induction ws as [|c ws IH]; simpl; auto.
  intros H. apply andb_prop in H. destruct H as [-> H]. auto.
Qed.

Lemma rstrip_cons (c : ascii) (s : str) :
  isspace c = false -> rstrip (c :: s) = c :: rstrip s.
Proof.
  intros Hc. unfold rstrip. simpl. rewrite dropwhile_snoc by exact Hc.
  rewrite rev_app_distr. reflexivity.
Qed.

Lemma rstrip_idem (s : str) : rstrip (rstrip s) = rstrip s.
Proof.
  unfold rstrip. rewrite rev_involutive, dropwhile_idem. reflexivity.
Qed.

Lemma lstrip_rstrip_lstrip (s : str) :
  lstrip (rstrip (lstrip s)) = rstrip (lstrip s).
Proof.
  unfold lstrip at 2 3.
  pose proof (dropwhile_stops isspace s) as Hs.
  destruct (dropwhile isspace s) as [|c t]; [reflexivity|].
  simpl in Hs. rewrite rstrip_cons by exact Hs.
  unfold lstrip. simpl. rewrite Hs. reflexivity.
Qed.

(** Stripping is idempotent: a stripped string is trimmed. *)
Lemma strip_idem (s : str) : strip (strip s) = strip s.
Proof.
  unfold strip. rewrite lstrip_rstrip_lstrip. apply rstrip_idem.
Qed.

(** Leading white space does not change the stripped value. *)
Lemma strip_app_space (ws s : str) :
  forallb isspace ws = true -> strip (ws ++ s) = strip s.
Proof.
  intros H. unfold strip, lstrip. rewrite dropwhile_all by exact H. reflexivity.
Qed.

Lemma dropwhile_incl (p : ascii -> bool) (s : str) (c : ascii) :
  In c (dropwhile p s) -> In c s.
Proof.
  induction s as [|d s IH]; simpl; auto.
  destruct (p d); simpl; auto.
Qed.

Lemma strip_incl (s : str) (c : ascii) : In c (strip s) -> In c s.
Proof.
  unfold strip, rstrip, lstrip. intros H.
  apply in_rev in H. apply dropwhile_incl in H. apply in_rev in H.
  apply dropwhile_incl in H. exact H.
Qed.

Lemma strip_all_space (s : str) : forallb isspace s = true -> strip s = [].
Proof.
  intros H. rewrite <- (app_nil_r s). rewrite strip_app_space by exact H.
  reflexivity.
Qed.

(** [split] never returns the empty list. *)
Lemma split_not_nil (sep : ascii) (s : str) : split sep s <> [].
Proof.
  destruct s as [|c s]; simpl; [discriminate|].
  destruct (Ascii.eqb c sep); [discriminate|].
  destruct (split sep s); discriminate.
Qed.

(** ** Strings as keys *)

Lemma str_eqb_eq (a b : str) : str_eqb a b = true <-> a = b.
Proof.
  revert b. induction a as [|x a IH]; intros [|y b]; simpl;
    try (split; [discriminate | discriminate]); try tauto.
  rewrite andb_true_iff, Ascii.eqb_eq, IH. split.
  - intros [-> ->]. reflexivity.
  - intros H. injection H as -> ->. auto.
Qed.

Lemma str_eqb_refl (a : str) : str_eqb a a = true.
Proof. apply str_eqb_eq. reflexivity. Qed.

Lemma str_mem_In (x : str) (l : list str) : str_mem x l = true <-> In x l.
Proof.
  unfold str_mem. rewrite existsb_exists. split.
  - intros (y & Hy & E). apply str_eqb_eq in E. subst y. exact Hy.
  - intros H. exists x. split; [exact H | apply str_eqb_refl].
Qed.

(** ** The validator, check by check *)

Lemma app_nil_iff (A : Type) (l l' : list A) :
  l ++ l' = [] <-> l = [] /\ l' = [].
Proof.
  split; [apply app_eq_nil|]. intros [-> ->]. reflexivity.
Qed.

Lemma append_if_flag (c : bool) (x : string) (l : list string) :
  append_if c x l = l ++ flag c x.
Proof. destruct c; simpl; [reflexivity | rewrite app_nil_r; reflexivity]. Qed.

Lemma validate_fields_flags (p : CompanyProfile) (q : PastPerformance) :
  validate_fields p q =
    flag (negb (truthy (company_name p))) "missing_company_name" ++
    flag (negb (truthy (uei p))) "missing_uei" ++
    flag (negb (truthy (duns p))) "missing_duns" ++
    flag (is_empty (naics p)) "missing_naics" ++
    flag (negb (truthy (poc_name p))) "missing_poc_name" ++
    email_issue (poc_email p) ++
    flag (negb (truthy (poc_phone p))) "missing_poc_phone" ++
    flag (negb (truthy (address p))) "missing_address" ++
    flag (is_none (sam_registered p)) "missing_sam_status" ++
    flag (negb (truthy (customer q))) "missing_customer" ++
    flag (negb (truthy (contract q))) "missing_contract" ++
    flag (negb (truthy (value q))) "missing_contract_value" ++
    flag (negb (truthy (period q))) "missing_contract_period" ++
    flag (negb (truthy (contact q))) "missing_contract_contact".
Proof.
  unfold validate_fields. cbv zeta.
  rewrite !append_if_flag.
  assert (E : forall l : list string,
             match poc_email p with
             | Some [] => l ++ ["missing_poc_email"]
             | Some ((_ :: _) as email) =>
                 append_if (negb (validate_email email)) "invalid_poc_email" l
             | None => l ++ ["missing_poc_email"]
             end = l ++ email_issue (poc_email p)).
  { intros l. destruct (poc_email p) as [[|c e]|]; simpl; auto.
    apply append_if_flag. }
  rewrite E. simpl. rewrite <- !app_assoc. reflexivity.
Qed.

Lemma flag_nil (c : bool) (x : string) : flag c x = [] <-> c = false.
Proof. destruct c; simpl; split; auto; discriminate. Qed.

Lemma in_flag (y : string) (c : bool) (x : string) :
  In y (flag c x) <-> c = true /\ x = y.
Proof.
  destruct c; simpl.
  - split; [intros [H|[]]; auto | intros [_ H]; auto].
  - split; [intros [] | intros [H _]; discriminate].
Qed.

Lemma email_issue_nil (o : option str) :
  email_issue o = [] <-> truthy o = true /\ email_ok o = true.
Proof.
  destruct o as [[|c e]|]; simpl.
  - split; [discriminate | intros [H _]; discriminate].
  - rewrite flag_nil, negb_false_iff. tauto.
  - split; [discriminate | intros [H _]; discriminate].
Qed.

Lemma in_email_issue (y : string) (o : option str) :
  In y (email_issue o) <->
  (truthy o = false /\ y = "missing_poc_email") \/
  (truthy o = true /\ email_ok o = false /\ y = "invalid_poc_email").
Proof.
  destruct o as [[|c e]|]; simpl.
  - split.
    + intros [H|[]]; auto.
    + intros [[_ ->]|[H _]]; [auto | discriminate].
  - rewrite in_flag, negb_true_iff. split.
    + intros [H ->]. right. auto.
    + intros [[H _]|(_ & H & ->)]; [discriminate | auto].
  - split.
    + intros [H|[]]; auto.
    + intros [[_ ->]|[H _]]; [auto | discriminate].
Qed.

(** ** The scenarios of the specification *)

(** C1. Scenario A end to end: on the Acme Corp profile and the DoD past
    performance the pipeline reports no issue, recommends exactly the
    program code 54151S, and the overall check passes. *)
Theorem scenario_A_end_to_end :
  let response := ingest_documents scenario_A_profile scenario_A_performance in
  issues response = [] /\
  recommended_sins response = [str_of "54151S"] /\
  overall_ok (checklist response) = true.
Proof. vm_compute. repeat split. Qed.

(** Scenario B: a profile holding the company name only lacks every other
    field, in the order of the checks, and nothing is recommended. *)
Example scenario_B :
  let response := ingest_documents "Acme Corp" "" in
  issues response =
    ["missing_uei"; "missing_duns"; "missing_naics"; "missing_poc_name";
     "missing_poc_email"; "missing_poc_phone"; "missing_address";
     "missing_sam_status"; "missing_customer"; "missing_contract";
     "missing_contract_value"; "missing_contract_period";
     "missing_contract_contact"] /\
  recommended_sins response = [].
Proof. vm_compute. split; reflexivity. Qed.

(** Scenario C: an e-mail segment that is no e-mail address is extracted
    as it stands and reported invalid, not missing. *)
Example scenario_C :
  let profile := parse_company_profile "POC: Jane, not-an-email, 555-1234" in
  let found := validate_fields profile PastPerformance_new in
  poc_email profile = Some (str_of "not-an-email") /\
  In "invalid_poc_email" found /\ ~ In "missing_poc_email" found.
Proof.
  vm_compute. split; [reflexivity|]. split.
  - tauto.
  - intros H. repeat (destruct H as [H|H]; [discriminate|]). exact H.
Qed.

(** Scenario D: duplicates are kept at extraction and removed by the
    mapper, which drops the unmapped code. *)
Example scenario_D :
  let profile := parse_company_profile "NAICS: 541511, 541511, 999999" in
  naics profile = [str_of "541511"; str_of "541511"; str_of "999999"] /\
  map_naics_to_sins (naics profile) = [str_of "54151S"].
Proof. vm_compute. split; reflexivity. Qed.

(** ** The validator and the checklist *)

(** C2. The issue list is empty, and so the overall check passes, exactly
    when all fifteen conditions hold; the reported total is the length of
    the issue list. *)
Theorem no_issue_iff_all_conditions (p : CompanyProfile) (q : PastPerformance) :
  (validate_fields p q = [] <-> all_conditions p q) /\
  (overall_ok (generate_checklist p q (validate_fields p q)) = true <->
   all_conditions p q) /\
  (forall found : list string,
      (overall_ok (generate_checklist p q found) = true <-> found = []) /\
      overall_total_issues (generate_checklist p q found) = length found).
Proof.
  assert (H0 : validate_fields p q = [] <-> all_conditions p q).
  { rewrite validate_fields_flags. unfold all_conditions.
    rewrite !app_nil_iff, !flag_nil, !negb_false_iff, email_issue_nil.
    destruct (naics p); destruct (sam_registered p); simpl;
      intuition (try discriminate; try congruence). }
  assert (H1 : forall found : list string,
             overall_ok (generate_checklist p q found) = true <-> found = []).
  { intros found. simpl. rewrite Nat.eqb_eq. apply length_zero_iff_nil. }
  split; [exact H0|]. split.
  - rewrite H1. exact H0.
  - intros found. split; [apply H1 | reflexivity].
Qed.

(** ** The code mapper *)

Lemma map_naics_to_sins_mapped (codes : list str) (acc : list str) :
  fold_left step_sins codes acc = fold_left add_new (mapped codes) acc.
Proof.
  revert acc. induction codes as [|c codes IH]; intros acc; [reflexivity|].
  unfold mapped in *. cbn [flat_map fold_left].
  rewrite fold_left_app, IH. f_equal. unfold step_sins.
  destruct (dict_get NAICS_SIN_MAPPING c); reflexivity.
Qed.

Lemma filter_filter_not_mem (acc l : list str) (x : str) :
  filter (fun y => negb (str_mem y (acc ++ [x]))) l =
  filter (fun y => negb (str_eqb x y)) (filter (fun y => negb (str_mem y acc)) l).
Proof.
  induction l as [|y l IH]; simpl; auto.
  assert (E : str_mem y (acc ++ [x]) = str_mem y acc || str_eqb x y).
  { unfold str_mem. rewrite existsb_app. simpl. rewrite orb_false_r.
    f_equal. destruct (str_eqb y x) eqn:E1, (str_eqb x y) eqn:E2; auto.
    - apply str_eqb_eq in E1. subst. rewrite str_eqb_refl in E2. discriminate.
    - apply str_eqb_eq in E2. subst. rewrite str_eqb_refl in E1. discriminate. }
  rewrite E. destruct (str_mem y acc); simpl.
  - exact IH.
  - destruct (str_eqb x y); simpl; rewrite IH; reflexivity.
Qed.

Lemma filter_first_occurrences (f : str -> bool) (l : list str) :
  filter f (first_occurrences l) = first_occurrences (filter f l).
Proof.
  induction l as [|x l IH]; simpl; auto.
  destruct (f x) eqn:E; simpl.
  - f_equal. rewrite <- IH.
    clear. induction (first_occurrences l) as [|y l' IH]; simpl; auto.
    destruct (str_eqb x y) eqn:E1; simpl.
    + destruct (f y); simpl; [rewrite E1; simpl|]; exact IH.
    + destruct (f y); simpl; [rewrite E1; simpl; f_equal|]; exact IH.
  - rewrite <- IH.
    clear IH. induction (first_occurrences l) as [|y l' IH]; simpl; auto.
    destruct (str_eqb x y) eqn:E1; simpl.
    + apply str_eqb_eq in E1. subst y. rewrite E. exact IH.
    + destruct (f y); simpl; [f_equal|]; exact IH.
Qed.

Lemma fold_add_new (l acc : list str) :
  fold_left add_new l acc =
  acc ++ first_occurrences (filter (fun y => negb (str_mem y acc)) l).
Proof.
  revert acc. induction l as [|x l IH]; intros acc; simpl.
  - rewrite app_nil_r. reflexivity.
  - rewrite IH. unfold add_new. destruct (str_mem x acc) eqn:E; simpl.
    + reflexivity.
    + rewrite <- app_assoc. simpl. do 2 f_equal.
      rewrite filter_filter_not_mem. symmetry. apply filter_first_occurrences.
Qed.

Lemma first_occurrences_NoDup (l : list str) : NoDup (first_occurrences l).
Proof.
  induction l as [|x l IH]; simpl; [constructor|].
  constructor.
  - rewrite filter_In. intros [_ H]. rewrite str_eqb_refl in H. discriminate.
  - apply NoDup_filter. exact IH.
Qed.

Lemma first_occurrences_In (l : list str) (x : str) :
  In x (first_occurrences l) <-> In x l.
Proof.
  induction l as [|y l IH]; simpl; [tauto|].
  rewrite filter_In, IH. split.
  - tauto.
  - intros [->|H]; auto. destruct (str_eqb y x) eqn:E.
    + apply str_eqb_eq in E. auto.
    + right. auto.
Qed.

Lemma dict_get_values (k v : str) :
  dict_get NAICS_SIN_MAPPING k = Some v -> In v table_values.
Proof.
  unfold NAICS_SIN_MAPPING, table_values. simpl.
  repeat match goal with
         | |- context [if ?b then _ else _] => destruct b
         end; intros H; try discriminate; injection H as <-; simpl; auto.
Qed.

(** C3. For every list of codes the mapper returns, without failing, a
    list with no duplicates, made only of values of the static table, and
    equal to the mapped codes each kept at its first occurrence: unmapped
    codes are dropped and first-seen order is kept. *)
Theorem map_naics_to_sins_spec (codes : list str) :
  NoDup (map_naics_to_sins codes) /\
  (forall sin, In sin (map_naics_to_sins codes) -> In sin table_values) /\
  (forall sin, In sin (map_naics_to_sins codes) <->
               exists code, In code codes /\
                            dict_get NAICS_SIN_MAPPING code = Some sin) /\
  map_naics_to_sins codes = first_occurrences (mapped codes).
Proof.
  assert (E : map_naics_to_sins codes = first_occurrences (mapped codes)).
  { unfold map_naics_to_sins.
    rewrite map_naics_to_sins_mapped, fold_add_new. simpl.
    f_equal. clear. induction (mapped codes) as [|x l IH]; simpl; auto.
    f_equal. exact IH. }
  assert (M : forall sin, In sin (mapped codes) <->
                exists code, In code codes /\
                             dict_get NAICS_SIN_MAPPING code = Some sin).
  { intros sin. unfold mapped. rewrite in_flat_map. split.
    - intros (c & Hc & Hin). exists c. split; auto.
      destruct (dict_get NAICS_SIN_MAPPING c); [|destruct Hin].
      destruct Hin as [->|[]]. reflexivity.
    - intros (c & Hc & Hg). exists c. split; auto. rewrite Hg. left. reflexivity. }
  rewrite E. split; [apply first_occurrences_NoDup|]. split; [|split; auto].
  - intros sin H. apply first_occurrences_In, M in H.
    destruct H as (c & _ & Hg). eapply dict_get_values; eauto.
  - intros sin. rewrite first_occurrences_In. apply M.
Qed.

(** ** Each field is extracted by its own search *)

Ltac split_searches :=
  repeat match goal with
         | |- context [match re_search ?ic ?r ?t with _ => _ end] =>
             destruct (re_search ic r t)
         end.

Lemma company_name_field (text : str) :
  company_name (parse_company_profile text) =
    match split nl (strip text) with
    | l0 :: _ => Some (strip l0)
    | [] => None
    end.
Proof.
  unfold parse_company_profile. cbv zeta.
  destruct (split nl (strip text)); split_searches; reflexivity.
Qed.

Lemma uei_field (text : str) :
  uei (parse_company_profile text) =
    option_map (fun m => group m 1) (re_search IGNORECASE UEI_RE text).
Proof.
  unfold parse_company_profile. cbv zeta.
  destruct (split nl (strip text)); split_searches; reflexivity.
Qed.

Lemma duns_field (text : str) :
  duns (parse_company_profile text) =
    option_map (fun m => group m 1) (re_search IGNORECASE DUNS_RE text).
Proof.
  unfold parse_company_profile. cbv zeta.
  destruct (split nl (strip text)); split_searches; reflexivity.
Qed.

Lemma naics_field (text : str) :
  naics (parse_company_profile text) =
    match re_search IGNORECASE NAICS_RE text with
    | Some m =>
        map strip (filter (fun c => nonempty (strip c)) (split comma (group m 1)))
    | None => []
    end.
Proof.
  unfold parse_company_profile. cbv zeta.
  destruct (split nl (strip text)); split_searches; reflexivity.
Qed.

Lemma poc_fields (text : str) :
  (poc_name (parse_company_profile text),
   poc_email (parse_company_profile text),
   poc_phone (parse_company_profile text)) =
    match re_search IGNORECASE POC_RE text with
    | Some m => (Some (strip (group m 1)), Some (strip (group m 2)),
                 Some (strip (group m 3)))
    | None => (None, None, None)
    end.
Proof.
  unfold parse_company_profile. cbv zeta.
  destruct (split nl (strip text)); split_searches; reflexivity.
Qed.

Lemma address_field (text : str) :
  address (parse_company_profile text) =
    option_map (fun m => strip (group m 1)) (re_search IGNORECASE ADDRESS_RE text).
Proof.
  unfold parse_company_profile. cbv zeta.
  destruct (split nl (strip text)); split_searches; reflexivity.
Qed.

Lemma sam_registered_field (text : str) :
  sam_registered (parse_company_profile text) =
    option_map (fun m => str_eqb (str_lower (group m 1)) "registered")
               (re_search IGNORECASE SAM_RE text).
Proof.
  unfold parse_company_profile. cbv zeta.
  destruct (split nl (strip text)); split_searches; reflexivity.
Qed.

Lemma performance_fields (text : str) :
  let q := parse_past_performance text in
  let get r := option_map (fun m => strip (group m 1)) (re_search IGNORECASE r text) in
  customer q = get CUSTOMER_RE /\ contract q = get CONTRACT_RE /\
  value q = get VALUE_RE /\ period q = get PERIOD_RE /\
  contact q = get CONTACT_RE.
Proof.
  unfold parse_past_performance. cbv zeta.
  split_searches; simpl; repeat split; reflexivity.
Qed.

(** ** Empty and blank input *)

(** C5. On the empty string every past-performance field and every
    profile field but the company name is unset; the company name is the
    empty string, because [split] always returns a first line.  For every
    text the company name is set. *)
Theorem empty_text_company_name_is_set :
  parse_past_performance [] = PastPerformance_new /\
  parse_company_profile [] =
    mkCompanyProfile (Some []) None None [] None None None None None /\
  company_name (parse_company_profile []) <> None /\
  (forall text, company_name (parse_company_profile text) <> None).
Proof.
  split; [reflexivity|]. split; [reflexivity|]. split; [discriminate|].
  intros text. rewrite company_name_field.
  pose proof (split_not_nil nl (strip text)) as H.
  destruct (split nl (strip text)); [contradiction | discriminate].
Qed.

(** ** Empty strings count as unset *)

Lemma blank_truthy (x y : option str) :
  blank_as_unset x y -> truthy y = truthy x.
Proof. intros [->|[-> ->]]; reflexivity. Qed.

Lemma blank_email_issue (x y : option str) :
  blank_as_unset x y -> email_issue y = email_issue x.
Proof. intros [->|[-> ->]]; reflexivity. Qed.

Lemma blank_email_ok (x y : option str) :
  blank_as_unset x y -> email_ok y = email_ok x.
Proof. intros [->|[-> ->]]; reflexivity. Qed.

(** C10. The validator and the five checks read a field only through its
    truthiness: turning empty-string fields into unset ones changes
    neither the issue list nor any checklist outcome.  An empty company
    name is reported missing and fails [has_company_info], and extraction
    does produce it on white-space-only text. *)
Theorem empty_string_behaves_as_unset
    (p p' : CompanyProfile) (q q' : PastPerformance) :
  profile_blank_as_unset p p' ->
  performance_blank_as_unset q q' ->
  validate_fields p' q' = validate_fields p q /\
  (forall found, generate_checklist p' q' found = generate_checklist p q found) /\
  (company_name p = Some [] ->
     In "missing_company_name" (validate_fields p q) /\
     ok (has_company_info (generate_checklist p q (validate_fields p q))) = false) /\
  (forall text, forallb isspace text = true ->
     company_name (parse_company_profile text) = Some []).
Proof.
  intros (P1 & P2 & P3 & P4 & P5 & P6 & P7 & P8 & P9) (Q1 & Q2 & Q3 & Q4 & Q5).
  split; [|split; [|split]].
  - rewrite !validate_fields_flags.
    rewrite (blank_truthy P1), (blank_truthy P2), (blank_truthy P3), P4,
      (blank_truthy P5), (blank_email_issue P6), (blank_truthy P7),
      (blank_truthy P8), P9, (blank_truthy Q1), (blank_truthy Q2),
      (blank_truthy Q3), (blank_truthy Q4), (blank_truthy Q5).
    reflexivity.
  - intros found. unfold generate_checklist.
    rewrite (blank_truthy P1), (blank_truthy P2), (blank_truthy P3), P4,
      (blank_truthy P5), (blank_email_ok P6), P9, (blank_truthy Q1),
      (blank_truthy Q2), (blank_truthy Q3).
    reflexivity.
  - intros E. split.
    + rewrite validate_fields_flags, E. simpl. left. reflexivity.
    + simpl. rewrite E. reflexivity.
  - intros text H. rewrite company_name_field.
    rewrite (strip_all_space text H). reflexivity.
Qed.

(** C10 on a profile with three empty fields of which two are unset, and
    a past performance whose empty customer is unset. *)
Lemma empty_string_behaves_as_unset_witness :
  let p := mkCompanyProfile (Some []) (Some []) None [] None (Some []) None None None in
  let p' := mkCompanyProfile None (Some []) None [] None None None None None in
  let q := mkPastPerformance (Some []) None None None None in
  let q' := mkPastPerformance None None None None None in
  validate_fields p' q' = validate_fields p q /\
  (forall found, generate_checklist p' q' found = generate_checklist p q found) /\
  (company_name p = Some [] ->
     In "missing_company_name" (validate_fields p q) /\
     ok (has_company_info (generate_checklist p q (validate_fields p q))) = false) /\
  (forall text, forallb isspace text = true ->
     company_name (parse_company_profile text) = Some []).
Proof.
  apply empty_string_behaves_as_unset.
  - unfold profile_blank_as_unset, blank_as_unset. simpl.
    repeat split; auto.
  - unfold performance_blank_as_unset, blank_as_unset. simpl.
    repeat split; auto.
Defined.

(** ** The classes of the patterns, in plain words *)

Lemma uei_class (c : ascii) : cs_match IGNORECASE cs_uei c = is_letter_or_digit c.
Proof. ascii_cases c. Qed.

Lemma duns_class (c : ascii) : cs_match IGNORECASE cs_duns c = isdigit c.
Proof. ascii_cases c. Qed.

Lemma naics_class (c : ascii) : cs_match IGNORECASE cs_naics c = is_naics_char c.
Proof. ascii_cases c. Qed.

Lemma sam_class (c : ascii) : cs_match IGNORECASE cs_sam c = isword c.
Proof. ascii_cases c. Qed.

Lemma not_comma_class (c : ascii) :
  cs_match IGNORECASE cs_not_comma c = not_comma c.
Proof. ascii_cases c. Qed.

Lemma comma_literal (ic : bool) (c : ascii) :
  chr_match ic comma c = Ascii.eqb c comma.
Proof. destruct ic; ascii_cases c. Qed.

Lemma email_local_class (c : ascii) :
  cs_match false cs_email_local c = email_local_char c.
Proof. ascii_cases c. Qed.

Lemma email_domain_class (c : ascii) :
  cs_match false cs_email_domain c = email_domain_char c.
Proof. ascii_cases c. Qed.

Lemma email_tld_class (c : ascii) : cs_match false cs_email_tld c = is_letter c.
Proof. ascii_cases c. Qed.

Lemma space_not_comma (c : ascii) : isspace c = true -> not_comma c = true.
Proof. destruct c as [[] [] [] [] [] [] [] []]; vm_compute; auto. Qed.

Lemma forallb_ext_eq (p1 p2 : ascii -> bool) (s : str) :
  (forall c, p1 c = p2 c) -> forallb p1 s = forallb p2 s.
Proof.
  intros H. induction s as [|c s IH]; simpl; auto. rewrite H, IH. reflexivity.
Qed.

Lemma stops_ext (p1 p2 : ascii -> bool) (s : str) :
  (forall c, p1 c = p2 c) -> stops p1 s -> stops p2 s.
Proof. intros H. destruct s; simpl; auto. rewrite <- H. auto. Qed.

Lemma labelled_at_ext (label : str) (p1 p2 : ascii -> bool) (text pre g : str) :
  (forall c, p1 c = p2 c) ->
  labelled_at label p1 text pre g -> labelled_at label p2 text pre g.
Proof.
  intros H (lab & ws & rest & E & L & W & N & P & S & Q).
  exists lab, ws, rest. repeat split; auto.
  - rewrite <- (forallb_ext_eq p1 p2 g H). exact P.
  - eapply stops_ext; eauto.
  - intros ws' c rest' E' W' Pc. apply (Q ws' c rest'); auto.
    rewrite H. exact Pc.
Qed.

Lemma labelled_here_ext (label : str) (p1 p2 : ascii -> bool) (text pre : str) :
  (forall c, p1 c = p2 c) ->
  labelled_here label p1 text pre -> labelled_here label p2 text pre.
Proof.
  intros H (lab & ws & c & rest & E & L & W & P).
  exists lab, ws, c, rest. rewrite <- H. auto.
Qed.

Lemma first_labelled_ext (label : str) (p1 p2 : ascii -> bool) (text : str)
    (og : option str) :
  (forall c, p1 c = p2 c) ->
  first_labelled label p1 text og -> first_labelled label p2 text og.
Proof.
  intros H. destruct og as [g|]; simpl.
  - intros (pre & Hat & Hmin). exists pre. split.
    + eapply labelled_at_ext; eauto.
    + intros pre' Hat'. apply (Hmin pre').
      eapply labelled_here_ext; [|exact Hat']. intros c. symmetry. apply H.
  - intros Hno pre Hat. apply (Hno pre).
    eapply labelled_here_ext; [|exact Hat]. intros c. symmetry. apply H.
Qed.

(** Which check reported an issue: the other checks name other issues. *)
Ltac issue_cases H :=
  repeat match type of H with
         | _ \/ _ => destruct H as [H|H]
         end;
  repeat match type of H with
         | _ /\ _ => let H1 := fresh "Hc" in destruct H as [H1 H]
         end;
  try discriminate H.

(** ** SAM registration *)






(** ** The e-mail check *)

Lemma forallb_class (p1 p2 : ascii -> bool) (s : str) :
  (forall c, p1 c = p2 c) -> forallb p2 s = true -> forallb p1 s = true.
Proof. intros H <-. apply forallb_ext_eq. exact H. Qed.

(** Every string of the e-mail format passes [validate_email]. *)
Lemma validate_email_complete (email : str) :
  email_format email -> validate_email email = true.
Proof.
  intros (local & domain & tld & -> & Hl & Pl & Hd & Pd & Ht & Pt).
  unfold validate_email.
  set (e := local ++ str_of "@" ++ domain ++ str_of "." ++ tld).
  assert (Hne : nonempty e = true)
    by (subst e; destruct local; [contradiction | reflexivity]).
  rewrite Hne. cbn [negb]. unfold re_match, match_here. cbn [Nat.eqb].
  assert (R : run false EMAIL_RE true e <> []);
    [|destruct (run false EMAIL_RE true e); [contradiction | reflexivity]].
  replace e with (e ++ []) by apply app_nil_r.
  apply run_complete with (caps := []).
  unfold EMAIL_RE. cbn [Matches].
  exists [], e, [], [].
  repeat split; auto.
  exists local, (str_of "@" ++ domain ++ str_of "." ++ tld), [], [].
  repeat split; auto.
  { destruct local; [contradiction | simpl; lia]. }
  { apply forallb_class with (p2 := email_local_char);
      [apply email_local_class | exact Pl]. }
  exists (str_of "@"), (domain ++ str_of "." ++ tld), [], [].
  repeat split; auto.
  exists domain, (str_of "." ++ tld), [], [].
  repeat split; auto.
  { destruct domain; [contradiction | simpl; lia]. }
  { apply forallb_class with (p2 := email_domain_char);
      [apply email_domain_class | exact Pd]. }
  exists (str_of "."), tld, [], [].
  repeat split; auto.
  exists tld, [], [], [].
  repeat split; auto.
  { rewrite app_nil_r. reflexivity. }
  { apply forallb_class with (p2 := is_letter);
      [apply email_tld_class | exact Pt]. }
Qed.

(** C7. The issue list never holds both [missing_poc_email] and
    [invalid_poc_email], an unset e-mail is never reported invalid, and an
    e-mail of the e-mail format is never reported invalid. *)
Theorem poc_email_issues (p : CompanyProfile) (q : PastPerformance) :
  ~ (In "missing_poc_email" (validate_fields p q) /\
     In "invalid_poc_email" (validate_fields p q)) /\
  (truthy (poc_email p) = false -> ~ In "invalid_poc_email" (validate_fields p q)) /\
  (forall email, poc_email p = Some email -> email_format email ->
                 ~ In "invalid_poc_email" (validate_fields p q)).
Proof.
  assert (M : In "missing_poc_email" (validate_fields p q) ->
              truthy (poc_email p) = false).
  { rewrite validate_fields_flags, !in_app_iff, !in_flag, in_email_issue.
    intros H. issue_cases H. exact Hc. }
  assert (I : In "invalid_poc_email" (validate_fields p q) ->
              truthy (poc_email p) = true /\ email_ok (poc_email p) = false).
  { rewrite validate_fields_flags, !in_app_iff, !in_flag, in_email_issue.
    intros H. issue_cases H. auto. }
  split; [|split].
  - intros [H1 H2]. apply M in H1. apply I in H2. destruct H2 as [H2 _].
    rewrite H1 in H2. discriminate.
  - intros E H. apply I in H. destruct H as [H _]. rewrite E in H. discriminate.
  - intros email E F H. apply I in H. destruct H as [T H]. rewrite E in T, H.
    destruct email as [|c email]; [discriminate|]. simpl in H.
    rewrite (validate_email_complete F) in H. discriminate.
Qed.

(** C7 on the e-mail address of Scenario A. *)
Lemma poc_email_issues_witness :
  let p := mkCompanyProfile None None None [] None
             (Some (str_of "jane@acme.com")) None None None in
  poc_email p = Some (str_of "jane@acme.com") /\
  email_format "jane@acme.com" /\
  ~ In "invalid_poc_email" (validate_fields p PastPerformance_new).
Proof.
  assert (F : email_format "jane@acme.com").
  { exists (str_of "jane"), (str_of "acme"), (str_of "com").
    repeat split; try discriminate; simpl; lia. }
  split; [reflexivity|]. split; [exact F|].
  exact (proj2 (proj2 (poc_email_issues
           (mkCompanyProfile None None None [] None
              (Some (str_of "jane@acme.com")) None None None)
           PastPerformance_new))
         (str_of "jane@acme.com") eq_refl F).
Defined.

(** ** The POC pattern *)

Lemma run_cat_hd (ic : bool) (r1 r2 : regex) (bol : bool) (s : str)
    (x : result) (xs : list result) :
  run ic (Cat r1 r2) bol s = x :: xs ->
  exists m1 c1 s1 x2 xs2,
    In (m1, c1, s1) (run ic r1 bol s) /\
    run ic r2 (bol && is_nil m1) s1 = x2 :: xs2 /\
    x = (m1 ++ r_text x2, c1 ++ r_caps x2, r_rest x2).
Proof.
  cbn [run]. intros H. apply hd_flat_map in H.
  destruct H as (l1 & [[m1 c1] s1] & l2 & ys & Hl & _ & Hx).
  apply map_eq_cons_inv in Hx. destruct Hx as (x2 & xs2 & Hr & Hx).
  exists m1, c1, s1, x2, xs2. repeat split; auto.
  rewrite Hl. apply in_or_app. right. left. reflexivity.
Qed.

Lemma comma_lit_ok (ic : bool) (m : str) :
  lit_ok ic [comma] m = true <-> m = [comma].
Proof.
  destruct m as [|c [|d m]]; cbn [lit_ok].
  - split; discriminate.
  - rewrite andb_true_r, comma_literal, Ascii.eqb_eq. split.
    + intros ->. reflexivity.
    + intros H. injection H as ->. reflexivity.
  - rewrite andb_false_r. split; discriminate.
Qed.

Lemma run_poc_hd (bol : bool) (s : str) (x : result) (xs : list result) :
  run true POC_RE bol s = x :: xs ->
  exists lab ws1 g1 ws2 g2 ws3 g3 rest,
    s = lab ++ ws1 ++ g1 ++ comma :: ws2 ++ g2 ++ comma :: ws3 ++ g3 ++ rest /\
    r_caps x = [g1; g2; g3] /\
    lit_ok true "POC:" lab = true /\
    forallb isspace ws1 = true /\ g1 <> [] /\ forallb not_comma g1 = true /\
    forallb isspace ws2 = true /\ g2 <> [] /\ forallb not_comma g2 = true /\
    forallb isspace ws3 = true /\
    g3 <> [] /\ forallb not_newline g3 = true /\ stops not_newline rest /\
    (forall ws' c rest',
        ws3 ++ g3 ++ rest = ws' ++ c :: rest' ->
        forallb isspace ws' = true -> not_newline c = true ->
        length ws' <= length ws3).
Proof.
  unfold POC_RE.
  change (Str [comma] @@ spaces @@ Grp (Rep Any 1))%re with (labelled [comma] Any).
  intros H.
  apply run_cat_hd in H. destruct H as (lab & c1 & s1 & x1 & xs1 & I1 & H & ->).
  apply run_spec in I1. destruct I1 as (-> & Hlab & ->).
  apply run_cat_hd in H. destruct H as (ws1 & c2 & s2 & x2 & xs2 & I2 & H & ->).
  apply run_spec in I2. destruct I2 as (-> & _ & Hws1 & ->).
  rewrite forallb_space_class in Hws1.
  apply run_cat_hd in H. destruct H as (g1 & c3 & s3 & x3 & xs3 & I3 & H & ->).
  apply run_spec in I3. destruct I3 as (-> & c3' & -> & Hl1 & Hg1 & ->).
  apply run_cat_hd in H. destruct H as (k1 & c4 & s4 & x4 & xs4 & I4 & H & ->).
  apply run_spec in I4. destruct I4 as (-> & Hk1 & ->).
  apply comma_lit_ok in Hk1. subst k1.
  apply run_cat_hd in H. destruct H as (ws2 & c5 & s5 & x5 & xs5 & I5 & H & ->).
  apply run_spec in I5. destruct I5 as (-> & _ & Hws2 & ->).
  rewrite forallb_space_class in Hws2.
  apply run_cat_hd in H. destruct H as (g2 & c6 & s6 & x6 & xs6 & I6 & H & ->).
  apply run_spec in I6. destruct I6 as (-> & c6' & -> & Hl2 & Hg2 & ->).
  apply run_labelled_hd in H.
  destruct H as (k2 & ws3 & g3 & rest & -> & Ht & Hc & Hk2 & Hws3 & Hn3 & Hg3 & Hst & Hpr).
  apply comma_lit_ok in Hk2. subst k2.
  exists lab, ws1, g1, ws2, g2, ws3, g3, rest.
  cbn [r_text r_caps r_rest fst snd]. rewrite Hc.
  repeat split; auto.
  - destruct g1; [simpl in Hl1; lia | discriminate].
  - apply forallb_class with (p2 := cs_match true cs_not_comma); auto.
    intros c. symmetry. apply not_comma_class.
  - destruct g2; [simpl in Hl2; lia | discriminate].
  - apply forallb_class with (p2 := cs_match true cs_not_comma); auto.
    intros c. symmetry. apply not_comma_class.
Qed.

Lemma run_poc_complete (bol : bool) (lab seg1 seg2 ws3 g3 rest : str) :
  lit_ok true "POC:" lab = true ->
  seg1 <> [] -> forallb not_comma seg1 = true ->
  seg2 <> [] -> forallb not_comma seg2 = true ->
  forallb isspace ws3 = true ->
  g3 <> [] -> forallb not_newline g3 = true ->
  run true POC_RE bol
      (lab ++ seg1 ++ comma :: seg2 ++ comma :: ws3 ++ g3 ++ rest) <> [].
Proof.
  intros Hlab N1 P1 N2 P2 W3 N3 P3.
  replace (lab ++ seg1 ++ comma :: seg2 ++ comma :: ws3 ++ g3 ++ rest)
    with ((lab ++ [] ++ seg1 ++ [comma] ++ [] ++ seg2 ++ [comma] ++ ws3 ++ g3)
            ++ rest)
    by (repeat (first [rewrite <- app_assoc | rewrite <- app_comm_cons]);
        reflexivity).
  apply run_complete
    with (caps := [] ++ [] ++ [seg1] ++ [] ++ [] ++ [seg2] ++ [] ++ [] ++ [g3]).
  unfold POC_RE, spaces. cbn [Matches].
  eexists lab, _, [], _. split; [reflexivity|]. split; [reflexivity|].
  split; [split; auto|].
  eexists [], _, [], _. split; [reflexivity|]. split; [reflexivity|].
  split; [repeat split; auto; simpl; lia|].
  eexists seg1, _, [seg1], _. split; [reflexivity|]. split; [reflexivity|].
  split.
  { exists []. split; auto. cbn [Matches]. repeat split; auto.
    - destruct seg1; [contradiction | simpl; lia].
    - apply forallb_class with (p2 := not_comma); auto. apply not_comma_class. }
  eexists [comma], _, [], _. split; [reflexivity|]. split; [reflexivity|].
  split; [split; auto|].
  eexists [], _, [], _. split; [reflexivity|]. split; [reflexivity|].
  split; [repeat split; auto; simpl; lia|].
  eexists seg2, _, [seg2], _. split; [reflexivity|]. split; [reflexivity|].
  split.
  { exists []. split; auto. cbn [Matches]. repeat split; auto.
    - destruct seg2; [contradiction | simpl; lia].
    - apply forallb_class with (p2 := not_comma); auto. apply not_comma_class. }
  eexists [comma], _, [], _. split; [reflexivity|]. split; [reflexivity|].
  split; [split; auto|].
  eexists ws3, g3, [], [g3]. split; [reflexivity|]. split; [reflexivity|].
  split.
  { repeat split; auto; [lia|]. rewrite forallb_space_class. exact W3. }
  exists []. split; auto. cbn [Matches]. repeat split; auto.
  destruct g3; [contradiction | simpl; lia].
Qed.

Lemma forallb_app_true (p : ascii -> bool) (a b : str) :
  forallb p a = true -> forallb p b = true -> forallb p (a ++ b) = true.
Proof. intros Ha Hb. rewrite forallb_app, Ha, Hb. reflexivity. Qed.

Lemma spaces_not_comma (ws : str) :
  forallb isspace ws = true -> forallb not_comma ws = true.
Proof.
  induction ws as [|c ws IH]; simpl; auto.
  intros H. apply andb_prop in H. destruct H as [Hc H].
  rewrite (space_not_comma c Hc), IH; auto.
Qed.

(** [re.search] with the POC pattern: the three groups at the leftmost
    position where the pattern matches. *)
Lemma search_poc (text : str) :
  match re_search IGNORECASE POC_RE text with
  | Some m =>
      first_poc text (Some (strip (group m 1))) (Some (strip (group m 2)))
                (Some (strip (group m 3)))
  | None => first_poc text None None None
  end.
Proof.
  unfold re_search, IGNORECASE.
  destruct (search_from true POC_RE 0 text) as [mt|] eqn:S.
  - apply search_from_Some in S.
    destruct S as (pre & s1 & x & xs & -> & Hst & Hrun & Hg & Hleft).
    apply run_poc_hd in Hrun.
    destruct Hrun as (lab & ws1 & g1 & ws2 & g2 & ws3 & g3 & rest & -> & Hc
                      & Hlab & W1 & N1 & P1 & W2 & N2 & P2 & W3 & N3 & P3 & St & Pr).
    unfold group. rewrite Hg, Hc. cbn [nth first_poc].
    exists pre, (ws1 ++ g1), (ws2 ++ g2), g3. repeat split.
    + exists lab, ws3, rest. repeat split; auto.
      * rewrite <- !app_assoc. reflexivity.
      * destruct ws1; [exact N1 | discriminate].
      * apply forallb_app_true; auto. apply spaces_not_comma; auto.
      * destruct ws2; [exact N2 | discriminate].
      * apply forallb_app_true; auto. apply spaces_not_comma; auto.
    + symmetry. apply strip_app_space. exact W1.
    + symmetry. apply strip_app_space. exact W2.
    + intros pre' (lab' & a & b & ws' & c & rest' & Heq & Hlab' & Na & Pa
                    & Nb & Pb & Ws' & Pc).
      destruct (le_lt_dec (length pre) (length pre')) as [Hle|Hlt]; auto.
      exfalso. apply (Hleft _ _ Heq) in Hlt.
      revert Hlt. apply (@run_poc_complete _ lab' a b ws' [c] rest'); auto.
      * discriminate.
      * simpl. rewrite Pc. reflexivity.
  - cbn [first_poc].
    intros pre (lab & a & b & ws & c & rest & Heq & Hlab & Na & Pa
                & Nb & Pb & Ws & Pc).
    pose proof (@search_from_None _ _ _ _ S _ _ Heq) as Hnil.
    revert Hnil. apply (@run_poc_complete _ lab a b ws [c] rest); auto.
    + discriminate.
    + simpl. rewrite Pc. reflexivity.
Qed.

(** ** The labelled fields *)

Lemma search_labelled_field (A : Type) (label : str) (cs : charset)
    (p : ascii -> bool) (post : str -> A) (text : str) :
  (forall c, cs_match IGNORECASE cs c = p c) ->
  labelled_field label p post text
    (option_map (fun m => post (group m 1))
                (re_search IGNORECASE (labelled label cs) text)).
Proof.
  intros H.
  exists (option_map (fun m => group m 1)
                     (re_search IGNORECASE (labelled label cs) text)).
  split.
  - apply first_labelled_ext with (p1 := cs_match true cs); [exact H|].
    apply search_labelled.
  - destruct (re_search IGNORECASE (labelled label cs) text); reflexivity.
Qed.

Lemma any_class (c : ascii) : cs_match IGNORECASE Any c = not_newline c.
Proof. reflexivity. Qed.

(** A value read to the end of a line holds no line break. *)
Lemma line_field_no_newline (label text : str) (field : option str) (v : str) :
  labelled_field label not_newline strip text field ->
  field = Some v -> ~ In nl v.
Proof.
  intros (og & Hf & ->) E. destruct og as [g|]; [|discriminate].
  simpl in E. injection E as <-.
  destruct Hf as (pre & (lab & ws & rest & _ & _ & _ & _ & P & _) & _).
  intros Hin. apply strip_incl in Hin.
  rewrite forallb_forall in P. apply P in Hin.
  unfold not_newline in Hin. rewrite Ascii.eqb_refl in Hin. discriminate.
Qed.

Lemma split_app_sep (sep : ascii) (a b : str) :
  length (split sep (a ++ sep :: b)) = length (split sep a) + length (split sep b).
Proof.
  induction a as [|c a IH]; simpl.
  - rewrite Ascii.eqb_refl. reflexivity.
  - destruct (Ascii.eqb c sep); simpl; [rewrite IH; reflexivity|].
    pose proof (split_not_nil sep (a ++ sep :: b)) as N1.
    pose proof (split_not_nil sep a) as N2.
    destruct (split sep (a ++ sep :: b)); [contradiction|].
    destruct (split sep a); [contradiction|].
    simpl in *. exact IH.
Qed.

Lemma split_length_pos (sep : ascii) (s : str) : 1 <= length (split sep s).
Proof.
  pose proof (split_not_nil sep s) as N.
  destruct (split sep s); [contradiction | simpl; lia].
Qed.

Lemma split_app_le (sep : ascii) (a b : str) :
  length (split sep b) <= length (split sep (a ++ b)).
Proof.
  induction a as [|c a IH]; simpl; auto.
  destruct (Ascii.eqb c sep); simpl; [lia|].
  pose proof (split_not_nil sep (a ++ b)) as N.
  destruct (split sep (a ++ b)); [contradiction | exact IH].
Qed.

(** A position of contact needs two commas after the label. *)
Lemma poc_at_three_segments (text pre a b c : str) :
  poc_at text pre a b c -> 3 <= length (split comma text).
Proof.
  intros (lab & ws & rest & -> & _).
  rewrite app_assoc, app_assoc.
  rewrite split_app_sep, split_app_sep.
  pose proof (split_length_pos comma ((pre ++ lab) ++ a)).
  pose proof (split_length_pos comma b).
  pose proof (split_length_pos comma (ws ++ c ++ rest)).
  lia.
Qed.

Lemma segments_code (s : str) :
  map strip (filter (fun c => nonempty (strip c)) (split comma s)) = segments s.
Proof.
  unfold segments. induction (split comma s) as [|c l IH]; simpl; auto.
  destruct (nonempty (strip c)); simpl; rewrite IH; reflexivity.
Qed.

Lemma segments_trimmed (s code : str) :
  In code (segments s) -> code <> [] /\ strip code = code.
Proof.
  unfold segments. rewrite filter_In, in_map_iff.
  intros [(c & <- & _) Hne]. split.
  - destruct (strip c); [discriminate | discriminate].
  - apply strip_idem.
Qed.

(** ** Extraction, field by field *)

Lemma naics_first_match (text : str) :
  exists run,
    first_labelled "NAICS:" is_naics_char text run /\
    naics (parse_company_profile text) =
      match run with Some g => segments g | None => [] end.
Proof.
  exists (option_map (fun m => group m 1) (re_search IGNORECASE NAICS_RE text)).
  split.
  - apply first_labelled_ext with (p1 := cs_match true cs_naics);
      [apply naics_class|]. apply search_labelled.
  - rewrite naics_field.
    destruct (re_search IGNORECASE NAICS_RE text); simpl; auto.
    apply segments_code.
Qed.

(** C4 as stated fails: the value need not stand on the first line that
    holds the label.  The line of the Address: label holds no value, and
    the address is taken from the line below it. *)
Lemma address_taken_from_next_line :
  let text := join_lines ["Address:"; "SAM.gov: registered"] in
  first_line_with "Address:" text = Some (str_of "Address:") /\
  line_value "Address:" text = Some [] /\
  address (parse_company_profile text) = Some (str_of "SAM.gov: registered").
Proof. vm_compute. repeat split. Qed.

(** C4, amended.  Each labelled field holds the value at the leftmost
    position of the whole text where its own pattern matches (the label
    in any case, white space, then a non-empty run of the field's
    characters), whatever the other labels do and however often the label
    occurs; it is unset when there is no such position.  The values read
    to the end of a line hold no line break, but the white space between
    label and value may. *)
Theorem extraction_first_match (profile_text performance_text : str) :
  let p := parse_company_profile profile_text in
  let q := parse_past_performance performance_text in
  labelled_field "UEI:" is_letter_or_digit (fun g => g) profile_text (uei p) /\
  labelled_field "DUNS:" isdigit (fun g => g) profile_text (duns p) /\
  (exists run,
      first_labelled "NAICS:" is_naics_char profile_text run /\
      naics p = match run with Some g => segments g | None => [] end) /\
  first_poc profile_text (poc_name p) (poc_email p) (poc_phone p) /\
  labelled_field "Address:" not_newline strip profile_text (address p) /\
  labelled_field "SAM.gov:" isword
    (fun w => str_eqb (str_lower w) "registered") profile_text (sam_registered p) /\
  labelled_field "Customer:" not_newline strip performance_text (customer q) /\
  labelled_field "Contract:" not_newline strip performance_text (contract q) /\
  labelled_field "Value:" not_newline strip performance_text (value q) /\
  labelled_field "Period:" not_newline strip performance_text (period q) /\
  labelled_field "Contact:" not_newline strip performance_text (contact q) /\
  (forall v, In (Some v) [address p; customer q; contract q; value q;
                          period q; contact q] -> ~ In nl v).
Proof.
  intros p q.
  assert (A : labelled_field "Address:" not_newline strip profile_text (address p)).
  { subst p. rewrite address_field.
    apply (@search_labelled_field _ "Address:" Any _ strip profile_text any_class). }
  destruct (performance_fields performance_text) as (E1 & E2 & E3 & E4 & E5).
  fold q in E1, E2, E3, E4, E5.
  assert (Q1 : labelled_field "Customer:" not_newline strip performance_text (customer q)).
  { rewrite E1.
    apply (@search_labelled_field _ "Customer:" Any _ strip performance_text any_class). }
  assert (Q2 : labelled_field "Contract:" not_newline strip performance_text (contract q)).
  { rewrite E2.
    apply (@search_labelled_field _ "Contract:" Any _ strip performance_text any_class). }
  assert (Q3 : labelled_field "Value:" not_newline strip performance_text (value q)).
  { rewrite E3.
    apply (@search_labelled_field _ "Value:" Any _ strip performance_text any_class). }
  assert (Q4 : labelled_field "Period:" not_newline strip performance_text (period q)).
  { rewrite E4.
    apply (@search_labelled_field _ "Period:" Any _ strip performance_text any_class). }
  assert (Q5 : labelled_field "Contact:" not_newline strip performance_text (contact q)).
  { rewrite E5.
    apply (@search_labelled_field _ "Contact:" Any _ strip performance_text any_class). }
  repeat match goal with |- _ /\ _ => split end; auto.
  - subst p. rewrite uei_field.
    apply (@search_labelled_field _ "UEI:" cs_uei _ (fun g => g) profile_text uei_class).
  - subst p. rewrite duns_field.
    apply (@search_labelled_field _ "DUNS:" cs_duns _ (fun g => g) profile_text duns_class).
  - subst p. apply naics_first_match.
  - subst p. pose proof (search_poc profile_text) as H.
    pose proof (poc_fields profile_text) as F.
    destruct (re_search IGNORECASE POC_RE profile_text);
      injection F as -> -> ->; exact H.
  - subst p. rewrite sam_registered_field.
    apply (@search_labelled_field _ "SAM.gov:" cs_sam _
             (fun w => str_eqb (str_lower w) "registered") profile_text sam_class).
  - intros v Hin. simpl in Hin.
    destruct Hin as [H|[H|[H|[H|[H|[H|[]]]]]]].
    + exact (line_field_no_newline A H).
    + exact (line_field_no_newline Q1 H).
    + exact (line_field_no_newline Q2 H).
    + exact (line_field_no_newline Q3 H).
    + exact (line_field_no_newline Q4 H).
    + exact (line_field_no_newline Q5 H).
Qed.

Lemma split_chars (sep : ascii) (s seg : str) (c : ascii) :
  In seg (split sep s) -> In c seg -> In c s /\ Ascii.eqb c sep = false.
Proof.
  revert seg. induction s as [|d s IH]; intros seg; simpl.
  - intros [<-|[]] [].
  - destruct (Ascii.eqb d sep) eqn:E.
    + intros [<-|H] Hc; [destruct Hc|].
      destruct (IH _ H Hc) as [H1 H2]. auto.
    + pose proof (split_not_nil sep s) as N.
      destruct (split sep s) as [|seg0 segs]; [contradiction|].
      intros [<-|H] Hc.
      * destruct Hc as [<-|Hc]; [auto|].
        destruct (IH seg0 (or_introl eq_refl) Hc) as [H1 H2]. auto.
      * destruct (IH seg (or_intror H) Hc) as [H1 H2]. auto.
Qed.

Lemma segments_chars (g code : str) (c : ascii) :
  forallb is_naics_char g = true ->
  In code (segments g) -> In c code -> isdigit c = true \/ isspace c = true.
Proof.
  intros P Hcode Hc. unfold segments in Hcode.
  rewrite filter_In, in_map_iff in Hcode.
  destruct Hcode as [(seg & <- & Hseg) _].
  apply strip_incl in Hc.
  destruct (split_chars _ _ _ _ Hseg Hc) as [Hin Hne].
  rewrite forallb_forall in P. apply P in Hin.
  unfold is_naics_char in Hin. rewrite Hne, orb_false_r in Hin.
  apply orb_prop in Hin. exact Hin.
Qed.

(** ** NAICS codes *)

(** C8 as stated fails: the codes are not the segments of what follows
    the label on its line.  With a line below that starts with digits, the
    second code runs across the line break. *)
Lemma naics_runs_into_next_line :
  let text := join_lines ["NAICS: 541511, 541512"; "100 Main St"] in
  first_line_with "NAICS:" text = Some (str_of "NAICS: 541511, 541512") /\
  segments (after_label "NAICS:" "NAICS: 541511, 541512") =
    [str_of "541511"; str_of "541512"] /\
  naics (parse_company_profile text) =
    [str_of "541511"; str_of "541512" ++ nl :: str_of "100"].
Proof. vm_compute. repeat split. Qed.

(** C8, amended.  The codes are the comma-separated segments, each
    trimmed, the empty ones dropped, in order and with their duplicates,
    of the longest run of digits, commas and white space (line breaks
    included) that follows the leftmost NAICS: label followed by such a
    run; without such a label there is no code.  No code is empty or
    untrimmed, and a code holds only digits and white space. *)
Theorem naics_codes_spec (text : str) :
  (exists run,
      first_labelled "NAICS:" is_naics_char text run /\
      naics (parse_company_profile text) =
        match run with Some g => segments g | None => [] end) /\
  (forall code, In code (naics (parse_company_profile text)) ->
                code <> [] /\ strip code = code /\
                forall c, In c code -> isdigit c = true \/ isspace c = true).
Proof.
  split; [apply naics_first_match|].
  intros code H. destruct (naics_first_match text) as (run & F & E).
  rewrite E in H. destruct run as [g|]; [|destruct H].
  destruct (segments_trimmed _ _ H) as [H1 H2].
  split; [exact H1|]. split; [exact H2|].
  intros c Hc. simpl in F.
  destruct F as (pre & (lab & ws & rest & _ & _ & _ & _ & P & _) & _).
  eapply segments_chars; eauto.
Qed.

(** ** The point of contact, all or nothing *)

(** C9 as stated fails: a POC line with two segments only is not
    rejected when a later line brings the second comma.  The e-mail then
    runs across the line break and the phone is taken from the address. *)
Lemma poc_line_with_two_segments_accepted :
  let text := join_lines ["POC: Jane, jane@acme.com";
                          "Address: 1 Main St, Springfield"] in
  first_line_with "POC:" text = Some (str_of "POC: Jane, jane@acme.com") /\
  length (split comma (after_label "POC:" "POC: Jane, jane@acme.com")) = 2 /\
  poc_name (parse_company_profile text) = Some (str_of "Jane") /\
  poc_email (parse_company_profile text) =
    Some (str_of "jane@acme.com" ++ nl :: str_of "Address: 1 Main St") /\
  poc_phone (parse_company_profile text) = Some (str_of "Springfield").
Proof. vm_compute. repeat split. Qed.

(** C9, amended.  The three POC fields are set together or not at all.
    They are set exactly when somewhere in the text the POC: label is
    followed by a non-empty segment, a comma, a second non-empty segment,
    a second comma and, after white space, a non-empty rest of a line,
    the segments running across line breaks; the fields are then the
    trimmed segments at the leftmost such label, the third being all that
    follows the second comma's white space up to the end of the line.  A
    text with fewer than three comma-separated segments sets none. *)
Theorem poc_all_or_nothing (text : str) :
  let p := parse_company_profile text in
  first_poc text (poc_name p) (poc_email p) (poc_phone p) /\
  ((poc_name p = None /\ poc_email p = None /\ poc_phone p = None) \/
   (exists n e ph,
       poc_name p = Some n /\ poc_email p = Some e /\ poc_phone p = Some ph)) /\
  (length (split comma text) < 3 ->
   poc_name p = None /\ poc_email p = None /\ poc_phone p = None).
Proof.
  intros p.
  assert (F : first_poc text (poc_name p) (poc_email p) (poc_phone p)).
  { subst p. pose proof (search_poc text) as H.
    pose proof (poc_fields text) as E.
    destruct (re_search IGNORECASE POC_RE text);
      injection E as -> -> ->; exact H. }
  split; [exact F|]. split.
  - destruct (poc_name p) as [n|], (poc_email p) as [e|], (poc_phone p) as [ph|];
      simpl in F; try contradiction.
    + right. exists n, e, ph. auto.
    + left. auto.
  - intros Hlt.
    destruct (poc_name p) as [n|], (poc_email p) as [e|], (poc_phone p) as [ph|];
      simpl in F; try contradiction; auto.
    destruct F as (pre & a & b & c & Hat & _).
    apply poc_at_three_segments in Hat. lia.
Qed.

(** C9 on a POC line with two segments and nothing after it. *)
Lemma poc_all_or_nothing_witness :
  let p := parse_company_profile "POC: Jane Doe, 555-1234" in
  length (split comma "POC: Jane Doe, 555-1234") < 3 /\
  poc_name p = None /\ poc_email p = None /\ poc_phone p = None.
Proof.
  assert (H : length (split comma "POC: Jane Doe, 555-1234") < 3)
    by (vm_compute; lia).
  split; [exact H|].
  exact (proj2 (proj2 (poc_all_or_nothing "POC: Jane Doe, 555-1234")) H).
Defined.

(** ** The point of contact is a function of the text *)

Lemma app_sep_unique (p : ascii -> bool) (c : ascii) (a b x y : str) :
  forallb p a = true -> forallb p b = true -> p c = false ->
  a ++ c :: x = b ++ c :: y -> a = b /\ x = y.
Proof.
  intros Pa Pb Pc. revert b Pb. induction a as [|d a IH]; intros [|e b] Pb; simpl.
  - intros H. injection H as ->. auto.
  - intros H. injection H as <- _. simpl in Pb. rewrite Pc in Pb. discriminate.
  - intros H. injection H as -> _. simpl in Pa. rewrite Pc in Pa. discriminate.
  - intros H. injection H as -> H.
    simpl in Pa, Pb. apply andb_prop in Pa. apply andb_prop in Pb.
    destruct (IH (proj2 Pa) b (proj2 Pb) H) as [-> ->]. auto.
Qed.

Lemma poc_at_labelled (text pre seg1 seg2 g3 : str) :
  poc_at text pre seg1 seg2 g3 ->
  exists lab,
    lit_ok true "POC:" lab = true /\
    forallb not_comma seg1 = true /\ forallb not_comma seg2 = true /\
    exists tail,
      text = pre ++ lab ++ seg1 ++ comma :: seg2 ++ tail /\
      labelled_at [comma] not_newline tail [] g3.
Proof.
  intros (lab & ws & rest & E & L & N1 & P1 & N2 & P2 & W & N3 & P3 & S & Q).
  exists lab. repeat split; auto.
  exists (comma :: ws ++ g3 ++ rest). split; [exact E|].
  exists [comma], ws, rest. repeat split; auto.
Qed.

Lemma poc_at_unique (text pre a1 b1 c1 a2 b2 c2 : str) :
  poc_at text pre a1 b1 c1 -> poc_at text pre a2 b2 c2 ->
  a1 = a2 /\ b1 = b2 /\ c1 = c2.
Proof.
  intros H1 H2.
  apply poc_at_labelled in H1. apply poc_at_labelled in H2.
  destruct H1 as (lab1 & L1 & Pa1 & Pb1 & t1 & E1 & T1).
  destruct H2 as (lab2 & L2 & Pa2 & Pb2 & t2 & E2 & T2).
  rewrite E1 in E2. apply app_inv_head in E2.
  apply app_eq_length in E2;
    [|rewrite (lit_ok_length _ _ _ L1), (lit_ok_length _ _ _ L2); reflexivity].
  destruct E2 as [_ E].
  assert (Hc : not_comma comma = false) by reflexivity.
  destruct (app_sep_unique not_comma comma a1 a2 _ _ Pa1 Pa2 Hc E) as [-> E'].
  destruct T1 as (k1 & ws1 & r1 & F1 & K1 & T1).
  destruct T2 as (k2 & ws2 & r2 & F2 & K2 & T2).
  apply comma_lit_ok in K1. apply comma_lit_ok in K2. subst k1 k2.
  simpl in F1, F2. subst t1 t2.
  destruct (app_sep_unique not_comma comma b1 b2 _ _ Pb1 Pb2 Hc E') as [-> E''].
  split; [reflexivity|]. split; [reflexivity|].
  apply (@labelled_at_unique [comma] not_newline
           (comma :: ws1 ++ c1 ++ r1) [] c1 c2).
  - exists [comma], ws1, r1. repeat split; tauto.
  - exists [comma], ws2, r2. rewrite E''. repeat split; tauto.
Qed.

Lemma poc_at_here (text pre seg1 seg2 g3 : str) :
  poc_at text pre seg1 seg2 g3 -> poc_here text pre.
Proof.
  intros (lab & ws & rest & E & L & N1 & P1 & N2 & P2 & W & N3 & P3 & _).
  destruct g3 as [|c g3]; [contradiction|].
  simpl in P3. apply andb_prop in P3. destruct P3 as [Pc _].
  exists lab, seg1, seg2, ws, c, (g3 ++ rest). repeat split; auto.
Qed.

(** The three fields are determined by the text. *)
Lemma first_poc_unique (text : str) (n1 e1 p1 n2 e2 p2 : option str) :
  first_poc text n1 e1 p1 -> first_poc text n2 e2 p2 ->
  n1 = n2 /\ e1 = e2 /\ p1 = p2.
Proof.
  destruct n1 as [n1|], e1 as [e1|], p1 as [p1|]; simpl; try contradiction;
    destruct n2 as [n2|], e2 as [e2|], p2 as [p2|]; simpl; try contradiction;
    auto.
  - intros (pre1 & a1 & b1 & c1 & H1 & -> & -> & -> & M1)
           (pre2 & a2 & b2 & c2 & H2 & -> & -> & -> & M2).
    pose proof (M1 _ (poc_at_here H2)) as L12.
    pose proof (M2 _ (poc_at_here H1)) as L21.
    assert (pre1 = pre2).
    { destruct H1 as (lab1 & ws1 & rest1 & E1 & _).
      destruct H2 as (lab2 & ws2 & rest2 & E2 & _).
      rewrite E1 in E2. apply app_eq_length in E2; [tauto | lia]. }
    subst pre2. destruct (poc_at_unique H1 H2) as (-> & -> & ->). auto.
  - intros (pre1 & a1 & b1 & c1 & H1 & _) H2. exfalso.
    apply (H2 pre1). eapply poc_at_here; eauto.
  - intros H1 (pre2 & a2 & b2 & c2 & H2 & _). exfalso.
    apply (H1 pre2). eapply poc_at_here; eauto.
Qed.

(** ** What [validate_email] accepts, exactly *)

Lemma chr_match_exact (a c : ascii) : chr_match false a c = Ascii.eqb a c.
Proof. unfold chr_match. simpl. apply orb_false_r. Qed.

Lemma lit_ok_exact (l m : str) : lit_ok false l m = true <-> m = l.
Proof.
  revert m. induction l as [|a l IH]; intros [|c m]; simpl;
    try (split; discriminate); try tauto.
  rewrite andb_true_iff, chr_match_exact, Ascii.eqb_eq, IH. split.
  - intros [-> ->]. reflexivity.
  - intros H. injection H as -> ->. auto.
Qed.

Lemma forallb_class_rev (p1 p2 : ascii -> bool) (s : str) :
  (forall c, p1 c = p2 c) -> forallb p1 s = true -> forallb p2 s = true.
Proof. intros H <-. symmetry. apply forallb_ext_eq. exact H. Qed.

Lemma email_match_format (m rest : str) (caps : list str) :
  Matches false EMAIL_RE true m caps rest ->
  email_format m /\ (rest = [] \/ rest = [nl]).
Proof.
  unfold EMAIL_RE. cbn [Matches].
  intros (m0 & m1 & c0 & c1 & -> & _ & (_ & -> & _) & H).
  destruct H as (local & m2 & c2 & c3 & -> & _ & (Ll & Pl & _) & H).
  destruct H as (at_ & m3 & c4 & c5 & -> & _ & (Lat & _) & H).
  destruct H as (domain & m4 & c6 & c7 & -> & _ & (Ld & Pd & _) & H).
  destruct H as (dot & m5 & c8 & c9 & -> & _ & (Ldot & _) & H).
  destruct H as (tld & m6 & c10 & c11 & -> & _ & (Lt & Pt & _) & (-> & _ & R)).
  apply lit_ok_exact in Lat. apply lit_ok_exact in Ldot. subst at_ dot.
  split; [|exact R].
  exists local, domain, tld. rewrite app_nil_r. simpl.
  repeat split.
  - destruct local; [simpl in Ll; lia | discriminate].
  - eapply forallb_class_rev; [apply email_local_class | exact Pl].
  - destruct domain; [simpl in Ld; lia | discriminate].
  - eapply forallb_class_rev; [apply email_domain_class | exact Pd].
  - exact Lt.
  - eapply forallb_class_rev; [apply email_tld_class | exact Pt].
Qed.

Lemma email_format_nonempty (e : str) : email_format e -> nonempty e = true.
Proof.
  intros (local & domain & tld & -> & Hl & _).
  destruct local; [contradiction | reflexivity].
Qed.

Lemma email_format_match (e rest : str) :
  email_format e -> rest = [] \/ rest = [nl] ->
  Matches false EMAIL_RE true e [] rest.
Proof.
  intros (local & domain & tld & -> & Hl & Pl & Hd & Pd & Ht & Pt) R.
  unfold EMAIL_RE. cbn [Matches].
  exists [], (local ++ str_of "@" ++ domain ++ str_of "." ++ tld), [], [].
  repeat split; auto.
  exists local, (str_of "@" ++ domain ++ str_of "." ++ tld), [], [].
  repeat split; auto.
  { destruct local; [contradiction | simpl; lia]. }
  { apply forallb_class with (p2 := email_local_char);
      [apply email_local_class | exact Pl]. }
  exists (str_of "@"), (domain ++ str_of "." ++ tld), [], [].
  repeat split; auto.
  exists domain, (str_of "." ++ tld), [], [].
  repeat split; auto.
  { destruct domain; [contradiction | simpl; lia]. }
  { apply forallb_class with (p2 := email_domain_char);
      [apply email_domain_class | exact Pd]. }
  exists (str_of "."), tld, [], [].
  repeat split; auto.
  exists tld, [], [], [].
  repeat split; auto.
  { rewrite app_nil_r. reflexivity. }
  { apply forallb_class with (p2 := is_letter);
      [apply email_tld_class | exact Pt]. }
Qed.

Lemma validate_email_accepted (email : str) :
  validate_email email = true -> email_accepted email.
Proof.
  unfold validate_email, re_match, match_here. cbn [Nat.eqb].
  destruct (nonempty email); [|discriminate]. cbn [negb].
  destruct (run false EMAIL_RE true email) as [|[[m caps] rest] xs] eqn:R;
    [discriminate|].
  intros _.
  assert (Hin : In (m, caps, rest) (run false EMAIL_RE true email))
    by (rewrite R; left; reflexivity).
  apply run_spec in Hin. destruct Hin as [-> Hm].
  apply email_match_format in Hm. destruct Hm as [F [-> | ->]].
  - left. rewrite app_nil_r. exact F.
  - right. exists m. auto.
Qed.

(** X1. [validate_email] accepts exactly the strings of the e-mail format
    and those strings followed by one final line break. *)
Theorem validate_email_exact (email : str) :
  validate_email email = true <-> email_accepted email.
Proof.
  split; [apply validate_email_accepted|].
  unfold validate_email, re_match, match_here. cbn [Nat.eqb].
  - intros A.
    assert (Hne : nonempty email = true).
    { destruct A as [F|(e & -> & F)].
      - apply email_format_nonempty; exact F.
      - apply email_format_nonempty in F. destruct e; [discriminate|reflexivity]. }
    rewrite Hne. cbn [negb].
    assert (R : run false EMAIL_RE true email <> []).
    { destruct A as [F|(e & -> & F)].
      - rewrite <- (app_nil_r email).
        apply run_complete with (caps := []).
        apply email_format_match; auto.
      - apply run_complete with (caps := []).
        apply email_format_match; auto. }
    destruct (run false EMAIL_RE true email); [contradiction | reflexivity].
Qed.

(** ** The shape of the issue list *)

Lemma subseq_nil (l : list string) : subseq [] l.
Proof. destruct l; simpl; auto. Qed.

Lemma subseq_cons_r (l1 l2 : list string) (y : string) :
  subseq l1 l2 -> subseq l1 (y :: l2).
Proof. intros H. simpl. destruct l1; auto. Qed.

Lemma subseq_app (a b c d : list string) :
  subseq a b -> subseq c d -> subseq (a ++ c) (b ++ d).
Proof.
  revert a. induction b as [|y b IH]; intros a; simpl.
  - intros -> H. exact H.
  - destruct a as [|x a]; simpl.
    + intros _ H. apply subseq_cons_r. apply (IH [] (subseq_nil b) H).
    + intros [[-> H1]|H1] H2.
      * left. split; auto.
      * right. apply (IH (x :: a) H1 H2).
Qed.

Lemma subseq_In (l1 l2 : list string) (x : string) :
  subseq l1 l2 -> In x l1 -> In x l2.
Proof.
  revert l1. induction l2 as [|y l2 IH]; intros l1; simpl.
  - intros -> [].
  - destruct l1 as [|z l1]; [intros _ []|].
    intros [[-> H]|H] Hin.
    + destruct Hin as [->|Hin]; eauto.
    + right. eapply IH; eauto.
Qed.

Lemma subseq_NoDup (l1 l2 : list string) :
  subseq l1 l2 -> NoDup l2 -> NoDup l1.
Proof.
  revert l1. induction l2 as [|y l2 IH]; intros l1; simpl.
  - intros -> _. constructor.
  - destruct l1 as [|z l1]; [intros _ _; constructor|].
    intros [[-> H]|H] N; inversion N as [|? ? Ny N']; subst.
    + constructor; auto. intros Hin. apply Ny. eapply subseq_In; eauto.
    + auto.
Qed.

Lemma subseq_length (l1 l2 : list string) :
  subseq l1 l2 -> length l1 <= length l2.
Proof.
  revert l1. induction l2 as [|y l2 IH]; intros l1; simpl.
  - intros ->. simpl. lia.
  - destruct l1 as [|z l1]; [simpl; lia|].
    intros [[_ H]|H].
    + apply IH in H. simpl. lia.
    + apply IH in H. lia.
Qed.

Lemma flag_subseq (c : bool) (x : string) : subseq (flag c x) [x].
Proof. destruct c; simpl; auto. Qed.

Lemma email_issue_subseq (o : option str) :
  subseq (email_issue o) ["missing_poc_email"; "invalid_poc_email"].
Proof.
  destruct o as [[|c e]|]; simpl; auto.
  destruct (validate_email (c :: e)); simpl; auto.
Qed.

Lemma email_issue_length (o : option str) : length (email_issue o) <= 1.
Proof.
  destruct o as [[|c e]|]; simpl; auto.
  destruct (validate_email (c :: e)); simpl; auto.
Qed.

Lemma flag_length (c : bool) (x : string) : length (flag c x) <= 1.
Proof. destruct c; simpl; auto. Qed.

(** X2. Whatever the records, the issue list is the fixed sequence of the
    fifteen codes with some left out: the order is that of the checks, no
    code occurs twice, and at most fourteen occur. *)
Theorem validate_fields_order (p : CompanyProfile) (q : PastPerformance) :
  subseq (validate_fields p q) ISSUE_ORDER /\
  NoDup (validate_fields p q) /\
  length (validate_fields p q) <= 14.
Proof.
  assert (S : subseq (validate_fields p q) ISSUE_ORDER).
  { rewrite validate_fields_flags.
    change ISSUE_ORDER with
      (["missing_company_name"] ++ ["missing_uei"] ++ ["missing_duns"] ++
       ["missing_naics"] ++ ["missing_poc_name"] ++
       ["missing_poc_email"; "invalid_poc_email"] ++
       ["missing_poc_phone"] ++ ["missing_address"] ++ ["missing_sam_status"] ++
       ["missing_customer"] ++ ["missing_contract"] ++
       ["missing_contract_value"] ++ ["missing_contract_period"] ++
       ["missing_contract_contact"]).
    repeat (apply subseq_app; [first [apply flag_subseq | apply email_issue_subseq]|]).
    apply flag_subseq. }
  split; [exact S|]. split.
  - apply (@subseq_NoDup _ _ S). unfold ISSUE_ORDER.
    repeat (constructor; [simpl; intros H;
                          repeat (destruct H as [H|H]; [discriminate|]); exact H|]).
    constructor.
  - rewrite validate_fields_flags, !length_app.
    pose proof (email_issue_length (poc_email p)).
    repeat match goal with
           | |- context [length (flag ?c ?x)] =>
               let H := fresh in
               pose proof (flag_length c x) as H;
               generalize dependent (length (flag c x)); intros
           end.
    lia.
Qed.

(** ** Which check reports which issue *)

Lemma issue_reported (p : CompanyProfile) (q : PastPerformance) :
  let found := validate_fields p q in
  (In "missing_company_name" found <-> truthy (company_name p) = false) /\
  (In "missing_uei" found <-> truthy (uei p) = false) /\
  (In "missing_duns" found <-> truthy (duns p) = false) /\
  (In "missing_naics" found <-> naics p = []) /\
  (In "missing_poc_name" found <-> truthy (poc_name p) = false) /\
  (In "missing_poc_email" found <-> truthy (poc_email p) = false) /\
  (In "invalid_poc_email" found <->
     truthy (poc_email p) = true /\ email_ok (poc_email p) = false) /\
  (In "missing_poc_phone" found <-> truthy (poc_phone p) = false) /\
  (In "missing_address" found <-> truthy (address p) = false) /\
  (In "missing_sam_status" found <-> sam_registered p = None) /\
  (In "missing_customer" found <-> truthy (customer q) = false) /\
  (In "missing_contract" found <-> truthy (contract q) = false) /\
  (In "missing_contract_value" found <-> truthy (value q) = false) /\
  (In "missing_contract_period" found <-> truthy (period q) = false) /\
  (In "missing_contract_contact" found <-> truthy (contact q) = false).
Proof.
  cbv zeta. rewrite validate_fields_flags.
  repeat match goal with |- _ /\ _ => split end;
    rewrite !in_app_iff, !in_flag, in_email_issue;
    (split;
     [ intros H; issue_cases H;
       repeat match goal with
              | E : negb _ = true |- _ => apply negb_true_iff in E
              end; auto
     | intros H;
       match type of H with
       | _ /\ _ => destruct H as [H1 H2]; rewrite H1, H2
       | _ => rewrite H
       end; simpl; tauto ]).
  - destruct (naics p); [reflexivity | discriminate].
  - destruct (sam_registered p); [discriminate | reflexivity].
Qed.

(** ** The checklist against the issue list *)

Lemma naics_check (l : list str) :
  negb (is_empty l) && (0 <? length l) = true <-> l <> [].
Proof.
  destruct l; simpl; split; intros H; try discriminate; auto.
Qed.

(** X3. The five composite checks read the records, not the issue list,
    and agree with it only in part: each of [has_company_info],
    [has_valid_naics], [has_poc_info] and [has_past_performance] holds
    exactly when none of its own issues is reported (the phone, the
    address, the period and the contact belong to no check), while
    [has_sam_registration] fails without any issue when the status is
    [false].  So an overall pass implies the four other checks, and the
    SAM check only when the status is [true]. *)
Theorem checklist_against_issues (p : CompanyProfile) (q : PastPerformance) :
  let found := validate_fields p q in
  let c := generate_checklist p q found in
  (ok (has_company_info c) = true <->
     ~ In "missing_company_name" found /\ ~ In "missing_uei" found /\
     ~ In "missing_duns" found) /\
  (ok (has_valid_naics c) = true <-> ~ In "missing_naics" found) /\
  (ok (has_poc_info c) = true <->
     ~ In "missing_poc_name" found /\ ~ In "missing_poc_email" found /\
     ~ In "invalid_poc_email" found) /\
  (ok (has_past_performance c) = true <->
     ~ In "missing_customer" found /\ ~ In "missing_contract" found /\
     ~ In "missing_contract_value" found) /\
  (ok (has_sam_registration c) = true -> ~ In "missing_sam_status" found) /\
  (sam_registered p = Some false ->
     ~ In "missing_sam_status" found /\ ok (has_sam_registration c) = false) /\
  (overall_ok c = true ->
     ok (has_company_info c) = true /\ ok (has_valid_naics c) = true /\
     ok (has_poc_info c) = true /\ ok (has_past_performance c) = true /\
     (ok (has_sam_registration c) = true <-> sam_registered p = Some true)).
Proof.
  intros found c.
  destruct (issue_reported p q)
    as (I1 & I2 & I3 & I4 & I5 & I6 & I7 & I8 & I9 & I10 & I11 & I12 & I13 & _).
  fold found in I1, I2, I3, I4, I5, I6, I7, I8, I9, I10, I11, I12, I13.
  assert (C1 : ok (has_company_info c) = true <->
               ~ In "missing_company_name" found /\ ~ In "missing_uei" found /\
               ~ In "missing_duns" found).
  { rewrite I1, I2, I3. simpl.
    destruct (truthy (company_name p)), (truthy (uei p)), (truthy (duns p));
      simpl; intuition discriminate. }
  assert (C2 : ok (has_valid_naics c) = true <-> ~ In "missing_naics" found).
  { rewrite I4. simpl. apply naics_check. }
  assert (C3 : ok (has_poc_info c) = true <->
               ~ In "missing_poc_name" found /\ ~ In "missing_poc_email" found /\
               ~ In "invalid_poc_email" found).
  { rewrite I5, I6, I7. simpl.
    assert (E : email_ok (poc_email p) = true -> truthy (poc_email p) = true)
      by (destruct (poc_email p) as [[|? ?]|]; simpl; auto).
    destruct (truthy (poc_name p)), (truthy (poc_email p)),
      (email_ok (poc_email p)); simpl; intuition discriminate. }
  assert (C4 : ok (has_past_performance c) = true <->
               ~ In "missing_customer" found /\ ~ In "missing_contract" found /\
               ~ In "missing_contract_value" found).
  { rewrite I11, I12, I13. simpl.
    destruct (truthy (customer q)), (truthy (contract q)), (truthy (value q));
      simpl; intuition discriminate. }
  split; [exact C1|]. split; [exact C2|]. split; [exact C3|]. split; [exact C4|].
  split; [|split].
  - rewrite I10. simpl. destruct (sam_registered p) as [[|]|]; simpl;
      intros H; discriminate.
  - intros E. rewrite I10. simpl. rewrite E. split; [discriminate | reflexivity].
  - intros O. simpl in O. apply Nat.eqb_eq, length_zero_iff_nil in O.
    rewrite C1, C2, C3, C4. rewrite O.
    split; [repeat split; intros []|]. split; [intros []|].
    split; [repeat split; intros []|]. split; [repeat split; intros []|].
    simpl. destruct (sam_registered p) as [[|]|]; simpl; split; intros H;
      try discriminate; auto.
Qed.

(** ** The e-mail check on extracted profiles *)

Lemma rstrip_last (s t : str) (c : ascii) :
  rstrip s = t ++ [c] -> isspace c = false.
Proof.
  unfold rstrip. intros H.
  assert (E : dropwhile isspace (rev s) = c :: rev t).
  { rewrite <- (rev_involutive (dropwhile isspace (rev s))), H.
    rewrite rev_app_distr. reflexivity. }
  pose proof (dropwhile_stops isspace (rev s)) as S.
  rewrite E in S. exact S.
Qed.

Lemma strip_last (s t : str) (c : ascii) :
  strip s = t ++ [c] -> isspace c = false.
Proof. unfold strip. apply rstrip_last. Qed.

(** X4. An extracted e-mail is trimmed, so it cannot end in a line break:
    on the profile parsed from any text, [invalid_poc_email] is reported
    exactly when the e-mail segment is not empty and not of the e-mail
    format, and [missing_poc_email] exactly when the POC pattern matched
    nowhere or the segment is blank. *)
Theorem extracted_email_check (text : str) (q : PastPerformance) :
  let p := parse_company_profile text in
  (In "invalid_poc_email" (validate_fields p q) <->
     exists e, poc_email p = Some e /\ e <> [] /\ ~ email_format e) /\
  (In "missing_poc_email" (validate_fields p q) <->
     poc_email p = None \/ poc_email p = Some []).
Proof.
  intros p.
  destruct (issue_reported p q) as (_ & _ & _ & _ & _ & I6 & I7 & _).
  cbv zeta in I6, I7. rewrite I6, I7. split.
  - assert (T : forall e, poc_email p = Some e ->
                  validate_email e = true -> email_format e).
    { intros e E V. apply validate_email_accepted in V.
      destruct V as [F|(e' & -> & F)]; [exact F|].
      exfalso. pose proof (poc_fields text) as PF. fold p in PF.
      destruct (re_search IGNORECASE POC_RE text) as [m|];
        injection PF as _ PE _; rewrite PE in E; [|discriminate].
      injection E as E. apply strip_last in E. discriminate. }
    split.
    + intros [Ht Ho]. destruct (poc_email p) as [[|c e]|] eqn:E;
        try discriminate.
      exists (c :: e). repeat split; [discriminate|].
      intros F. simpl in Ho.
      assert (V : validate_email (c :: e) = true)
        by (apply validate_email_complete; exact F).
      rewrite V in Ho. discriminate.
    + intros (e & E & Hne & Hf). rewrite E.
      destruct e as [|c e]; [contradiction|]. simpl. split; [reflexivity|].
      destruct (validate_email (c :: e)) eqn:V; [|reflexivity].
      exfalso. apply Hf. apply (T _ E V).
  - destruct (poc_email p) as [[|c e]|]; simpl; split; auto;
      intros H; try discriminate; destruct H; discriminate.
Qed.

(** ** The mapper on concatenated and repeated input *)

Lemma mapped_app (a b : list str) : mapped (a ++ b) = mapped a ++ mapped b.
Proof. unfold mapped. apply flat_map_app. Qed.

Lemma map_naics_to_sins_first (codes : list str) :
  map_naics_to_sins codes = first_occurrences (mapped codes).
Proof.
  unfold map_naics_to_sins. rewrite map_naics_to_sins_mapped, fold_add_new.
  simpl. f_equal. induction (mapped codes) as [|x l IH]; simpl; auto.
  f_equal. exact IH.
Qed.

Lemma filter_all (A : Type) (f : A -> bool) (l : list A) :
  (forall x, In x l -> f x = true) -> filter f l = l.
Proof.
  induction l as [|x l IH]; simpl; auto.
  intros H. rewrite (H x (or_introl eq_refl)). f_equal. auto.
Qed.

Lemma filter_none (A : Type) (f : A -> bool) (l : list A) :
  (forall x, In x l -> f x = false) -> filter f l = [].
Proof.
  induction l as [|x l IH]; simpl; auto.
  intros H. rewrite (H x (or_introl eq_refl)). auto.
Qed.

Lemma first_occurrences_length (l : list str) :
  length (first_occurrences l) <= length l.
Proof.
  induction l as [|x l IH]; cbn [first_occurrences length]; auto.
  pose proof (filter_length_le (fun y => negb (str_eqb x y)) (first_occurrences l)).
  lia.
Qed.

Lemma mapped_length (codes : list str) : length (mapped codes) <= length codes.
Proof.
  unfold mapped. induction codes as [|c codes IH]; cbn [flat_map length]; auto.
  rewrite length_app.
  destruct (dict_get NAICS_SIN_MAPPING c); cbn [length]; lia.
Qed.

(** X5. The mapper composes over concatenation: the codes of [a ++ b] are
    the codes of [a] followed by those codes of [b] that [a] has not
    given already.  Mapping a list after itself adds nothing; the output
    has at most three entries and never more than the input; and it is
    empty exactly when no input code is a key of the table. *)
Theorem map_naics_to_sins_app (a b : list str) :
  map_naics_to_sins (a ++ b) =
    map_naics_to_sins a ++
    filter (fun sin => negb (str_mem sin (map_naics_to_sins a)))
           (map_naics_to_sins b) /\
  map_naics_to_sins (a ++ a) = map_naics_to_sins a /\
  length (map_naics_to_sins a) <= 3 /\
  length (map_naics_to_sins a) <= length a /\
  (map_naics_to_sins a = [] <->
   forall code, In code a -> dict_get NAICS_SIN_MAPPING code = None).
Proof.
  assert (App : forall x y,
             map_naics_to_sins (x ++ y) =
             map_naics_to_sins x ++
             filter (fun sin => negb (str_mem sin (map_naics_to_sins x)))
                    (map_naics_to_sins y)).
  { intros x y. unfold map_naics_to_sins at 1.
    rewrite fold_left_app. fold (map_naics_to_sins x).
    rewrite map_naics_to_sins_mapped, fold_add_new. f_equal.
    rewrite map_naics_to_sins_first with (codes := y).
    symmetry. apply filter_first_occurrences. }
  split; [apply App|]. split; [|split; [|split]].
  - rewrite App. rewrite filter_none; [apply app_nil_r|].
    intros x Hx. apply negb_false_iff. apply str_mem_In. exact Hx.
  - rewrite map_naics_to_sins_first.
    apply (@NoDup_incl_length _ _ table_values).
    + apply first_occurrences_NoDup.
    + intros sin H. rewrite first_occurrences_In in H.
      unfold mapped in H. rewrite in_flat_map in H.
      destruct H as (c & _ & H).
      destruct (dict_get NAICS_SIN_MAPPING c) eqn:E; [|destruct H].
      destruct H as [<-|[]]. eapply dict_get_values; eauto.
  - rewrite map_naics_to_sins_first.
    pose proof (first_occurrences_length (mapped a)).
    pose proof (mapped_length a). lia.
  - rewrite map_naics_to_sins_first. split.
    + intros E code Hc.
      destruct (dict_get NAICS_SIN_MAPPING code) as [sin|] eqn:G; auto.
      exfalso.
      assert (Hin : In sin (first_occurrences (mapped a))).
      { apply first_occurrences_In. unfold mapped. apply in_flat_map.
        exists code. split; auto. rewrite G. left. reflexivity. }
      rewrite E in Hin. destruct Hin.
    + intros H. replace (mapped a) with (@nil str); [reflexivity|].
      symmetry. unfold mapped. induction a as [|c a IH]; cbn [flat_map]; auto.
      rewrite (H c (or_introl eq_refl)). cbn [app]. apply IH.
      intros code Hc. apply H. right. exact Hc.
Qed.

(** ** The company name *)

Lemma dropwhile_nil_iff (p : ascii -> bool) (s : str) :
  dropwhile p s = [] <-> forallb p s = true.
Proof.
  induction s as [|c s IH]; simpl; [tauto|].
  destruct (p c); simpl; [exact IH|]. split; discriminate.
Qed.

Lemma strip_cons_black (c : ascii) (s : str) :
  isspace c = false -> strip (c :: s) = c :: rstrip s.
Proof.
  intros H. unfold strip, lstrip. simpl. rewrite H. apply rstrip_cons. exact H.
Qed.

Lemma strip_nil_iff (s : str) : strip s = [] <-> forallb isspace s = true.
Proof.
  split; [|apply strip_all_space].
  unfold strip, lstrip. intros H. apply dropwhile_nil_iff.
  pose proof (dropwhile_stops isspace s) as St.
  destruct (dropwhile isspace s) as [|c t]; [reflexivity|].
  simpl in St. rewrite rstrip_cons in H by exact St. discriminate.
Qed.

Lemma strip_starts_black (s : str) (c : ascii) (t : str) :
  strip s = c :: t -> isspace c = false.
Proof.
  unfold strip, lstrip. intros H.
  pose proof (dropwhile_stops isspace s) as St.
  destruct (dropwhile isspace s) as [|d u]; [discriminate|].
  simpl in St. rewrite rstrip_cons in H by exact St.
  injection H as <- _. exact St.
Qed.

Lemma split_first_line (sep c : ascii) (s : str) :
  Ascii.eqb c sep = false ->
  exists l0 ls, split sep (c :: s) = (c :: l0) :: ls.
Proof.
  intros H. simpl. rewrite H.
  pose proof (split_not_nil sep s) as N.
  destruct (split sep s) as [|seg segs]; [contradiction|]. eauto.
Qed.

Lemma space_newline (c : ascii) : isspace c = false -> Ascii.eqb c nl = false.
Proof.
  intros H. destruct (Ascii.eqb_spec c nl) as [->|]; [discriminate | reflexivity].
Qed.

(** X6. The company name is always set.  It is trimmed and holds no line
    break, and it is empty exactly when the text is blank; so on a parsed
    profile [missing_company_name] is reported exactly for blank texts. *)
Theorem company_name_spec (text : str) (q : PastPerformance) :
  let p := parse_company_profile text in
  exists name,
    company_name p = Some name /\
    ~ In nl name /\ strip name = name /\
    (name = [] <-> forallb isspace text = true) /\
    (In "missing_company_name" (validate_fields p q) <->
     forallb isspace text = true).
Proof.
  intros p. subst p.
  destruct (issue_reported (parse_company_profile text) q) as (I1 & _).
  cbv zeta in I1. pose proof (company_name_field text) as CN.
  pose proof (split_not_nil nl (strip text)) as N.
  destruct (split nl (strip text)) as [|l0 ls] eqn:E; [contradiction|].
  exists (strip l0).
  assert (Hnl : ~ In nl (strip l0)).
  { intros H. apply strip_incl in H.
    assert (Hin : In l0 (split nl (strip text))) by (rewrite E; left; reflexivity).
    destruct (split_chars _ _ _ _ Hin H) as [_ F].
    rewrite Ascii.eqb_refl in F. discriminate. }
  assert (Hnil : strip l0 = [] <-> forallb isspace text = true).
  { rewrite <- strip_nil_iff. split.
    - intros H. destruct (strip text) as [|c t] eqn:T; [reflexivity|].
      exfalso. pose proof (strip_starts_black _ T) as Hc.
      destruct (split_first_line nl c t (space_newline c Hc)) as (l0' & ls' & S).
      rewrite S in E. injection E as <- _.
      rewrite strip_cons_black in H by exact Hc. discriminate.
    - intros H. rewrite H in E. simpl in E. injection E as <- _. reflexivity. }
  split; [exact CN|]. split; [exact Hnl|]. split; [apply strip_idem|].
  split; [exact Hnil|].
  rewrite I1, CN. split; intros H.
  - apply Hnil. simpl in H. destruct (strip l0); [reflexivity | discriminate].
  - apply Hnil in H. rewrite H. reflexivity.
Qed.

(** ** The identifiers *)

Lemma first_labelled_some (label : str) (p : ascii -> bool) (text g : str) :
  first_labelled label p text (Some g) -> g <> [] /\ forallb p g = true.
Proof.
  intros (pre & (lab & ws & rest & _ & _ & _ & N & P & _) & _). auto.
Qed.

Lemma truthy_false_iff (o : option str) :
  truthy o = false <-> o = None \/ o = Some [].
Proof.
  destruct o as [[|c s]|]; simpl; split; auto; intros H;
    try discriminate; destruct H; discriminate.
Qed.

(** X7. On texts of code points 0..255, the characters modelled here, an
    extracted UEI is a non-empty string of unaccented letters and digits
    and an extracted DUNS a non-empty string of the digits 0 to 9; neither
    is ever set to an empty string.  So, on such texts, [missing_uei]
    ([missing_duns]) is reported on a parsed profile exactly when nowhere
    in the text the label is followed, after white space, by such a
    character.  Beyond that range the classes of the two patterns accept
    further characters ([A-Z0-9] read without regard to case: U+0130,
    U+0131, U+017F and U+212A; \d: the other decimal digits), on which
    this statement is silent. *)
Theorem identifiers_spec (text : str) (q : PastPerformance) :
  let p := parse_company_profile text in
  (forall v, uei p = Some v ->
             v <> [] /\ forallb is_letter_or_digit v = true) /\
  (forall v, duns p = Some v -> v <> [] /\ forallb isdigit v = true) /\
  (In "missing_uei" (validate_fields p q) <->
   forall pre, ~ labelled_here "UEI:" is_letter_or_digit text pre) /\
  (In "missing_duns" (validate_fields p q) <->
   forall pre, ~ labelled_here "DUNS:" isdigit text pre).
Proof.
  intros p.
  destruct (issue_reported p q) as (_ & I2 & I3 & _). cbv zeta in I2, I3.
  assert (U : labelled_field "UEI:" is_letter_or_digit (fun g => g) text (uei p)).
  { subst p. rewrite uei_field.
    apply (@search_labelled_field _ "UEI:" cs_uei _ (fun g => g) text uei_class). }
  assert (D : labelled_field "DUNS:" isdigit (fun g => g) text (duns p)).
  { subst p. rewrite duns_field.
    apply (@search_labelled_field _ "DUNS:" cs_duns _ (fun g => g) text duns_class). }
  destruct U as (ou & FU & EU). destruct D as (od & FD & ED).
  rewrite I2, I3, EU, ED.
  split; [|split; [|split]].
  - intros v E. destruct ou as [g|]; [|discriminate]. injection E as <-.
    eapply first_labelled_some; eauto.
  - intros v E. destruct od as [g|]; [|discriminate]. injection E as <-.
    eapply first_labelled_some; eauto.
  - destruct ou as [g|]; simpl.
    + destruct (first_labelled_some FU) as [N _].
      destruct g; [contradiction|]. simpl. split; [discriminate|].
      intros H. exfalso. destruct FU as (pre & Hat & _).
      apply (H pre). eapply labelled_at_here; eauto.
    + split; auto.
  - destruct od as [g|]; simpl.
    + destruct (first_labelled_some FD) as [N _].
      destruct g; [contradiction|]. simpl. split; [discriminate|].
      intros H. exfalso. destruct FD as (pre & Hat & _).
      apply (H pre). eapply labelled_at_here; eauto.
    + split; auto.
Qed.

(** ** Extracted text is trimmed *)

Lemma labelled_strip_trimmed (label : str) (p : ascii -> bool) (text : str)
    (field : option str) (v : str) :
  labelled_field label p strip text field -> field = Some v -> strip v = v.
Proof.
  intros (og & _ & ->) E. destruct og as [g|]; [|discriminate].
  injection E as <-. apply strip_idem.
Qed.

Lemma poc_fields_first (text : str) :
  first_poc text (poc_name (parse_company_profile text))
            (poc_email (parse_company_profile text))
            (poc_phone (parse_company_profile text)).
Proof.
  pose proof (search_poc text) as H. pose proof (poc_fields text) as F.
  destruct (re_search IGNORECASE POC_RE text);
    injection F as -> -> ->; exact H.
Qed.

Lemma strip_keeps (p : ascii -> bool) (s : str) :
  forallb p s = true -> forallb p (strip s) = true.
Proof.
  intros H. apply forallb_forall. intros c Hc.
  apply strip_incl in Hc. rewrite forallb_forall in H. auto.
Qed.

(** X8. Every free-text field the two parsers set is trimmed.  An
    extracted POC name or e-mail holds no comma and an extracted phone no
    line break; and when the POC pattern matches nowhere, all three POC
    issues are reported. *)
Theorem extracted_text_trimmed (profile_text performance_text : str) :
  let p := parse_company_profile profile_text in
  let q := parse_past_performance performance_text in
  (forall v, In (Some v) [company_name p; poc_name p; poc_email p; poc_phone p;
                          address p; customer q; contract q; value q;
                          period q; contact q] -> strip v = v) /\
  (forall v, poc_name p = Some v \/ poc_email p = Some v -> ~ In comma v) /\
  (forall v, poc_phone p = Some v -> ~ In nl v) /\
  (poc_name p = None ->
   In "missing_poc_name" (validate_fields p q) /\
   In "missing_poc_email" (validate_fields p q) /\
   In "missing_poc_phone" (validate_fields p q)).
Proof.
  intros p q.
  pose proof (poc_fields_first profile_text) as FP. fold p in FP.
  assert (A : labelled_field "Address:" not_newline strip profile_text (address p)).
  { subst p. rewrite address_field.
    apply (@search_labelled_field _ "Address:" Any _ strip profile_text any_class). }
  destruct (performance_fields performance_text) as (E1 & E2 & E3 & E4 & E5).
  fold q in E1, E2, E3, E4, E5.
  split; [|split; [|split]].
  - intros v Hin. simpl in Hin.
    destruct Hin as [H|[H|[H|[H|[H|[H|[H|[H|[H|[H|[]]]]]]]]]]].
    + subst p. rewrite company_name_field in H.
      destruct (split nl (strip profile_text)); [discriminate|].
      injection H as <-. apply strip_idem.
    + destruct (poc_name p), (poc_email p), (poc_phone p); simpl in FP;
        try contradiction; try discriminate.
      destruct FP as (pre & a & b & c & _ & -> & _). injection H as <-.
      apply strip_idem.
    + destruct (poc_name p), (poc_email p), (poc_phone p); simpl in FP;
        try contradiction; try discriminate.
      destruct FP as (pre & a & b & c & _ & _ & -> & _). injection H as <-.
      apply strip_idem.
    + destruct (poc_name p), (poc_email p), (poc_phone p); simpl in FP;
        try contradiction; try discriminate.
      destruct FP as (pre & a & b & c & _ & _ & _ & -> & _). injection H as <-.
      apply strip_idem.
    + exact (labelled_strip_trimmed A H).
    + rewrite E1 in H.
      destruct (re_search IGNORECASE CUSTOMER_RE performance_text);
        [|discriminate]. injection H as <-. apply strip_idem.
    + rewrite E2 in H.
      destruct (re_search IGNORECASE CONTRACT_RE performance_text);
        [|discriminate]. injection H as <-. apply strip_idem.
    + rewrite E3 in H.
      destruct (re_search IGNORECASE VALUE_RE performance_text);
        [|discriminate]. injection H as <-. apply strip_idem.
    + rewrite E4 in H.
      destruct (re_search IGNORECASE PERIOD_RE performance_text);
        [|discriminate]. injection H as <-. apply strip_idem.
    + rewrite E5 in H.
      destruct (re_search IGNORECASE CONTACT_RE performance_text);
        [|discriminate]. injection H as <-. apply strip_idem.
  - intros v H Hin.
    destruct (poc_name p) as [n|], (poc_email p) as [e|], (poc_phone p) as [ph|];
      simpl in FP; try contradiction;
      try (destruct H; discriminate).
    destruct FP as (pre & a & b & c & Hat & -> & -> & _).
    destruct Hat as (lab & ws & rest & _ & _ & _ & Pa & _ & Pb & _).
    assert (Hv : forallb not_comma v = true)
      by (destruct H as [H|H]; injection H as <-; apply strip_keeps; auto).
    rewrite forallb_forall in Hv. apply Hv in Hin.
    unfold not_comma in Hin. rewrite Ascii.eqb_refl in Hin. discriminate.
  - intros v H Hin.
    destruct (poc_name p) as [n|], (poc_email p) as [e|], (poc_phone p) as [ph|];
      simpl in FP; try contradiction; try discriminate.
    destruct FP as (pre & a & b & c & Hat & _ & _ & -> & _).
    destruct Hat as (lab & ws & rest & _ & _ & _ & _ & _ & _ & _ & _ & Pc & _).
    injection H as <-. apply strip_keeps in Pc.
    rewrite forallb_forall in Pc. apply Pc in Hin.
    unfold not_newline in Hin. rewrite Ascii.eqb_refl in Hin. discriminate.
  - intros N.
    destruct (issue_reported p q) as (_ & _ & _ & _ & I5 & I6 & _ & I8 & _).
    cbv zeta in I5, I6, I8. rewrite I5, I6, I8.
    destruct (poc_name p) as [n|], (poc_email p) as [e|], (poc_phone p) as [ph|];
      simpl in FP; try contradiction; try discriminate.
    simpl. auto.
Qed.

(** ** The value at the first occurrence of a label *)

Lemma app_longer_prefix (A : Type) (a a' b b' : list A) (c : A) :
  a ++ c :: b = a' ++ b' -> length a < length a' -> In c a'.
Proof.
  revert a'. induction a as [|x a IH]; intros [|y a']; simpl; try lia.
  - intros H _. injection H as -> _. auto.
  - intros H L. injection H as _ H. right. apply (IH a' H). lia.
Qed.

Lemma starts_black_nonempty (v : str) : starts_black v -> v <> [].
Proof. destruct v; simpl; [contradiction | discriminate]. Qed.

Lemma labelled_at_first_occurrence (label : str) (p : ascii -> bool)
    (text pre lab ws v rest : str) :
  text = pre ++ lab ++ ws ++ v ++ rest ->
  lit_ok true label lab = true ->
  first_occurrence label text pre ->
  forallb isspace ws = true ->
  starts_black v -> forallb p v = true -> stops p rest ->
  first_labelled label p text (Some v).
Proof.
  intros E L F W B P S. exists pre. split.
  - exists lab, ws, rest. repeat split; auto.
    + apply starts_black_nonempty. exact B.
    + intros ws' c rest' E' W' _.
      destruct (le_lt_dec (length ws') (length ws)) as [Hle|Hlt]; auto.
      exfalso. destruct v as [|d v]; [contradiction|]. simpl in B.
      simpl in E'. apply app_longer_prefix in E'; [|exact Hlt].
      rewrite forallb_forall in W'. apply W' in E'.
      rewrite B in E'. discriminate.
  - intros pre' (lab' & ws' & c & rest' & E' & L' & _).
    apply (F pre' lab' (ws' ++ c :: rest') E' L').
Qed.

Lemma labelled_field_first_occurrence (A : Type) (label : str)
    (p : ascii -> bool) (post : str -> A) (text : str) (field : option A)
    (pre lab ws v rest : str) :
  labelled_field label p post text field ->
  text = pre ++ lab ++ ws ++ v ++ rest ->
  lit_ok true label lab = true ->
  first_occurrence label text pre ->
  forallb isspace ws = true ->
  starts_black v -> forallb p v = true -> stops p rest ->
  field = Some (post v).
Proof.
  intros (og & Fo & ->) E L F W B P S.
  pose proof (@labelled_at_first_occurrence label p text pre lab ws v rest
                E L F W B P S) as Fv.
  rewrite (@first_labelled_unique _ _ _ _ _ Fo Fv). reflexivity.
Qed.

(** Where the search for the label alone finds it is its first
    occurrence. *)
Lemma first_occurrence_search (label text pre : str) (m : Match) :
  re_search IGNORECASE (Str label) text = Some m ->
  m_start m = length pre ->
  first_occurrence label text pre.
Proof.
  unfold re_search. intros S M pre' lab' rest' E L.
  apply search_from_Some in S.
  destruct S as (pre0 & s1 & x & xs & E0 & St & _ & _ & Left).
  simpl in St. rewrite M in St.
  destruct (le_lt_dec (length pre) (length pre')) as [Hle|Hlt]; auto.
  exfalso. rewrite St in Hlt. apply (Left _ _ E) in Hlt.
  revert Hlt. apply run_complete with (caps := []).
  simpl. auto.
Qed.

Lemma line_field_labelled (f : line_field) (text : str) :
  labelled_field (line_label f) not_newline strip text (line_field_of f text).
Proof.
  destruct (performance_fields text) as (E1 & E2 & E3 & E4 & E5).
  destruct f; simpl;
    [ rewrite address_field | rewrite E1 | rewrite E2 | rewrite E3
    | rewrite E4 | rewrite E5 ];
    apply (@search_labelled_field _ _ Any _ strip text any_class).
Qed.

(** X9. When the first occurrence of the label of a line field (address,
    customer, contract, value, period, contact), in any case and anywhere
    in the text, is followed by optional white space and then by a text
    that neither starts with white space nor holds a line break and that
    runs to the end of its line, the field is that text, trimmed. *)
Theorem line_field_at_first_label (f : line_field)
    (text pre lab ws v rest : str) :
  text = pre ++ lab ++ ws ++ v ++ rest ->
  lit_ok true (line_label f) lab = true ->
  first_occurrence (line_label f) text pre ->
  forallb isspace ws = true ->
  starts_black v -> forallb not_newline v = true -> stops not_newline rest ->
  line_field_of f text = Some (strip v).
Proof.
  intros E L F W B P S.
  exact (@labelled_field_first_occurrence _ _ _ _ _ _ pre lab ws v rest
           (line_field_labelled f text) E L F W B P S).
Qed.

(** The address of Scenario A. *)
Lemma line_field_at_first_label_witness :
  first_occurrence "Address:" scenario_A_profile
    (firstn 99 scenario_A_profile) /\
  address (parse_company_profile scenario_A_profile) = Some (str_of "1 Main St").
Proof.
  assert (F : first_occurrence "Address:" scenario_A_profile
                (firstn 99 scenario_A_profile)).
  { apply (@first_occurrence_search _ _ _
             (mkMatch 99 [str_of "Address:"])); reflexivity. }
  split; [exact F|].
  apply (@line_field_at_first_label FAddress scenario_A_profile
           (firstn 99 scenario_A_profile) (str_of "Address:") (str_of " ")
           (str_of "1 Main St") (skipn 117 scenario_A_profile));
    try reflexivity; try exact F.
Defined.

Lemma letter_or_digit_black (c : ascii) :
  is_letter_or_digit c = true -> isspace c = false.
Proof. destruct c as [[] [] [] [] [] [] [] []]; vm_compute; auto. Qed.

Lemma digit_letter_or_digit (c : ascii) :
  isdigit c = true -> is_letter_or_digit c = true.
Proof. unfold is_letter_or_digit. intros ->. apply orb_true_r. Qed.

Lemma word_black (c : ascii) : isword c = true -> isspace c = false.
Proof. destruct c as [[] [] [] [] [] [] [] []]; vm_compute; auto. Qed.

Lemma class_starts_black (p : ascii -> bool) (v : str) :
  (forall c, p c = true -> isspace c = false) ->
  v <> [] -> forallb p v = true -> starts_black v.
Proof.
  intros H N P. destruct v as [|c v]; [contradiction|].
  simpl in P. apply andb_prop in P. simpl. apply H. tauto.
Qed.

Lemma id_field_labelled (f : id_field) (text : str) :
  labelled_field (id_label f) (id_char f) (fun g => g) text (id_field_of f text).
Proof.
  destruct f; simpl.
  - rewrite uei_field.
    apply (@search_labelled_field _ "UEI:" cs_uei _ (fun g => g) text uei_class).
  - rewrite duns_field.
    apply (@search_labelled_field _ "DUNS:" cs_duns _ (fun g => g) text duns_class).
Qed.

(** X10. On texts of code points 0..255, the characters modelled here:
    when the first occurrence of the label [UEI:] ([DUNS:]), in any case,
    is followed by optional white space and a non-empty run of unaccented
    letters and digits (of the digits 0 to 9) that stops there, the
    identifier is exactly that run.  Beyond that range the classes of the
    two patterns accept further characters ([A-Z0-9] read without regard
    to case: U+0130, U+0131, U+017F and U+212A; \d: the other decimal
    digits), so that a run may go on where this statement lets it stop;
    on such texts the statement is silent. *)
Theorem identifier_at_first_label (f : id_field)
    (text pre lab ws v rest : str) :
  text = pre ++ lab ++ ws ++ v ++ rest ->
  lit_ok true (id_label f) lab = true ->
  first_occurrence (id_label f) text pre ->
  forallb isspace ws = true ->
  v <> [] -> forallb (id_char f) v = true -> stops (id_char f) rest ->
  id_field_of f text = Some v.
Proof.
  intros E L F W N P S.
  assert (B : starts_black v).
  { apply class_starts_black with (p := id_char f); auto.
    destruct f; simpl; intros c Hc.
    - apply letter_or_digit_black; exact Hc.
    - apply letter_or_digit_black, digit_letter_or_digit; exact Hc. }
  exact (@labelled_field_first_occurrence _ _ _ _ _ _ pre lab ws v rest
           (id_field_labelled f text) E L F W B P S).
Qed.

(** A DUNS line with the label in small letters and a remark after the
    number. *)
Lemma identifier_at_first_label_witness :
  let text := join_lines ["Acme Corp"; "duns:  123456789 (active)"] in
  first_occurrence "DUNS:" text (firstn 10 text) /\
  duns (parse_company_profile text) = Some (str_of "123456789").
Proof.
  cbv zeta.
  assert (F : first_occurrence "DUNS:"
                (join_lines ["Acme Corp"; "duns:  123456789 (active)"])
                (firstn 10 (join_lines ["Acme Corp"; "duns:  123456789 (active)"]))).
  { apply (@first_occurrence_search _ _ _ (mkMatch 10 [str_of "duns:"]));
      reflexivity. }
  split; [exact F|].
  apply (@identifier_at_first_label FDuns
           (join_lines ["Acme Corp"; "duns:  123456789 (active)"])
           (firstn 10 (join_lines ["Acme Corp"; "duns:  123456789 (active)"]))
           (str_of "duns:") (str_of "  ") (str_of "123456789")
           (str_of " (active)"));
    try reflexivity; try exact F; discriminate.
Defined.

(** X11. When the first occurrence of the label [SAM.gov:], in any case, is
    followed by optional white space and a word that stops there, the
    status is the boolean telling whether the word in small letters is
    "registered"; no [missing_sam_status] is then reported, and the
    checklist's SAM check holds exactly for such a word. *)
Theorem sam_at_first_label (text pre lab ws w rest : str)
    (q : PastPerformance) (found : list string) :
  text = pre ++ lab ++ ws ++ w ++ rest ->
  lit_ok true "SAM.gov:" lab = true ->
  first_occurrence "SAM.gov:" text pre ->
  forallb isspace ws = true ->
  w <> [] -> forallb isword w = true -> stops isword rest ->
  let p := parse_company_profile text in
  sam_registered p = Some (str_eqb (str_lower w) "registered") /\
  ~ In "missing_sam_status" (validate_fields p q) /\
  (ok (has_sam_registration (generate_checklist p q found)) = true <->
   str_lower w = str_of "registered").
Proof.
  intros E L F W N P S p.
  assert (B : starts_black w)
    by (apply class_starts_black with (p := isword); auto; apply word_black).
  assert (Lf : labelled_field "SAM.gov:" isword
                 (fun w => str_eqb (str_lower w) "registered") text
                 (sam_registered p)).
  { subst p. rewrite sam_registered_field.
    apply (@search_labelled_field _ "SAM.gov:" cs_sam _
             (fun w => str_eqb (str_lower w) "registered") text sam_class). }
  pose proof (@labelled_field_first_occurrence _ _ _ _ _ _ pre lab ws w rest
                Lf E L F W B P S) as R.
  split; [exact R|]. split.
  - destruct (issue_reported p q) as (_ & _ & _ & _ & _ & _ & _ & _ & _ & I10 & _).
    cbv zeta in I10. rewrite I10, R. discriminate.
  - simpl. rewrite R. rewrite <- (str_eqb_eq (str_lower w) (str_of "registered")).
    destruct (str_eqb (str_lower w) (str_of "registered")); simpl;
      split; auto; discriminate.
Qed.

(** The status line of Scenario A in capitals. *)
Lemma sam_at_first_label_witness :
  let text := join_lines ["Acme Corp"; "SAM.GOV: REGISTERED"] in
  first_occurrence "SAM.gov:" text (firstn 10 text) /\
  sam_registered (parse_company_profile text) = Some true.
Proof.
  cbv zeta.
  assert (F : first_occurrence "SAM.gov:"
                (join_lines ["Acme Corp"; "SAM.GOV: REGISTERED"])
                (firstn 10 (join_lines ["Acme Corp"; "SAM.GOV: REGISTERED"]))).
  { apply (@first_occurrence_search _ _ _ (mkMatch 10 [str_of "SAM.GOV:"]));
      reflexivity. }
  split; [exact F|].
  apply (proj1 (@sam_at_first_label
           (join_lines ["Acme Corp"; "SAM.GOV: REGISTERED"])
           (firstn 10 (join_lines ["Acme Corp"; "SAM.GOV: REGISTERED"]))
           (str_of "SAM.GOV:") (str_of " ") (str_of "REGISTERED") []
           PastPerformance_new [] eq_refl eq_refl F eq_refl
           ltac:(discriminate) eq_refl I)).
Defined.

(** ** A NAICS line read back *)

Lemma dropwhile_black (p : ascii -> bool) (s : str) :
  forallb (fun c => negb (p c)) s = true -> dropwhile p s = s.
Proof.
  destruct s as [|c s]; simpl; auto.
  intros H. apply andb_prop in H. destruct H as [H _].
  apply negb_true_iff in H. rewrite H. reflexivity.
Qed.

Lemma forallb_rev (p : ascii -> bool) (s : str) :
  forallb p (rev s) = forallb p s.
Proof.
  induction s as [|c s IH]; simpl; auto.
  rewrite forallb_app, IH. simpl. rewrite andb_true_r. apply andb_comm.
Qed.

(** A string without white space survives stripping, whatever white
    space surrounds it. *)
Lemma strip_black (ws1 x ws2 : str) :
  forallb isspace ws1 = true -> forallb isspace ws2 = true ->
  forallb (fun c => negb (isspace c)) x = true ->
  strip (ws1 ++ x ++ ws2) = x.
Proof.
  intros W1 W2 B. rewrite strip_app_space by exact W1.
  unfold strip, lstrip, rstrip.
  destruct x as [|c x].
  - simpl. rewrite (proj2 (dropwhile_nil_iff isspace ws2) W2). reflexivity.
  - assert (Hc : isspace c = false).
    { simpl in B. apply andb_prop in B. destruct B as [B _].
      apply negb_true_iff. exact B. }
    cbn [app dropwhile]. rewrite Hc.
    change (c :: x ++ ws2) with ((c :: x) ++ ws2).
    rewrite rev_app_distr, dropwhile_all by (rewrite forallb_rev; exact W2).
    rewrite dropwhile_black by (rewrite forallb_rev; exact B).
    apply rev_involutive.
Qed.

Lemma split_no_sep (sep : ascii) (s : str) :
  forallb (fun c => negb (Ascii.eqb c sep)) s = true -> split sep s = [s].
Proof.
  induction s as [|c s IH]; simpl; auto.
  intros H. apply andb_prop in H. destruct H as [Hc H].
  apply negb_true_iff in Hc. rewrite Hc, (IH H). reflexivity.
Qed.

Lemma split_app_sep_eq (sep : ascii) (a b : str) :
  forallb (fun c => negb (Ascii.eqb c sep)) a = true ->
  split sep (a ++ sep :: b) = a :: split sep b.
Proof.
  induction a as [|c a IH]; simpl.
  - intros _. rewrite Ascii.eqb_refl. reflexivity.
  - intros H. apply andb_prop in H. destruct H as [Hc H].
    apply negb_true_iff in Hc. rewrite Hc, (IH H). reflexivity.
Qed.

Lemma digit_black (c : ascii) : isdigit c = true -> isspace c = false.
Proof. intros H. apply letter_or_digit_black, digit_letter_or_digit, H. Qed.

Lemma digit_not_comma (c : ascii) : isdigit c = true -> not_comma c = true.
Proof. destruct c as [[] [] [] [] [] [] [] []]; vm_compute; auto. Qed.

Lemma forallb_impl (p1 p2 : ascii -> bool) (s : str) :
  (forall c, p1 c = true -> p2 c = true) ->
  forallb p1 s = true -> forallb p2 s = true.
Proof.
  intros H. induction s as [|c s IH]; simpl; auto.
  intros E. apply andb_prop in E. destruct E as [E1 E2].
  rewrite (H c E1), (IH E2). reflexivity.
Qed.

Lemma join_cons (sep x y : str) (l : list str) :
  join sep (x :: y :: l) = x ++ sep ++ join sep (y :: l).
Proof. reflexivity. Qed.

Lemma segments_join (ws1 ws2 : str) (codes : list str) :
  codes <> [] -> Forall is_code codes ->
  forallb isspace ws1 = true -> forallb isspace ws2 = true ->
  segments (ws1 ++ join (str_of ", ") codes ++ ws2) = codes.
Proof.
  intros N Hc. revert ws1. induction codes as [|x codes IH]; [contradiction|].
  intros ws1 W1 W2. inversion Hc as [|? ? [Nx Dx] Hc']; subst.
  assert (Bx : forallb (fun c => negb (isspace c)) x = true).
  { apply (forallb_impl isdigit); auto.
    intros c H. apply negb_true_iff, digit_black, H. }
  assert (Cx : forallb not_comma x = true)
    by (apply (forallb_impl isdigit); auto; apply digit_not_comma).
  destruct codes as [|y codes].
  - cbn [join]. unfold segments. rewrite split_no_sep.
    + cbn [map filter]. rewrite strip_black by auto.
      destruct x; [contradiction | reflexivity].
    + rewrite !forallb_app. fold not_comma.
      rewrite Cx, !spaces_not_comma by auto. reflexivity.
  - rewrite join_cons.
    replace (ws1 ++ (x ++ str_of ", " ++ join (str_of ", ") (y :: codes)) ++ ws2)
      with ((ws1 ++ x) ++ comma :: (str_of " " ++ join (str_of ", ") (y :: codes) ++ ws2)).
    2:{ rewrite <- !app_assoc. reflexivity. }
    unfold segments. rewrite split_app_sep_eq.
    + cbn [map filter].
      replace (strip (ws1 ++ x)) with x.
      2:{ symmetry. rewrite <- (app_nil_r x) at 1.
          apply strip_black; auto. }
      destruct x as [|c x]; [contradiction|]. cbn [nonempty]. f_equal.
      apply (IH ltac:(discriminate) Hc' (str_of " ")); auto.
    + rewrite forallb_app. fold not_comma.
      rewrite Cx, spaces_not_comma by auto. reflexivity.
Qed.

Lemma join_naics_chars (codes : list str) :
  Forall is_code codes ->
  forallb is_naics_char (join (str_of ", ") codes) = true.
Proof.
  assert (D : forall x, forallb isdigit x = true ->
                        forallb is_naics_char x = true).
  { intros x. apply forallb_impl. intros c H. unfold is_naics_char.
    rewrite H. reflexivity. }
  induction codes as [|x codes IH]; [reflexivity|].
  intros H. inversion H as [|? ? [_ Dx] H']; subst.
  destruct codes as [|y codes]; [apply D; exact Dx|].
  rewrite join_cons, !forallb_app, (D x Dx), (IH H'). reflexivity.
Qed.

Lemma join_starts_black (codes : list str) (ws2 : str) :
  codes <> [] -> Forall is_code codes ->
  starts_black (join (str_of ", ") codes ++ ws2).
Proof.
  intros N H. destruct codes as [|x codes]; [contradiction|].
  inversion H as [|? ? [Nx Dx] _]; subst.
  destruct x as [|c x]; [contradiction|].
  simpl in Dx. apply andb_prop in Dx. destruct Dx as [Dc _].
  destruct codes; simpl; apply digit_black; exact Dc.
Qed.

Lemma naics_codes_read_back (text pre lab ws ws2 rest : str)
    (codes : list str) :
  text = pre ++ lab ++ ws ++ join (str_of ", ") codes ++ ws2 ++ rest ->
  lit_ok true "NAICS:" lab = true ->
  first_occurrence "NAICS:" text pre ->
  forallb isspace ws = true ->
  codes <> [] -> Forall is_code codes ->
  forallb isspace ws2 = true -> stops is_naics_char rest ->
  naics (parse_company_profile text) = codes.
Proof.
  intros E L F W N C W2 S.
  destruct (naics_first_match text) as (run & Fr & En).
  assert (Fv : first_labelled "NAICS:" is_naics_char text
                 (Some (join (str_of ", ") codes ++ ws2))).
  { apply (@labelled_at_first_occurrence "NAICS:" is_naics_char text pre lab ws
             (join (str_of ", ") codes ++ ws2) rest); auto.
    - rewrite E, <- !app_assoc. reflexivity.
    - apply join_starts_black; auto.
    - rewrite forallb_app, join_naics_chars by exact C.
      apply (forallb_impl isspace); auto.
      intros c H. unfold is_naics_char. rewrite H. apply orb_true_r. }
  rewrite (@first_labelled_unique _ _ _ _ _ Fr Fv) in En. rewrite En.
  apply (@segments_join [] ws2 codes); auto.
Qed.

(** X12. A NAICS line read back.  When the first occurrence of the label
    [NAICS:], in any case, is followed by optional white space, by
    non-empty strings of digits joined with a comma and a space, and then
    by white space up to a character that is no digit, comma or white
    space (or up to the end), the extracted codes are exactly those
    strings; the pipeline then recommends what the mapper gives for them
    and reports no [missing_naics]. *)
Theorem naics_line_read_back (text pre lab ws ws2 rest : str)
    (codes : list str) (performance_text : str) :
  text = pre ++ lab ++ ws ++ join (str_of ", ") codes ++ ws2 ++ rest ->
  lit_ok true "NAICS:" lab = true ->
  first_occurrence "NAICS:" text pre ->
  forallb isspace ws = true ->
  codes <> [] -> Forall is_code codes ->
  forallb isspace ws2 = true -> stops is_naics_char rest ->
  naics (parse_company_profile text) = codes /\
  recommended_sins (ingest_documents text performance_text) =
    map_naics_to_sins codes /\
  ~ In "missing_naics" (issues (ingest_documents text performance_text)).
Proof.
  intros E L F W N C W2 S.
  assert (R : naics (parse_company_profile text) = codes)
    by exact (@naics_codes_read_back text pre lab ws ws2 rest codes
                E L F W N C W2 S).
  split; [exact R|]. split.
  - simpl. rewrite R. reflexivity.
  - simpl.
    destruct (issue_reported (parse_company_profile text)
                (parse_past_performance performance_text))
      as (_ & _ & _ & I4 & _).
    cbv zeta in I4. rewrite I4, R. exact N.
Qed.

(** The NAICS line of Scenario A, followed by its POC line. *)
Lemma naics_line_read_back_witness :
  let text := join_lines ["NAICS: 541511, 541512"; "POC: Jane"] in
  first_occurrence "NAICS:" text [] /\
  naics (parse_company_profile text) = [str_of "541511"; str_of "541512"] /\
  recommended_sins (ingest_documents text []) = map_naics_to_sins
    [str_of "541511"; str_of "541512"].
Proof.
  cbv zeta.
  assert (F : first_occurrence "NAICS:"
                (join_lines ["NAICS: 541511, 541512"; "POC: Jane"]) []).
  { apply (@first_occurrence_search _ _ _ (mkMatch 0 [str_of "NAICS:"]));
      reflexivity. }
  split; [exact F|].
  assert (C : Forall is_code [str_of "541511"; str_of "541512"]).
  { repeat constructor; discriminate. }
  destruct (@naics_line_read_back
              (join_lines ["NAICS: 541511, 541512"; "POC: Jane"])
              [] (str_of "NAICS:") (str_of " ") [nl] (str_of "POC: Jane")
              [str_of "541511"; str_of "541512"] []
              eq_refl eq_refl F eq_refl ltac:(discriminate) C eq_refl eq_refl)
    as (H1 & H2 & _).
  split; [exact H1 | exact H2].
Defined.

(** ** A POC line read back *)

Lemma poc_fields_read_back (text pre lab seg1 seg2 ws3 phone rest : str) :
  text = pre ++ lab ++ seg1 ++ comma :: seg2 ++ comma :: ws3 ++ phone ++ rest ->
  lit_ok true "POC:" lab = true ->
  first_occurrence "POC:" text pre ->
  seg1 <> [] -> forallb not_comma seg1 = true ->
  seg2 <> [] -> forallb not_comma seg2 = true ->
  forallb isspace ws3 = true ->
  starts_black phone -> forallb not_newline phone = true ->
  stops not_newline rest ->
  poc_name (parse_company_profile text) = Some (strip seg1) /\
  poc_email (parse_company_profile text) = Some (strip seg2) /\
  poc_phone (parse_company_profile text) = Some (strip phone).
Proof.
  intros E L F N1 P1 N2 P2 W3 B P3 S.
  assert (Fv : first_poc text (Some (strip seg1)) (Some (strip seg2))
                 (Some (strip phone))).
  { exists pre, seg1, seg2, phone. repeat split; auto.
    - exists lab, ws3, rest. repeat split; auto.
      + apply starts_black_nonempty. exact B.
      + intros ws' c rest' E' W' _.
        destruct (le_lt_dec (length ws') (length ws3)) as [Hle|Hlt]; auto.
        exfalso. destruct phone as [|d phone]; [contradiction|]. simpl in B.
        simpl in E'. apply app_longer_prefix in E'; [|exact Hlt].
        rewrite forallb_forall in W'. apply W' in E'.
        rewrite B in E'. discriminate.
    - intros pre' (lab' & a & b & ws' & c & rest' & E' & L' & _).
      apply (F pre' lab' (a ++ comma :: b ++ comma :: ws' ++ c :: rest') E' L'). }
  pose proof (poc_fields_first text) as Fp.
  destruct (@first_poc_unique _ _ _ _ _ _ _ Fp Fv) as (-> & -> & ->). auto.
Qed.

(** X13. A POC line read back.  When the first occurrence of the label
    [POC:], in any case, is followed by a non-empty segment without comma,
    a comma, a second such segment, a comma, optional white space and a
    text that neither starts with white space nor holds a line break and
    runs to the end of its line, the three POC fields are the two
    segments and that text, each trimmed. *)
Theorem poc_line_read_back (text pre lab seg1 seg2 ws3 phone rest : str) :
  text = pre ++ lab ++ seg1 ++ comma :: seg2 ++ comma :: ws3 ++ phone ++ rest ->
  lit_ok true "POC:" lab = true ->
  first_occurrence "POC:" text pre ->
  seg1 <> [] -> forallb not_comma seg1 = true ->
  seg2 <> [] -> forallb not_comma seg2 = true ->
  forallb isspace ws3 = true ->
  starts_black phone -> forallb not_newline phone = true ->
  stops not_newline rest ->
  let p := parse_company_profile text in
  poc_name p = Some (strip seg1) /\
  poc_email p = Some (strip seg2) /\
  poc_phone p = Some (strip phone).
Proof.
  intros E L F N1 P1 N2 P2 W3 B P3 S p.
  exact (@poc_fields_read_back text pre lab seg1 seg2 ws3 phone rest
           E L F N1 P1 N2 P2 W3 B P3 S).
Qed.

(** The POC line of Scenario A. *)
Lemma poc_line_read_back_witness :
  first_occurrence "POC:" scenario_A_profile (firstn 60 scenario_A_profile) /\
  poc_name (parse_company_profile scenario_A_profile) = Some (str_of "Jane Doe") /\
  poc_email (parse_company_profile scenario_A_profile) =
    Some (str_of "jane@acme.com") /\
  poc_phone (parse_company_profile scenario_A_profile) = Some (str_of "555-1234").
Proof.
  assert (F : first_occurrence "POC:" scenario_A_profile
                (firstn 60 scenario_A_profile)).
  { apply (@first_occurrence_search _ _ _ (mkMatch 60 [str_of "POC:"]));
      reflexivity. }
  split; [exact F|].
  apply (@poc_line_read_back scenario_A_profile (firstn 60 scenario_A_profile)
           (str_of "POC:") (str_of " Jane Doe") (str_of " jane@acme.com")
           (str_of " ") (str_of "555-1234") (skipn 98 scenario_A_profile)
           eq_refl eq_refl F ltac:(discriminate) eq_refl ltac:(discriminate)
           eq_refl eq_refl eq_refl eq_refl eq_refl).
Defined.

(** ** Where a label can occur in a document written label by label *)

Lemma colon_split (s : str) :
  forallb not_colon s = true \/
  exists p1 p2, s = p1 ++ colon :: p2 /\ forallb not_colon p1 = true.
Proof.
  induction s as [|c s IH]; simpl; auto.
  destruct (not_colon c) eqn:E; simpl.
  - destruct IH as [IH|(p1 & p2 & -> & H)]; auto.
    right. exists (c :: p1), p2. simpl. rewrite E, H. auto.
  - right. exists [], s. unfold not_colon in E.
    apply negb_false_iff, Ascii.eqb_eq in E. subst c. auto.
Qed.

Lemma suffix_after_sep (x b' h t : str) (c : ascii) :
  x ++ b' = h ++ c :: t -> ~ In c b' ->
  exists y, t = y ++ b' /\ x = h ++ c :: y.
Proof.
  intros E N. apply app_eq_app in E. destruct E as (l & [[-> E]|[-> E]]).
  - destruct l as [|d l]; simpl in E.
    + exfalso. apply N. rewrite <- E. left. reflexivity.
    + injection E as <- ->. exists l. auto.
  - exfalso. apply N. rewrite E. apply in_or_app. right. left. reflexivity.
Qed.

Lemma lines_after_app (a b : list (str * str)) :
  lines_after (a ++ b) = lines_after a ++ lines_after b.
Proof.
  induction a as [|[x v] a IH]; simpl; auto.
  rewrite IH, <- !app_assoc. simpl. rewrite <- !app_assoc. reflexivity.
Qed.

(** In a document whose head and values hold no colon, a colon-free text
    without line break that stands right before a colon is the end of
    one of the labels. *)
Lemma occurrence_in_lines (fields : list (str * str)) :
  forall hd pre' b' rest',
    forallb not_colon hd = true ->
    Forall (fun f => forallb not_colon (fst f) = true /\
                     forallb not_colon (snd f) = true) fields ->
    ~ In nl b' ->
    hd ++ lines_after fields = pre' ++ b' ++ colon :: rest' ->
    forallb not_colon b' = true ->
    exists fs1 b v fs2 y,
      fields = fs1 ++ (b, v) :: fs2 /\ b = y ++ b' /\
      pre' = hd ++ lines_after fs1 ++ nl :: y.
Proof.
  induction fields as [|[b1 v1] fs IH]; intros hd pre' b' rest' Hhd Hf Nnl E Cb.
  - exfalso. simpl in E. rewrite app_nil_r in E. rewrite E in Hhd.
    rewrite app_assoc, forallb_app in Hhd. cbn [forallb] in Hhd.
    replace (not_colon colon) with false in Hhd by reflexivity.
    rewrite andb_false_r in Hhd. discriminate.
  - inversion Hf as [|? ? [Hb1 Hv1] Hf']; subst. simpl in Hb1, Hv1.
    assert (C : not_colon colon = false) by reflexivity.
    assert (H1 : forallb not_colon (hd ++ nl :: b1) = true).
    { rewrite forallb_app. simpl. rewrite Hhd, Hb1. reflexivity. }
    cbn [lines_after] in E.
    replace (hd ++ nl :: b1 ++ colon :: v1 ++ lines_after fs)
      with ((hd ++ nl :: b1) ++ colon :: (v1 ++ lines_after fs)) in E
      by (rewrite <- app_assoc; reflexivity).
    destruct (colon_split pre') as [Cp|(p1 & p2 & -> & Cp)].
    + rewrite app_assoc in E.
      assert (H2 : forallb not_colon (pre' ++ b') = true)
        by (rewrite forallb_app, Cp, Cb; reflexivity).
      destruct (app_sep_unique not_colon colon _ _ _ _ H1 H2 C E) as [E1 _].
      symmetry in E1. apply suffix_after_sep in E1; [|exact Nnl].
      destruct E1 as (y & -> & ->).
      exists [], (y ++ b'), v1, fs, y. simpl. auto.
    + assert (E' : (hd ++ nl :: b1) ++ colon :: (v1 ++ lines_after fs) =
                   p1 ++ colon :: (p2 ++ b' ++ colon :: rest')).
      { rewrite E, <- app_assoc. reflexivity. }
      destruct (app_sep_unique not_colon colon _ _ _ _ H1 Cp C E') as [E1 E2].
      destruct (IH v1 p2 b' rest' Hv1 Hf' Nnl E2 Cb)
        as (fs1 & b & v & fs2 & y & -> & -> & ->).
      exists ((b1, v1) :: fs1), (y ++ b'), v, fs2, y.
      split; [reflexivity|]. split; [reflexivity|].
      rewrite <- E1. simpl. rewrite <- !app_assoc. simpl.
      rewrite <- !app_assoc. reflexivity.
Qed.

Lemma chr_match_refl (a : ascii) : chr_match true a a = true.
Proof. ascii_cases a. Qed.

Lemma lit_ok_refl (l : str) : lit_ok true l l = true.
Proof.
  induction l as [|a l IH]; simpl; auto. rewrite chr_match_refl, IH. reflexivity.
Qed.

Lemma chr_match_colon (a : ascii) : chr_match true a colon = Ascii.eqb a colon.
Proof. ascii_cases a. Qed.

Lemma chr_match_of_colon (c : ascii) : chr_match true colon c = Ascii.eqb c colon.
Proof. ascii_cases c. Qed.

Lemma chr_match_nl (a : ascii) : chr_match true a nl = Ascii.eqb a nl.
Proof. ascii_cases a. Qed.

Lemma lit_ok_app (ic : bool) (l1 l2 m : str) :
  lit_ok ic (l1 ++ l2) m = true ->
  exists m1 m2, m = m1 ++ m2 /\ lit_ok ic l1 m1 = true /\ lit_ok ic l2 m2 = true.
Proof.
  revert m. induction l1 as [|a l1 IH]; intros m H.
  - exists [], m. auto.
  - destruct m as [|c m]; simpl in H; [discriminate|].
    apply andb_prop in H. destruct H as [Hc H].
    destruct (IH m H) as (m1 & m2 & -> & H1 & H2).
    exists (c :: m1), m2. simpl. rewrite Hc, H1. auto.
Qed.

(** A character that only matches itself stays out of what a literal
    without it matches. *)
Lemma lit_ok_without (c : ascii) (l m : str) :
  (forall a, chr_match true a c = Ascii.eqb a c) ->
  lit_ok true l m = true ->
  forallb (fun a => negb (Ascii.eqb a c)) l = true ->
  forallb (fun a => negb (Ascii.eqb a c)) m = true.
Proof.
  intros Hc. revert m. induction l as [|a l IH]; intros [|d m]; simpl;
    try discriminate; auto.
  intros H F. apply andb_prop in H. destruct H as [Hd H].
  apply andb_prop in F. destruct F as [Fa F].
  rewrite (IH m H F), andb_true_r.
  destruct (Ascii.eqb d c) eqn:E; auto.
  apply Ascii.eqb_eq in E. subst d. rewrite Hc in Hd. rewrite Hd in Fa.
  discriminate.
Qed.

Lemma ends_like_suffix (b y b' : str) :
  lit_ok true b b' = true -> ends_like b (y ++ b') = true.
Proof.
  intros L. pose proof (lit_ok_length _ _ _ L) as Len. unfold ends_like.
  rewrite length_app, Len.
  replace (length y + length b - length b) with (length y) by lia.
  rewrite skipn_app, skipn_all, Nat.sub_diag. simpl. rewrite L, andb_true_r.
  apply Nat.leb_le. lia.
Qed.

(** In a document written label by label, whose head and values hold no
    colon, a label that is not the end of an earlier one first occurs at
    the start of its own line. *)
Lemma label_first_in_lines (hd : str) (fs1 : list (str * str)) (b v : str)
    (fs2 : list (str * str)) :
  forallb not_colon hd = true ->
  Forall (fun f => forallb not_colon (fst f) = true /\
                   forallb not_colon (snd f) = true) (fs1 ++ (b, v) :: fs2) ->
  forallb not_newline b = true ->
  Forall (fun f => ends_like b (fst f) = false) fs1 ->
  first_occurrence (b ++ [colon]) (hd ++ lines_after (fs1 ++ (b, v) :: fs2))
    (hd ++ lines_after fs1 ++ [nl]).
Proof.
  intros Hhd Hf Nb Early pre' lab' rest' E L.
  destruct (lit_ok_app _ _ _ _ L) as (b' & m2 & -> & Lb & Lc).
  destruct m2 as [|c [|? ?]]; simpl in Lc; try discriminate;
    [|rewrite andb_false_r in Lc; discriminate].
  rewrite andb_true_r, chr_match_of_colon in Lc. apply Ascii.eqb_eq in Lc. subst c.
  assert (Cb : forallb not_colon b = true).
  { rewrite Forall_app in Hf. destruct Hf as [_ Hf].
    inversion Hf as [|? ? [H _] _]. exact H. }
  assert (Cb' : forallb not_colon b' = true)
    by (apply (lit_ok_without colon b b' chr_match_colon Lb Cb)).
  assert (Nb' : ~ In nl b').
  { pose proof (lit_ok_without nl b b' chr_match_nl Lb Nb) as H.
    intros I. rewrite forallb_forall in H. apply H in I.
    rewrite Ascii.eqb_refl in I. discriminate. }
  rewrite <- app_assoc in E. simpl in E.
  destruct (@occurrence_in_lines _ _ _ _ _ Hhd Hf Nb' E Cb')
    as (fs1' & bk & vk & fs2' & y & Ef & -> & ->).
  apply app_eq_app in Ef. destruct Ef as (l & [[-> El]|[-> El]]).
  - destruct l as [|f l]; simpl in El.
    + rewrite app_nil_r, !length_app. simpl. lia.
    + exfalso. injection El as <- _.
      rewrite Forall_app in Early. destruct Early as [_ Early].
      inversion Early as [|? ? H _]. simpl in H.
      rewrite ends_like_suffix in H by exact Lb. discriminate.
  - rewrite lines_after_app, !length_app. simpl. lia.
Qed.

Lemma first_occurrence_tail (label text pre : str) (c : ascii) :
  first_occurrence label (c :: text) (c :: pre) ->
  first_occurrence label text pre.
Proof.
  intros F pre' lab' rest' E L.
  assert (H : length (c :: pre) <= length (c :: pre')).
  { apply (F (c :: pre') lab' rest'); [rewrite E; reflexivity | exact L]. }
  simpl in H. lia.
Qed.

(** ** Characters of the values *)

Lemma letter_or_digit_not_colon (c : ascii) :
  is_letter_or_digit c = true -> not_colon c = true.
Proof. destruct c as [[] [] [] [] [] [] [] []]; vm_compute; auto. Qed.

Lemma naics_char_not_colon (c : ascii) :
  is_naics_char c = true -> not_colon c = true.
Proof. destruct c as [[] [] [] [] [] [] [] []]; vm_compute; auto. Qed.

Lemma word_not_colon (c : ascii) : isword c = true -> not_colon c = true.
Proof. destruct c as [[] [] [] [] [] [] [] []]; vm_compute; auto. Qed.

Lemma email_local_plain (c : ascii) :
  email_local_char c = true ->
  not_colon c = true /\ not_comma c = true /\ isspace c = false.
Proof. destruct c as [[] [] [] [] [] [] [] []]; vm_compute; auto. Qed.

Lemma email_domain_local (c : ascii) :
  email_domain_char c = true -> email_local_char c = true.
Proof. destruct c as [[] [] [] [] [] [] [] []]; vm_compute; auto. Qed.

Lemma letter_local (c : ascii) : is_letter c = true -> email_local_char c = true.
Proof. destruct c as [[] [] [] [] [] [] [] []]; vm_compute; auto. Qed.

(** Every character of an e-mail of the format has a property that the
    characters of the local part and the at sign have. *)
Lemma email_format_chars (P : ascii -> bool) (e : str) :
  (forall c, email_local_char c = true -> P c = true) ->
  forallb P (str_of "@") = true ->
  email_format e -> forallb P e = true.
Proof.
  intros Hl Ha (local & domain & tld & -> & _ & Pl & _ & Pd & _ & Pt).
  rewrite !forallb_app, Ha.
  rewrite (forallb_impl email_local_char P local Hl Pl).
  rewrite (forallb_impl email_domain_char P domain
             (fun c H => Hl c (email_domain_local c H)) Pd).
  rewrite (forallb_impl is_letter P tld (fun c H => Hl c (letter_local c H)) Pt).
  assert (Hd : forallb P (str_of ".") = true)
    by (simpl; rewrite Hl by reflexivity; reflexivity).
  rewrite Hd. reflexivity.
Qed.

Lemma line_value_plain (v : str) :
  line_value_ok v -> forallb not_colon (str_of " " ++ v) = true.
Proof. intros (_ & _ & C). simpl. exact C. Qed.

Lemma join_not_colon (codes : list str) :
  Forall is_code codes -> forallb not_colon (join (str_of ", ") codes) = true.
Proof.
  intros C. apply (forallb_impl is_naics_char).
  - apply naics_char_not_colon.
  - apply join_naics_chars. exact C.
Qed.

Lemma profile_lines_plain (u d : str) (codes : list str) (n e ph a w : str) :
  forall name, profile_values_ok name u d codes n e ph a w ->
  Forall (fun f => forallb not_colon (fst f) = true /\
                   forallb not_colon (snd f) = true)
    (profile_lines u d codes n e ph a w).
Proof.
  intros name (_ & (_ & Pu) & (_ & Pd) & (_ & Pc) & ((_ & _ & Cn) & _) & Pe
               & (_ & _ & Cph) & (_ & _ & Ca) & (_ & Pw)).
  unfold profile_lines.
  repeat (apply Forall_cons; [split; [reflexivity|] |]); try apply Forall_nil;
    cbn [snd]; rewrite forallb_app; cbn [forallb str_of]; simpl.
  - apply (forallb_impl is_letter_or_digit); auto. apply letter_or_digit_not_colon.
  - apply (forallb_impl isdigit); auto.
    intros c H. apply letter_or_digit_not_colon, digit_letter_or_digit, H.
  - apply join_not_colon. exact Pc.
  - rewrite forallb_app, Cn. simpl. rewrite forallb_app. simpl. rewrite Cph.
    rewrite (email_format_chars not_colon); auto.
    intros c H. apply (email_local_plain c H).
  - exact Ca.
  - apply (forallb_impl isword); auto. apply word_not_colon.
Qed.

Lemma profile_eta (p : CompanyProfile) :
  p = mkCompanyProfile (company_name p) (uei p) (duns p) (naics p)
        (poc_name p) (poc_email p) (poc_phone p) (address p)
        (sam_registered p).
Proof. destruct p; reflexivity. Qed.

Lemma performance_eta (q : PastPerformance) :
  q = mkPastPerformance (customer q) (contract q) (value q) (period q)
        (contact q).
Proof. destruct q; reflexivity. Qed.

Lemma performance_lines_plain (cu co va pe ct : str) :
  performance_values_ok cu co va pe ct ->
  Forall (fun f => forallb not_colon (fst f) = true /\
                   forallb not_colon (snd f) = true)
    (performance_lines cu co va pe ct).
Proof.
  intros ((_ & _ & C1) & (_ & _ & C2) & (_ & _ & C3) & (_ & _ & C4)
          & (_ & _ & C5)).
  unfold performance_lines.
  repeat (apply Forall_cons; [split; [reflexivity|] |]); try apply Forall_nil;
    simpl; assumption.
Qed.

(** ** Texts without a label *)

Lemma absent_not_here (label : str) (p : ascii -> bool) (text pre : str) :
  absent label text -> ~ labelled_here label p text pre.
Proof.
  intros A (lab & ws & c & rest & E & L & _).
  rewrite (A pre lab (ws ++ c :: rest) E) in L. discriminate.
Qed.

Lemma absent_unset (A : Type) (label : str) (p : ascii -> bool)
    (post : str -> A) (text : str) (field : option A) :
  labelled_field label p post text field -> absent label text -> field = None.
Proof.
  intros (og & Fo & ->) Ab. destruct og as [g|]; [|reflexivity].
  exfalso. destruct Fo as (pre & (lab & ws & rest & E & L & _) & _).
  rewrite (Ab pre lab (ws ++ g ++ rest) E) in L. discriminate.
Qed.

Lemma absent_no_poc (text : str) :
  absent "POC:" text ->
  poc_name (parse_company_profile text) = None /\
  poc_email (parse_company_profile text) = None /\
  poc_phone (parse_company_profile text) = None.
Proof.
  intros Ab. pose proof (poc_fields_first text) as F.
  destruct (poc_name (parse_company_profile text)) as [a|],
           (poc_email (parse_company_profile text)) as [b|],
           (poc_phone (parse_company_profile text)) as [c|];
    simpl in F; try contradiction; auto.
  exfalso. destruct F as (pre & s1 & s2 & g3 & (lab & ws3 & rest & E & L & _) & _).
  rewrite (Ab pre lab _ E) in L. discriminate.
Qed.

Lemma absent_no_naics (text : str) :
  absent "NAICS:" text -> naics (parse_company_profile text) = [].
Proof.
  intros Ab. destruct (naics_first_match text) as (run & Fr & ->).
  destruct run as [g|]; [|reflexivity].
  exfalso. destruct Fr as (pre & (lab & ws & rest & E & L & _) & _).
  rewrite (Ab pre lab _ E) in L. discriminate.
Qed.

Lemma sam_labelled (text : str) :
  labelled_field "SAM.gov:" isword
    (fun w => str_eqb (str_lower w) "registered") text
    (sam_registered (parse_company_profile text)).
Proof.
  rewrite sam_registered_field.
  apply (@search_labelled_field _ "SAM.gov:" cs_sam _
           (fun w => str_eqb (str_lower w) "registered") text sam_class).
Qed.

(** A text without colon holds no label. *)
Lemma colon_free_absent (b text : str) :
  forallb not_colon text = true -> absent (b ++ [colon]) text.
Proof.
  intros C pre lab rest E.
  destruct (lit_ok true (b ++ [colon]) lab) eqn:L; [|reflexivity].
  exfalso. destruct (lit_ok_app _ _ _ _ L) as (b' & m2 & -> & _ & Lc).
  destruct m2 as [|c m2]; simpl in Lc; [discriminate|].
  apply andb_prop in Lc. destruct Lc as [Lc _].
  rewrite chr_match_of_colon in Lc. apply Ascii.eqb_eq in Lc. subst c.
  rewrite E, !forallb_app in C. simpl in C.
  replace (not_colon colon) with false in C by reflexivity.
  rewrite !andb_false_r in C. discriminate.
Qed.

Lemma company_name_truthy (text : str) :
  truthy (company_name (parse_company_profile text)) =
    negb (forallb isspace text).
Proof.
  rewrite company_name_field. destruct (forallb isspace text) eqn:B.
  - rewrite (strip_all_space _ B). reflexivity.
  - destruct (strip text) as [|c t] eqn:T.
    + apply strip_nil_iff in T. rewrite T in B. discriminate.
    + pose proof (strip_starts_black _ T) as Hc.
      destruct (split_first_line nl c t (space_newline c Hc)) as (l0 & ls & S).
      rewrite S. simpl. rewrite strip_cons_black by exact Hc. reflexivity.
Qed.

(** X14. A field whose label occurs nowhere in the text, in any case, is
    left unset, whatever else the text holds, and its issue is reported;
    without the NAICS label no code is extracted and nothing recommended,
    and without the POC label none of the three POC fields is set. *)
Theorem absent_label_unset (text : str) (q : PastPerformance) :
  let p := parse_company_profile text in
  let found := validate_fields p q in
  (forall f : id_field, absent (id_label f) text -> id_field_of f text = None) /\
  (forall f : line_field, absent (line_label f) text ->
                          line_field_of f text = None) /\
  (absent "UEI:" text -> In "missing_uei" found) /\
  (absent "DUNS:" text -> In "missing_duns" found) /\
  (absent "NAICS:" text ->
   naics p = [] /\ map_naics_to_sins (naics p) = [] /\
   In "missing_naics" found) /\
  (absent "POC:" text ->
   poc_name p = None /\ poc_email p = None /\ poc_phone p = None /\
   In "missing_poc_name" found /\ In "missing_poc_email" found /\
   In "missing_poc_phone" found) /\
  (absent "Address:" text -> In "missing_address" found) /\
  (absent "SAM.gov:" text ->
   sam_registered p = None /\ In "missing_sam_status" found).
Proof.
  intros p found. subst found p.
  destruct (issue_reported (parse_company_profile text) q)
    as (_ & I2 & I3 & I4 & I5 & I6 & _ & I8 & I9 & I10 & _).
  cbv zeta in *.
  assert (Hid : forall f : id_field, absent (id_label f) text ->
                                     id_field_of f text = None).
  { intros f. apply (absent_unset (id_field_labelled f text)). }
  assert (Hline : forall f : line_field, absent (line_label f) text ->
                                         line_field_of f text = None).
  { intros f. apply (absent_unset (line_field_labelled f text)). }
  split; [exact Hid|]. split; [exact Hline|].
  split.
  { intros H. apply I2. pose proof (Hid FUei H) as U. simpl in U.
    rewrite U. reflexivity. }
  split.
  { intros H. apply I3. pose proof (Hid FDuns H) as U. simpl in U.
    rewrite U. reflexivity. }
  split.
  { intros H. pose proof (absent_no_naics H) as N.
    split; [exact N|]. split; [rewrite N; reflexivity | apply I4; exact N]. }
  split.
  { intros H. destruct (absent_no_poc H) as (P1 & P2 & P3).
    repeat split; auto;
      [apply I5; rewrite P1 | apply I6; rewrite P2 | apply I8; rewrite P3];
      reflexivity. }
  split.
  { intros H. apply I9. pose proof (Hline FAddress H) as U. simpl in U.
    rewrite U. reflexivity. }
  intros H. pose proof (absent_unset (sam_labelled text) H) as S.
  split; [exact S | apply I10; exact S].
Qed.

(** X15. Documents without a colon hold no labelled field.  For every two
    texts without colon, every field but the company name is unset; the
    issues are [missing_company_name], if the profile text is blank, and
    then the thirteen other missing-field codes in the order of the
    checks; nothing is recommended and no check of the checklist holds. *)
Theorem colon_free_documents (profile_text performance_text : str) :
  forallb not_colon profile_text = true ->
  forallb not_colon performance_text = true ->
  let r := ingest_documents profile_text performance_text in
  parsed_company_profile r =
    mkCompanyProfile (company_name (parsed_company_profile r))
      None None [] None None None None None /\
  parsed_past_performance r = PastPerformance_new /\
  issues r =
    flag (forallb isspace profile_text) "missing_company_name"
    ++ UNLABELLED_ISSUES /\
  recommended_sins r = [] /\
  overall_ok (checklist r) = false /\
  ok (has_company_info (checklist r)) = false /\
  ok (has_valid_naics (checklist r)) = false /\
  ok (has_poc_info (checklist r)) = false /\
  ok (has_sam_registration (checklist r)) = false /\
  ok (has_past_performance (checklist r)) = false.
Proof.
  intros Cp Cq r.
  assert (Ap : forall b, absent (b ++ [colon]) profile_text)
    by (intros b; apply colon_free_absent; exact Cp).
  assert (Aq : forall b, absent (b ++ [colon]) performance_text)
    by (intros b; apply colon_free_absent; exact Cq).
  assert (Rp : parse_company_profile profile_text =
               mkCompanyProfile (company_name (parse_company_profile profile_text))
                 None None [] None None None None None).
  { rewrite (profile_eta (parse_company_profile profile_text)) at 1.
    destruct (absent_no_poc (Ap (str_of "POC"))) as (P1 & P2 & P3).
    assert (U1 : uei (parse_company_profile profile_text) = None)
      by exact (absent_unset (id_field_labelled FUei profile_text)
                  (Ap (str_of "UEI"))).
    assert (U2 : duns (parse_company_profile profile_text) = None)
      by exact (absent_unset (id_field_labelled FDuns profile_text)
                  (Ap (str_of "DUNS"))).
    assert (U3 : address (parse_company_profile profile_text) = None)
      by exact (absent_unset (line_field_labelled FAddress profile_text)
                  (Ap (str_of "Address"))).
    rewrite P1, P2, P3, U1, U2, U3.
    rewrite (absent_no_naics (Ap (str_of "NAICS"))).
    rewrite (absent_unset (sam_labelled profile_text) (Ap (str_of "SAM.gov"))).
    reflexivity. }
  assert (Rq : parse_past_performance performance_text = PastPerformance_new).
  { rewrite (performance_eta (parse_past_performance performance_text)).
    assert (U1 : customer (parse_past_performance performance_text) = None)
      by exact (absent_unset (line_field_labelled FCustomer performance_text)
                  (Aq (str_of "Customer"))).
    assert (U2 : contract (parse_past_performance performance_text) = None)
      by exact (absent_unset (line_field_labelled FContract performance_text)
                  (Aq (str_of "Contract"))).
    assert (U3 : value (parse_past_performance performance_text) = None)
      by exact (absent_unset (line_field_labelled FValue performance_text)
                  (Aq (str_of "Value"))).
    assert (U4 : period (parse_past_performance performance_text) = None)
      by exact (absent_unset (line_field_labelled FPeriod performance_text)
                  (Aq (str_of "Period"))).
    assert (U5 : contact (parse_past_performance performance_text) = None)
      by exact (absent_unset (line_field_labelled FContact performance_text)
                  (Aq (str_of "Contact"))).
    rewrite U1, U2, U3, U4, U5. reflexivity. }
  assert (I0 : issues r =
               flag (forallb isspace profile_text) "missing_company_name"
               ++ UNLABELLED_ISSUES).
  { subst r. unfold ingest_documents. cbv zeta. cbn [issues].
    rewrite validate_fields_flags, Rq, Rp.
    cbn [company_name uei duns naics poc_name poc_email poc_phone address
         sam_registered customer contract value period contact].
    rewrite company_name_truthy, negb_involutive. reflexivity. }
  split; [exact Rp|]. split; [exact Rq|]. split; [exact I0|].
  subst r. unfold ingest_documents in *. cbv zeta in *.
  cbn [issues checklist recommended_sins] in *. rewrite I0.
  rewrite Rq, Rp. unfold generate_checklist.
  cbn [overall_ok has_company_info has_valid_naics has_poc_info
       has_past_performance has_sam_registration ok
       company_name uei duns naics poc_name poc_email poc_phone address
       sam_registered customer contract value period contact].
  repeat split; try reflexivity; try apply andb_false_r.
  destruct (forallb isspace profile_text); reflexivity.
Qed.

(** Scenario B: the profile text holds the company name only. *)
Lemma colon_free_documents_witness :
  issues (ingest_documents "Acme Corp" []) = UNLABELLED_ISSUES /\
  recommended_sins (ingest_documents "Acme Corp" []) = [].
Proof.
  destruct (@colon_free_documents "Acme Corp" [] eq_refl eq_refl)
    as (_ & _ & H3 & H4 & _).
  split; [exact H3 | exact H4].
Defined.

(** ** The company name is the first line that is not blank *)

Lemma dropwhile_app_not_all (p : ascii -> bool) (x y : str) :
  forallb p x = false -> dropwhile p (x ++ y) = dropwhile p x ++ y.
Proof.
  induction x as [|c x IH]; simpl; [discriminate|].
  destruct (p c); simpl; auto.
Qed.

Lemma rstrip_app_black (a b : str) :
  forallb isspace b = false -> rstrip (a ++ b) = a ++ rstrip b.
Proof.
  intros H. unfold rstrip.
  rewrite rev_app_distr, dropwhile_app_not_all by (rewrite forallb_rev; exact H).
  rewrite rev_app_distr, rev_involutive. reflexivity.
Qed.

Lemma rstrip_app_space (a b : str) :
  forallb isspace b = true -> rstrip (a ++ b) = rstrip a.
Proof.
  intros H. unfold rstrip.
  rewrite rev_app_distr, dropwhile_all by (rewrite forallb_rev; exact H).
  reflexivity.
Qed.

Lemma first_line_name (ws name rest : str) :
  forallb isspace ws = true ->
  starts_black name -> forallb not_newline name = true ->
  rest = [] \/ (exists t, rest = nl :: t) ->
  company_name (parse_company_profile (ws ++ name ++ rest)) =
    Some (strip name).
Proof.
  intros W B N R. rewrite company_name_field, strip_app_space by exact W.
  destruct name as [|c name]; [contradiction|]. simpl in B.
  cbn [app]. rewrite strip_cons_black by exact B.
  destruct (forallb isspace rest) eqn:S.
  - rewrite rstrip_app_space by exact S.
    rewrite <- strip_cons_black by exact B.
    rewrite split_no_sep.
    + rewrite strip_idem. reflexivity.
    + apply strip_keeps. exact N.
  - destruct R as [->|(t & ->)]; [discriminate|].
    rewrite rstrip_app_black by exact S.
    change (c :: name ++ rstrip (nl :: t)) with ((c :: name) ++ rstrip (nl :: t)).
    change (nl :: t) with ([nl] ++ t). simpl in S.
    rewrite rstrip_app_black by exact S.
    cbn [app]. change (c :: name ++ nl :: rstrip t)
      with ((c :: name) ++ nl :: rstrip t).
    rewrite split_app_sep_eq by exact N.
    rewrite strip_cons_black by exact B. reflexivity.
Qed.

(** X16. The company name is the first line that is not blank, trimmed.
    When the text reads white space (blank lines included), then a line
    that starts with another character, the name is that line without
    its trailing white space; it is not empty, and no
    [missing_company_name] is reported. *)
Theorem company_name_first_line (ws name rest : str) (q : PastPerformance) :
  forallb isspace ws = true ->
  starts_black name -> forallb not_newline name = true ->
  rest = [] \/ (exists t, rest = nl :: t) ->
  let p := parse_company_profile (ws ++ name ++ rest) in
  company_name p = Some (strip name) /\
  strip name <> [] /\
  ~ In "missing_company_name" (validate_fields p q).
Proof.
  intros W B N R p. subst p.
  pose proof (@first_line_name ws name rest W B N R) as E.
  assert (T : strip name <> []).
  { destruct name as [|c name]; [contradiction|]. simpl in B.
    rewrite strip_cons_black by exact B. discriminate. }
  split; [exact E|]. split; [exact T|].
  destruct (issue_reported (parse_company_profile (ws ++ name ++ rest)) q)
    as (I1 & _).
  cbv zeta in I1. rewrite I1, E. simpl.
  destruct (strip name); [contradiction | discriminate].
Qed.

(** A name on the second line, after a blank one, with white space on
    both sides. *)
Lemma company_name_first_line_witness :
  company_name
    (parse_company_profile (join_lines ["  "; " Acme Corp  "; "UEI: ABC123"])) =
  Some (str_of "Acme Corp").
Proof.
  assert (R : str_of (String (ascii_of_nat 10) "UEI: ABC123") = [] \/
              exists t, str_of (String (ascii_of_nat 10) "UEI: ABC123") = nl :: t).
  { right. eexists. reflexivity. }
  exact (proj1 (@company_name_first_line
                  (str_of "  " ++ nl :: str_of " ") (str_of "Acme Corp  ")
                  (str_of (String (ascii_of_nat 10) "UEI: ABC123"))
                  PastPerformance_new eq_refl eq_refl eq_refl R)).
Defined.

(** ** Labelled lines in any order *)

Lemma lines_after_split (hd : str) (fs1 fs2 : list (str * str)) (b v : str) :
  hd ++ lines_after (fs1 ++ (b, v) :: fs2) =
    (hd ++ lines_after fs1 ++ [nl]) ++ (b ++ [colon]) ++ v ++ lines_after fs2.
Proof.
  rewrite lines_after_app. cbn [lines_after].
  rewrite <- ?app_assoc. simpl. rewrite <- ?app_assoc. reflexivity.
Qed.

Lemma clash_free_spec (labels : list str) (b1 b2 : str) :
  clash_free labels = true -> In b1 labels -> In b2 labels -> b1 <> b2 ->
  ends_like b1 b2 = false.
Proof.
  unfold clash_free. intros C I1 I2 N.
  rewrite forallb_forall in C. specialize (C b1 I1).
  rewrite forallb_forall in C. specialize (C b2 I2).
  apply orb_prop in C. destruct C as [C|C].
  - apply str_eqb_eq in C. contradiction.
  - apply negb_true_iff. exact C.
Qed.

Section Lines.

Variable labels : list str.
Variable fields : list (str * str).

Hypothesis Hplain :
  Forall (fun f => forallb not_colon (fst f) = true /\
                   forallb not_colon (snd f) = true) fields.
Hypothesis Hnodup : NoDup (map fst fields).
Hypothesis Hlabels : forall g, In g fields -> In (fst g) labels.
Hypothesis Hclash : clash_free labels = true.
Hypothesis Hnl : forall b, In b labels -> forallb not_newline b = true.

Lemma line_split (b v : str) :
  In (b, v) fields ->
  exists fs1 fs2,
    fields = fs1 ++ (b, v) :: fs2 /\
    Forall (fun f => ends_like b (fst f) = false) fs1 /\
    (lines_after fs2 = [] \/
     exists b' t, In b' labels /\ lines_after fs2 = nl :: b' ++ colon :: t).
Proof.
  intros I. destruct (in_split _ _ I) as (fs1 & fs2 & E).
  exists fs1, fs2. split; [exact E|]. split.
  - apply Forall_forall. intros g Hg.
    apply (clash_free_spec labels); auto.
    + apply (Hlabels (b, v)). exact I.
    + apply Hlabels. rewrite E. apply in_or_app. left. exact Hg.
    + intros Eb. rewrite E, map_app in Hnodup. simpl in Hnodup.
      apply NoDup_remove_2 in Hnodup. apply Hnodup.
      apply in_or_app. left. rewrite Eb. apply in_map. exact Hg.
  - destruct fs2 as [|[b' v'] fs2]; [left; reflexivity|].
    right. exists b', (v' ++ lines_after fs2). split; [|reflexivity].
    apply (Hlabels (b', v')). rewrite E. apply in_or_app. right. right. left.
    reflexivity.
Qed.

(** A line of a document with a head. *)
Lemma line_position (hd b v : str) :
  forallb not_colon hd = true ->
  In (b, str_of " " ++ v) fields ->
  at_line labels (hd ++ lines_after fields) b v.
Proof.
  intros Hhd I. destruct (line_split _ _ I) as (fs1 & fs2 & E & Early & R).
  exists (hd ++ lines_after fs1 ++ [nl]), (lines_after fs2).
  split; [|split; [|exact R]].
  - rewrite E, lines_after_split, <- !app_assoc. reflexivity.
  - rewrite E. apply label_first_in_lines; auto.
    + rewrite <- E. exact Hplain.
    + apply Hnl. apply (Hlabels (b, str_of " " ++ v)). exact I.
Qed.

(** A line of a document without head, which starts with its first
    label. *)
Lemma line_position_headless (b v : str) :
  In (b, str_of " " ++ v) fields ->
  at_line labels (skipn 1 (lines_after fields)) b v.
Proof.
  intros I. destruct (line_split _ _ I) as (fs1 & fs2 & E & Early & R).
  assert (P : exists pre0, lines_after fs1 ++ [nl] = nl :: pre0).
  { destruct fs1 as [|[b1 v1] fs1]; simpl; eauto. }
  destruct P as (pre0 & P).
  assert (T : lines_after fields =
              nl :: pre0 ++ (b ++ [colon]) ++ str_of " " ++ v ++ lines_after fs2).
  { pose proof (lines_after_split [] fs1 fs2 b (str_of " " ++ v)) as S.
    cbn [app] in S. rewrite <- E in S. rewrite S.
    change (lines_after fs1 ++ [nl]) with ([] ++ lines_after fs1 ++ [nl]).
    cbn [app]. rewrite P. rewrite <- !app_assoc. reflexivity. }
  exists pre0, (lines_after fs2). rewrite T. cbn [skipn].
  split; [reflexivity|]. split; [|exact R].
  apply (@first_occurrence_tail _ _ _ nl).
  rewrite <- T, <- P, E.
  apply (@label_first_in_lines [] fs1 b (str_of " " ++ v) fs2); auto.
  - rewrite <- E. exact Hplain.
  - apply Hnl. apply (Hlabels (b, str_of " " ++ v)). exact I.
Qed.

End Lines.

Lemma stops_after_line (labels : list str) (p : ascii -> bool) (rest : str) :
  p nl = false ->
  rest = [] \/ (exists b' t, In b' labels /\ rest = nl :: b' ++ colon :: t) ->
  stops p rest.
Proof. intros H [->|(b' & t & _ & ->)]; simpl; auto. Qed.

Lemma at_line_field (A : Type) (labels : list str) (text b v : str)
    (p : ascii -> bool) (post : str -> A) (field : option A) :
  at_line labels text b v ->
  labelled_field (b ++ [colon]) p post text field ->
  starts_black v -> forallb p v = true -> p nl = false ->
  field = Some (post v).
Proof.
  intros (pre & rest & E & F & R) Lf B P N.
  apply (@labelled_field_first_occurrence _ _ _ _ _ _ pre (b ++ [colon])
           (str_of " ") v rest Lf E (lit_ok_refl _) F eq_refl B P).
  apply (stops_after_line labels); auto.
Qed.

Lemma at_line_naics (labels : list str) (text : str) (codes : list str) :
  at_line labels text "NAICS" (join (str_of ", ") codes) ->
  Forall (fun b' => stops is_naics_char (b' ++ [colon])) labels ->
  codes <> [] -> Forall is_code codes ->
  naics (parse_company_profile text) = codes.
Proof.
  intros (pre & rest & E & F & R) St N C.
  destruct R as [->|(b' & t & I0 & ->)].
  - apply (@naics_codes_read_back text pre (str_of "NAICS:") (str_of " ") [] []
             codes); auto. exact I.
  - apply (@naics_codes_read_back text pre (str_of "NAICS:") (str_of " ") [nl]
             (b' ++ colon :: t) codes); auto.
    rewrite Forall_forall in St. specialize (St b' I0).
    destruct b'; exact St.
Qed.

Lemma at_line_poc (labels : list str) (text n e ph : str) :
  at_line labels text "POC" (join (str_of ", ") [n; e; ph]) ->
  n <> [] -> forallb not_comma n = true ->
  e <> [] -> forallb not_comma e = true ->
  starts_black ph -> forallb not_newline ph = true ->
  poc_name (parse_company_profile text) = Some (strip n) /\
  poc_email (parse_company_profile text) = Some (strip e) /\
  poc_phone (parse_company_profile text) = Some (strip ph).
Proof.
  intros (pre & rest & E & F & R) Nn Cn Ne Ce B P.
  assert (E' : text = pre ++ str_of "POC:" ++ (str_of " " ++ n)
                 ++ comma :: (str_of " " ++ e) ++ comma :: str_of " "
                 ++ ph ++ rest).
  { rewrite E at 1. simpl. rewrite <- !app_assoc. simpl.
    rewrite <- !app_assoc. reflexivity. }
  destruct (@poc_fields_read_back text pre (str_of "POC:") (str_of " " ++ n)
              (str_of " " ++ e) (str_of " ") ph rest E' eq_refl F
              ltac:(discriminate) Cn ltac:(discriminate) Ce eq_refl B P
              (stops_after_line labels not_newline eq_refl R))
    as (R1 & R2 & R3).
  rewrite R1, R2, R3, !strip_app_space by reflexivity. auto.
Qed.

(** ** Written documents read back *)

Lemma profile_labels_distinct : NoDup PROFILE_LABELS.
Proof. repeat constructor; simpl; intuition discriminate. Qed.

Lemma performance_labels_distinct : NoDup PERFORMANCE_LABELS.
Proof. repeat constructor; simpl; intuition discriminate. Qed.

Lemma profile_line_position (name u d : str) (codes : list str)
    (n e ph a w : str) (lines : list (str * str)) (b v : str) :
  Permutation lines (profile_lines u d codes n e ph a w) ->
  profile_values_ok name u d codes n e ph a w ->
  In (b, str_of " " ++ v) (profile_lines u d codes n e ph a w) ->
  at_line PROFILE_LABELS (write_profile name lines) b v.
Proof.
  intros P V I. unfold write_profile.
  apply line_position.
  - apply (Permutation_Forall (Permutation_sym P)).
    exact (profile_lines_plain V).
  - apply (Permutation_NoDup (Permutation_map fst (Permutation_sym P))).
    exact profile_labels_distinct.
  - intros g Hg. apply (Permutation_in _ P) in Hg.
    apply (in_map fst) in Hg. exact Hg.
  - reflexivity.
  - apply Forall_forall. repeat constructor.
  - destruct V as ((_ & _ & C) & _). exact C.
  - apply (Permutation_in _ (Permutation_sym P)). exact I.
Qed.

Lemma performance_line_position (cu co va pe ct : str)
    (lines : list (str * str)) (b v : str) :
  Permutation lines (performance_lines cu co va pe ct) ->
  performance_values_ok cu co va pe ct ->
  In (b, str_of " " ++ v) (performance_lines cu co va pe ct) ->
  at_line PERFORMANCE_LABELS (write_performance lines) b v.
Proof.
  intros P V I. unfold write_performance.
  apply line_position_headless.
  - apply (Permutation_Forall (Permutation_sym P)).
    exact (performance_lines_plain V).
  - apply (Permutation_NoDup (Permutation_map fst (Permutation_sym P))).
    exact performance_labels_distinct.
  - intros g Hg. apply (Permutation_in _ P) in Hg.
    apply (in_map fst) in Hg. exact Hg.
  - reflexivity.
  - apply Forall_forall. repeat constructor.
  - apply (Permutation_in _ (Permutation_sym P)). exact I.
Qed.

Lemma lines_after_shape (lines : list (str * str)) :
  lines_after lines = [] \/ exists t, lines_after lines = nl :: t.
Proof. destruct lines as [|[b v] lines]; simpl; eauto. Qed.

Lemma written_profile_read_back (name u d : str) (codes : list str)
    (n e ph a w : str) (lines : list (str * str)) :
  Permutation lines (profile_lines u d codes n e ph a w) ->
  profile_values_ok name u d codes n e ph a w ->
  parse_company_profile (write_profile name lines) =
    mkCompanyProfile (Some (strip name)) (Some u) (Some d) codes
      (Some (strip n)) (Some e) (Some (strip ph)) (Some (strip a))
      (Some (str_eqb (str_lower w) "registered")).
Proof.
  intros P V.
  assert (At : forall b v,
             In (b, str_of " " ++ v) (profile_lines u d codes n e ph a w) ->
             at_line PROFILE_LABELS (write_profile name lines) b v).
  { intros b v. apply (profile_line_position P V). }
  destruct V as ((Bn & Nn & Cn) & (Nu & Pu) & (Nd & Pd) & (Nc & Pc)
                 & ((Bp & Np & Cp) & Mp) & Pe & (Bph & Nph & Cph)
                 & (Ba & Na & Ca) & (Nw & Pw)).
  set (text := write_profile name lines) in *.
  assert (Bu : starts_black u).
  { apply class_starts_black with (p := is_letter_or_digit); auto.
    apply letter_or_digit_black. }
  assert (Bd : starts_black d).
  { apply class_starts_black with (p := isdigit); auto. apply digit_black. }
  assert (Bw : starts_black w).
  { apply class_starts_black with (p := isword); auto. apply word_black. }
  assert (Ke : forallb not_comma e = true).
  { apply (email_format_chars not_comma); auto.
    intros c H. apply (email_local_plain c H). }
  assert (Se : forallb (fun c => negb (isspace c)) e = true).
  { apply (email_format_chars (fun c => negb (isspace c))); auto.
    intros c H. apply negb_true_iff. apply (email_local_plain c H). }
  assert (Ne : e <> []).
  { intros ->. discriminate (email_format_nonempty Pe). }
  destruct (@at_line_poc PROFILE_LABELS text n e ph)
    as (R5 & R6 & R7); auto.
  { apply At. simpl. tauto. }
  { apply starts_black_nonempty. exact Bp. }
  rewrite (profile_eta (parse_company_profile text)). f_equal.
  - unfold text, write_profile.
    apply (@first_line_name [] name (lines_after lines)); auto.
    apply lines_after_shape.
  - apply (@at_line_field _ PROFILE_LABELS text (str_of "UEI") u
             is_letter_or_digit (fun g => g)); auto.
    + apply At. simpl. tauto.
    + exact (id_field_labelled FUei text).
  - apply (@at_line_field _ PROFILE_LABELS text (str_of "DUNS") d
             isdigit (fun g => g)); auto.
    + apply At. simpl. tauto.
    + exact (id_field_labelled FDuns text).
  - apply (@at_line_naics PROFILE_LABELS text codes); auto.
    + apply At. simpl. tauto.
    + repeat constructor.
  - exact R5.
  - rewrite R6. f_equal.
    rewrite <- (app_nil_r e) at 1. apply (strip_black [] e []); auto.
  - exact R7.
  - apply (@at_line_field _ PROFILE_LABELS text (str_of "Address") a
             not_newline strip); auto.
    + apply At. simpl. tauto.
    + exact (line_field_labelled FAddress text).
  - apply (@at_line_field _ PROFILE_LABELS text (str_of "SAM.gov") w
             isword (fun w => str_eqb (str_lower w) "registered")); auto.
    + apply At. simpl. tauto.
    + exact (sam_labelled text).
Qed.

Lemma written_performance_read_back (cu co va pe ct : str)
    (lines : list (str * str)) :
  Permutation lines (performance_lines cu co va pe ct) ->
  performance_values_ok cu co va pe ct ->
  parse_past_performance (write_performance lines) =
    mkPastPerformance (Some (strip cu)) (Some (strip co)) (Some (strip va))
      (Some (strip pe)) (Some (strip ct)).
Proof.
  intros P V.
  assert (At : forall b v,
             In (b, str_of " " ++ v) (performance_lines cu co va pe ct) ->
             at_line PERFORMANCE_LABELS (write_performance lines) b v).
  { intros b v. apply (performance_line_position P V). }
  destruct V as ((B1 & N1 & C1) & (B2 & N2 & C2) & (B3 & N3 & C3)
                 & (B4 & N4 & C4) & (B5 & N5 & C5)).
  set (text := write_performance lines) in *.
  rewrite (performance_eta (parse_past_performance text)). f_equal.
  - apply (@at_line_field _ PERFORMANCE_LABELS text (str_of "Customer") cu
             not_newline strip); auto.
    + apply At. simpl. tauto.
    + exact (line_field_labelled FCustomer text).
  - apply (@at_line_field _ PERFORMANCE_LABELS text (str_of "Contract") co
             not_newline strip); auto.
    + apply At. simpl. tauto.
    + exact (line_field_labelled FContract text).
  - apply (@at_line_field _ PERFORMANCE_LABELS text (str_of "Value") va
             not_newline strip); auto.
    + apply At. simpl. tauto.
    + exact (line_field_labelled FValue text).
  - apply (@at_line_field _ PERFORMANCE_LABELS text (str_of "Period") pe
             not_newline strip); auto.
    + apply At. simpl. tauto.
    + exact (line_field_labelled FPeriod text).
  - apply (@at_line_field _ PERFORMANCE_LABELS text (str_of "Contact") ct
             not_newline strip); auto.
    + apply At. simpl. tauto.
    + exact (line_field_labelled FContact text).
Qed.

Lemma strip_black_truthy (v : str) :
  starts_black v -> truthy (Some (strip v)) = true.
Proof.
  destruct v as [|c v]; [contradiction|]. simpl. intros H.
  rewrite strip_cons_black by exact H. reflexivity.
Qed.

Lemma nonempty_true (s : str) : s <> [] -> nonempty s = true.
Proof. destruct s; [contradiction | reflexivity]. Qed.

Lemma email_format_ok (e : str) : email_format e -> email_ok (Some e) = true.
Proof.
  intros H. pose proof (email_format_nonempty H) as N.
  destruct e as [|c e]; [discriminate|]. simpl.
  apply validate_email_complete. exact H.
Qed.

(** X17. Written documents are read back, whatever the order of their
    lines.  Take a profile that reads the company name and then, in any
    order, one line per label ([UEI:], [DUNS:], [NAICS:], [POC:],
    [Address:], [SAM.gov:]) with its value after one space, and a past
    performance of the five lines [Customer:], [Contract:], [Value:],
    [Period:], [Contact:] in any order, the values being of their
    classes, starting with a character other than white space and free
    of colons and line breaks.  Then the pipeline extracts exactly these
    values (the free texts trimmed), reports no issue, recommends what
    the mapper gives for the codes, and every check of the checklist
    holds, the SAM check exactly when the status word is "registered" in
    any case. *)
Theorem written_documents_read_back (name u d : str) (codes : list str)
    (n e ph a w cu co va pe ct : str) (plines qlines : list (str * str)) :
  Permutation plines (profile_lines u d codes n e ph a w) ->
  Permutation qlines (performance_lines cu co va pe ct) ->
  profile_values_ok name u d codes n e ph a w ->
  performance_values_ok cu co va pe ct ->
  let r := ingest_documents (write_profile name plines)
             (write_performance qlines) in
  parsed_company_profile r =
    mkCompanyProfile (Some (strip name)) (Some u) (Some d) codes
      (Some (strip n)) (Some e) (Some (strip ph)) (Some (strip a))
      (Some (str_eqb (str_lower w) "registered")) /\
  parsed_past_performance r =
    mkPastPerformance (Some (strip cu)) (Some (strip co)) (Some (strip va))
      (Some (strip pe)) (Some (strip ct)) /\
  issues r = [] /\
  recommended_sins r = map_naics_to_sins codes /\
  overall_ok (checklist r) = true /\
  ok (has_company_info (checklist r)) = true /\
  ok (has_valid_naics (checklist r)) = true /\
  ok (has_poc_info (checklist r)) = true /\
  ok (has_past_performance (checklist r)) = true /\
  (ok (has_sam_registration (checklist r)) = true <->
   str_lower w = str_of "registered").
Proof.
  intros Pp Pq V Q r.
  pose proof (written_profile_read_back Pp V) as Rp.
  pose proof (written_performance_read_back Pq Q) as Rq.
  destruct V as ((Bn & _) & (Nu & _) & (Nd & _) & (Nc & _)
                 & ((Bp & _) & _) & Pe & (Bph & _) & (Ba & _) & (Nw & _)).
  destruct Q as ((B1 & _) & (B2 & _) & (B3 & _) & (B4 & _) & (B5 & _)).
  assert (Ne : nonempty e = true) by exact (email_format_nonempty Pe).
  assert (I0 : issues r = []).
  { subst r. unfold ingest_documents. cbv zeta. cbn [issues].
    rewrite Rp, Rq, validate_fields_flags.
    cbn [company_name uei duns naics poc_name poc_email poc_phone address
         sam_registered customer contract value period contact].
    rewrite !strip_black_truthy by assumption.
    cbn [truthy]. rewrite !nonempty_true by assumption.
    rewrite (proj2 (email_issue_nil (Some e)))
      by (split; [exact Ne | apply email_format_ok; exact Pe]).
    destruct codes; [contradiction | reflexivity]. }
  split; [exact Rp|]. split; [exact Rq|]. split; [exact I0|].
  split; [subst r; unfold ingest_documents; cbv zeta; cbn [recommended_sins];
          rewrite Rp; reflexivity|].
  subst r. unfold ingest_documents in *. cbv zeta in *.
  cbn [issues checklist] in *. rewrite I0. rewrite Rp, Rq.
  unfold generate_checklist.
  cbn [overall_ok has_company_info has_valid_naics has_poc_info
       has_past_performance has_sam_registration ok
       company_name uei duns naics poc_name poc_email poc_phone address
       sam_registered customer contract value period contact].
  rewrite !strip_black_truthy by assumption.
  cbn [truthy]. rewrite !nonempty_true by assumption.
  rewrite (email_format_ok Pe).
  repeat split; try reflexivity.
  - destruct codes; [contradiction | reflexivity].
  - intros H. apply str_eqb_eq.
    destruct (str_eqb (str_lower w) (str_of "registered")); simpl in H;
      [reflexivity | discriminate].
  - intros H. apply str_eqb_eq in H. rewrite H. reflexivity.
Qed.

(** Scenario A with the lines of its profile in the opposite order. *)
Lemma written_documents_read_back_witness :
  let plines := rev (profile_lines "ABC123" "123456789"
                       [str_of "541511"; str_of "541512"] "Jane Doe"
                       "jane@acme.com" "555-1234" "1 Main St" "registered") in
  let qlines := performance_lines "DoD" "C-100" "$50000" "2023" "John" in
  let r := ingest_documents (write_profile "Acme Corp" plines)
             (write_performance qlines) in
  write_profile "Acme Corp" plines =
    join_lines [ "Acme Corp"; "SAM.gov: registered"; "Address: 1 Main St";
                 "POC: Jane Doe, jane@acme.com, 555-1234";
                 "NAICS: 541511, 541512"; "DUNS: 123456789"; "UEI: ABC123" ] /\
  write_performance qlines = scenario_A_performance /\
  issues r = [] /\
  recommended_sins r = map_naics_to_sins [str_of "541511"; str_of "541512"].
Proof.
  cbv zeta.
  assert (V : profile_values_ok "Acme Corp" "ABC123" "123456789"
                [str_of "541511"; str_of "541512"] "Jane Doe" "jane@acme.com"
                "555-1234" "1 Main St" "registered").
  { unfold profile_values_ok, line_value_ok, is_code.
    repeat match goal with |- _ /\ _ => split end;
      try reflexivity; try discriminate.
    - repeat constructor; discriminate.
    - exists (str_of "jane"), (str_of "acme"), (str_of "com").
      repeat split; try reflexivity; try discriminate. simpl. lia. }
  assert (Q : performance_values_ok "DoD" "C-100" "$50000" "2023" "John").
  { unfold performance_values_ok, line_value_ok.
    repeat match goal with |- _ /\ _ => split end; reflexivity. }
  destruct (written_documents_read_back
              (Permutation_sym (Permutation_rev _)) (Permutation_refl _) V Q)
    as (_ & _ & H3 & H4 & _).
  split; [reflexivity|]. split; [reflexivity|]. split; [exact H3 | exact H4].
Defined.
